(** * run_rerun_vis: the rerun visualisation of SLAHMR results

    A shallow embedding of [slahmr/run_rerun_vis.py].  The recording sink
    ([rerun]), standard output, the process environment and the saved files
    form one explicit [world]; every Python function of the module is a
    computation in the state-and-exception monad [M] over that world.

    Arrays keep the element type the code gives them: keypoints and camera
    data are floats (kept as binary64 values, the keypoint array with its
    dtype beside it), visibility codes are integers, the entity paths are
    strings built exactly as the f-strings build them. *)

From Stdlib Require Import Floats Ascii.
From stdpp Require Import base option list gmap strings pretty sorting.

Set Warnings "-register-all,-inexact-float".


(** ** Values *)

Definition vec := list float.
Definition mat := list (list float).
Definition quat := list float.

(** One keypoint row of [joints2d]: [(x, y, confidence)]. *)
Definition joint : Type := float * float * float.
Definition joint_xy (j : joint) : float * float := (j.1.1, j.1.2).
Definition joint_conf (j : joint) : float := j.2.

(** The floating dtype of a keypoint array.  The values of the array are kept
    as binary64 floats, which hold every half and single precision value
    exactly; the dtype decides the precision in which numpy compares them
    with a Python constant. *)
Inductive float_dtype := Float16 | Float32 | Float64.

(** An opaque pose-parameter tensor: only passed on to the body model. *)
Inductive tensor := Tensor (shape : list nat) (data : list float).

(** Values of [args.gpus]: integers by default, strings from the command line. *)
Inductive pyval := PyInt (z : Z) | PyStr (s : string).

Definition py_str (v : pyval) : string :=
  match v with
  | PyInt z => pretty z
  | PyStr s => s
  end.

(** ** Exceptions and outcomes *)

Inductive exn :=
| IndexError
| KeyError (key : string)
| ValueError
| ZeroDivisionError
| ExternalError (what : string).

Inductive outcome (A : Type) :=
| Ok (a : A)
| Raise (e : exn).
Arguments Ok {A} a.
Arguments Raise {A} e.

(** ** The recording sink *)

(** What one [rr.log_*] call carries. *)
Inductive component :=
| ViewCoordinates (up : string)
| ImageFile (img_path : string)
| Pinhole (child_from_parent : mat) (width height : Z)
| Rigid3 (translation : vec) (rotation_q : quat) (xyz : string)
| Mesh (vertices : list vec) (indices : list (list Z)) (normals : list vec)
| LineSegments (points : list (float * float))
| Cleared.

(** A logged row: the entity path, the payload, and the value of the
    ["input_frame_id"] sequence timeline current when it was logged
    ([None]: timeless, or no time set yet). *)
Record row := Row {
  row_time : option nat;
  row_path : string;
  row_data : component
}.

Record world := World {
  rr_time : option nat;                  (* current "input_frame_id" *)
  rr_rows : list row;                    (* the current recording, oldest first *)
  stdout : list string;                  (* printed lines, oldest first *)
  files : list (string * list row);      (* rr.save: path and saved recording *)
  environ : gmap string string;          (* os.environ *)
  made_dirs : list string;               (* os.makedirs calls *)
  pools : list (nat * list nat)          (* Pool(processes).starmap over run indices *)
}.

Definition M (A : Type) : Type := world -> outcome A * world.

Definition ret {A} (a : A) : M A := fun w => (Ok a, w).
Definition raise {A} (e : exn) : M A := fun w => (Raise e, w).
Definition bind {A B} (m : M A) (k : A -> M B) : M B :=
  fun w =>
    match m w with
    | (Ok a, w') => k a w'
    | (Raise e, w') => (Raise e, w')
    end.

Declare Scope py_scope.
Delimit Scope py_scope with py.
Notation "'let!' x ':=' m 'in' k" := (bind m (fun x => k))
  (at level 10, x name, m at level 100, k at level 200) : py_scope.
Notation "m ';;' k" := (bind m (fun _ => k))
  (at level 100, k at level 200, right associativity) : py_scope.
Open Scope py_scope.

(** [x = l[i]] for a non-negative index: out of range raises [IndexError]. *)
Definition index {A} (l : list A) (i : nat) : M A :=
  match l !! i with
  | Some x => ret x
  | None => raise IndexError
  end.

(** Lifting the result of a collaborator that may raise. *)
Definition lift {A} (o : outcome A) : M A := fun w => (o, w).

(** [for x in l: body(x)] *)
Fixpoint for_each {A} (l : list A) (body : A -> M unit) : M unit :=
  match l with
  | [] => ret tt
  | x :: l' => body x ;; for_each l' body
  end.

(** [enumerate(l)] *)
Fixpoint enumerate_from {A} (k : nat) (l : list A) : list (nat * A) :=
  match l with
  | [] => []
  | x :: l' => (k, x) :: enumerate_from (S k) l'
  end.
Definition enumerate {A} (l : list A) : list (nat * A) := enumerate_from 0 l.

(** [range(n)] *)
Definition range (n : nat) : list nat := seq 0 n.

(** *** The [rr] calls used by the module *)

(** [rr.init]: a fresh recording becomes the current one. *)
Definition rr_init : M unit :=
  fun w => (Ok tt, World None [] (stdout w) (files w) (environ w) (made_dirs w) (pools w)).

(** [rr.set_time_sequence("input_frame_id", t)] *)
Definition rr_set_time_sequence (t : nat) : M unit :=
  fun w => (Ok tt, World (Some t) (rr_rows w) (stdout w) (files w) (environ w)
                         (made_dirs w) (pools w)).

Definition push_row (r : row) (w : world) : world :=
  World (rr_time w) (rr_rows w ++ [r]) (stdout w) (files w) (environ w)
        (made_dirs w) (pools w).

(** A timed log call: the row is stamped with the current timeline value. *)
Definition rr_log (path : string) (c : component) : M unit :=
  fun w => (Ok tt, push_row (Row (rr_time w) path c) w).

(** [timeless=True] *)
Definition rr_log_timeless (path : string) (c : component) : M unit :=
  fun w => (Ok tt, push_row (Row None path c) w).

(** [rr.save(path)]: the current recording is written to [path]. *)
Definition rr_save (path : string) : M unit :=
  fun w => (Ok tt, World (rr_time w) (rr_rows w) (stdout w)
                         (files w ++ [(path, rr_rows w)]) (environ w)
                         (made_dirs w) (pools w)).

Definition print (line : string) : M unit :=
  fun w => (Ok tt, World (rr_time w) (rr_rows w) (stdout w ++ [line]) (files w)
                         (environ w) (made_dirs w) (pools w)).

Definition setenv (k v : string) : M unit :=
  fun w => (Ok tt, World (rr_time w) (rr_rows w) (stdout w) (files w)
                         (<[k:=v]> (environ w)) (made_dirs w) (pools w)).

Definition makedirs (d : string) : M unit :=
  fun w => (Ok tt, World (rr_time w) (rr_rows w) (stdout w) (files w) (environ w)
                         (made_dirs w ++ [d]) (pools w)).

(** *** The process pool

    [with Pool(processes=n) as pool: pool.starmap(f, tasks)] with the
    ["spawn"] start method.  A worker is a fresh process: it has its own
    recording and its own copy of the parent's environment, and shares the
    terminal and the file system with the parent.  [starmap] cuts the tasks
    into batches; a worker runs the tasks of a batch in order and stops the
    batch at the first exception; the call returns when every batch is done
    and re-raises the exception of the failing batch that reported first.
    Which worker takes a batch and which failing batch reports first is the
    scheduler's choice: [assign] and [first] stand for it.  Batches are run
    here one after the other in the order they are handed out. *)

Record worker := Worker {
  wk_time : option nat;
  wk_rows : list row;
  wk_environ : gmap string string
}.

(** The world a task sees inside a worker. *)
Definition worker_world (k : worker) (w : world) : world :=
  World (wk_time k) (wk_rows k) (stdout w) (files w) (wk_environ k) (made_dirs w) [].

(** What a task leaves in its worker, and what it leaves to the parent. *)
Definition worker_after (v : world) : worker :=
  Worker (rr_time v) (rr_rows v) (environ v).

Definition parent_after (v w : world) : world :=
  World (rr_time w) (rr_rows w) (stdout v) (files v) (environ w) (made_dirs v) (pools w).

(** [chunksize, extra = divmod(len(tasks), len(pool) * 4)], plus one when
    there is a remainder. *)
Definition pool_chunksize (processes n : nat) : nat :=
  if bool_decide (n mod (processes * 4) = 0) then n / (processes * 4)
  else S (n / (processes * 4)).

(** [Pool._get_tasks]: the tasks in batches of [size]; [fuel] bounds the
    number of batches. *)
Fixpoint batches {A} (fuel size : nat) (l : list A) : list (list A) :=
  match fuel, l with
  | S fuel', _ :: _ => take size l :: batches fuel' size (drop size l)
  | _, _ => []
  end.

(** The batches from number [c] on, run on the workers [ks]: the exceptions
    of the failing batches, the workers and the parent's world at the end. *)
Fixpoint run_batches (f : nat -> M unit) (assign : nat -> nat) (c : nat)
    (bs : list (list nat)) (ks : list worker) (w : world)
  : list exn * list worker * world :=
  match bs with
  | [] => ([], ks, w)
  | b :: bs' =>
      let j := assign c mod length ks in
      let k := default (Worker None [] ∅) (ks !! j) in
      let r := for_each b f (worker_world k w) in
      let rest := run_batches f assign (S c) bs' (<[j := worker_after r.2]> ks)
                              (parent_after r.2 w) in
      (match r.1 with Ok _ => rest.1.1 | Raise e => e :: rest.1.1 end,
       rest.1.2, rest.2)
  end.

Definition pool_starmap (assign first : nat -> nat) (processes : nat)
    (f : nat -> M unit) (tasks : list nat) : M unit :=
  fun w =>
    if bool_decide (processes < 1) then (Raise ValueError, w)
    else
      let bs := batches (length tasks) (pool_chunksize processes (length tasks)) tasks in
      let ks := replicate processes (Worker None [] (environ w)) in
      let r := run_batches f assign 0 bs ks w in
      let w' := World (rr_time r.2) (rr_rows r.2) (stdout r.2) (files r.2) (environ r.2)
                      (made_dirs r.2) (pools r.2 ++ [(processes, tasks)]) in
      match r.1.1 !! (first (length r.1.1) mod length r.1.1) with
      | Some e => (Raise e, w')
      | None => (Ok tt, w')
      end.

(** ** Strings: the [str] and [os.path] operations of the module *)

(** [os.path.join(a, b)] on POSIX paths. *)
Definition ends_with_slash (s : string) : bool :=
  match String.rev s with
  | String c _ => bool_decide (c = "/"%char)
  | "" => false
  end.

Definition path_join (a b : string) : string :=
  if String.prefix "/" b then b
  else if bool_decide (a = "") || ends_with_slash a then a +:+ b
  else a +:+ "/" +:+ b.

(** [s.split(sep)] for a non-empty [sep]: [skip] counts the characters of a
    separator occurrence still to be passed over, [acc] is the piece read so far. *)
Fixpoint split_go (sep : string) (skip : nat) (acc : string) (s : string) : list string :=
  match s with
  | "" => [acc]
  | String c s' =>
      match skip with
      | S k => split_go sep k acc s'
      | O =>
          if String.prefix sep s
          then acc :: split_go sep (String.length sep - 1) "" s'
          else split_go sep 0 (acc +:+ String c "") s'
      end
  end.

Definition py_split (s sep : string) : M (list string) :=
  if bool_decide (sep = "") then raise ValueError else ret (split_go sep 0 "" s).

(** [s.strip("/")] *)
Fixpoint lstrip_slash (s : string) : string :=
  match s with
  | String c s' => if bool_decide (c = "/"%char) then lstrip_slash s' else s
  | "" => ""
  end.

Definition strip_slash (s : string) : string :=
  String.rev (lstrip_slash (String.rev (lstrip_slash s))).

(** ["-".join(parts)] *)
Fixpoint join_dash (parts : list string) : string :=
  match parts with
  | [] => ""
  | [p] => p
  | p :: rest => p +:+ "-" +:+ join_dash rest
  end.

(** [sorted(keys)] on strings: ascending in the lexicographic order of the
    characters' codes (strings are UTF-8 bytes here, which order the same
    way as code points do). *)
Definition py_sorted (keys : list string) : list string := merge_sort String.le keys.

(** ** The dataset and a phase result *)

(** [dataset.get_camera_data()] *)
Record cam_data := CamData {
  cam_t : list vec;
  cam_R : list mat;
  intrins : list (float * float * float * float)
}.

(** The attributes of [dataset.MultiPeopleDataset] the module reads.
    [load_data()] fills [data_dict] in the class, which is not part of this
    file: the record is the dataset with its data loaded. *)
Record dataset := Dataset {
  track_ids : list Z;
  seq_len : nat;
  img_size : Z * Z;
  sel_img_paths : list string;
  get_camera_data : cam_data;
  vis_mask : list (list Z);               (* data_dict["vis_mask"]: -1, 0, 1 *)
  joints2d : list (list (list joint));    (* data_dict["joints2d"]: per track (T, J, 3) *)
  joints2d_dtype : float_dtype            (* the dtype of the [joints2d] arrays *)
}.

(** Modelled from the spec: [MultiPeopleDataset.__len__] is defined outside this
    file; the spec's empty dataset is one with no tracks, so [len(dataset)] is
    the number of track ids. *)
Definition dataset_len (d : dataset) : nat := length (track_ids d).

(** The entries of a phase result that [log_phase_result] reads. [betas] is
    read with [.get], the camera arrays are indexed [[k, frame]]. *)
Record phase_result := PhaseResult {
  trans : tensor;
  root_orient : tensor;
  pose_body : tensor;
  betas : option tensor;
  res_cam_t : list (list vec);
  res_cam_R : list (list mat)
}.

(** The output of [run_smpl]: vertices per (track, frame) and the shared faces. *)
Record smpl_output := SmplOutput {
  smpl_vertices : list (list (list vec));
  smpl_faces : list (list Z)
}.

(** The configuration entries the module reads. *)
Record config := Config {
  paths_smpl : string;
  data_sources : list string
}.

(** Flags handed through as keyword arguments and never read here. *)
Record vis_options := VisOptions {
  opt_overwrite : bool;
  opt_accumulate : bool;
  opt_render_kps : bool;
  opt_render_layers : bool;
  opt_render_views : list string;
  opt_save_frames : bool;
  opt_make_grid : bool
}.

(** A directory tree as [os.walk] sees it. *)
Inductive fs_dir := Dir (name : string) (subdirs : list fs_dir) (file_names : list string).

Definition dir_name (d : fs_dir) : string := match d with Dir n _ _ => n end.

(** The collaborators imported by the module (scipy, trimesh, the body model,
    the result store, the file system, the pool's scheduler). Those that can
    fail return an [outcome]: [rotation_as_quat] is
    [Rotation.from_matrix(m).as_quat()], and [from_matrix] raises on a matrix
    it does not take for a rotation. *)
Record externals := Externals {
  rotation_as_quat : mat -> outcome quat;
  vertex_normals : list vec -> list (list Z) -> list vec;
  resolve_cfg_paths : config -> config;
  load_smpl_body_model : string -> nat -> outcome tensor;
  run_smpl : tensor -> tensor -> tensor -> tensor -> option tensor -> outcome smpl_output;
  get_input_dict : dataset -> phase_result;
  isdir : string -> bool;
  get_results_paths : string -> gmap string string;
  load_result : string -> outcome (gmap string phase_result);
  load_config_from_log : string -> outcome config;
  expand_source_paths : list string -> list string;
  sources_repr : list string -> string;
  get_dataset_from_cfg : config -> outcome dataset;
  walk_tree : string -> option fs_dir;
  pool_worker : nat -> nat;          (* batch number -> the worker that takes it *)
  pool_first_failure : nat -> nat    (* number of failed batches -> the one reported *)
}.

(** [os.walk(top)], top-down: the entry of a directory, then the walks of its
    subdirectories in listing order. *)
Fixpoint os_walk (root : string) (d : fs_dir) : list (string * list string * list string) :=
  match d with
  | Dir _ subs fnames =>
      (root, map dir_name subs, fnames)
        :: flat_map (fun s => os_walk (path_join root (dir_name s)) s) subs
  end.

(** ** The skeleton tables and the confidence filter *)

Definition skeleton_ids : list (nat * nat) :=
  [ (15, 13); (13, 11); (16, 14); (14, 12); (11, 12); (5, 11); (6, 12); (5, 6);
    (5, 7); (6, 8); (7, 9); (8, 10); (1, 2); (0, 1); (0, 2); (1, 3); (2, 4);
    (3, 5); (4, 6) ]%nat.

Definition idcs : list nat :=
  [0; 16; 15; 18; 17; 5; 2; 6; 3; 7; 4; 12; 9; 13; 10; 14; 11]%nat.

(** The constant [0.3] of [joint_confidence > 0.3]: numpy compares an array
    with a Python float in the array's dtype, so the constant is rounded to
    that dtype (to nearest) before the comparison. *)
Definition conf_threshold (dt : float_dtype) : float :=
  match dt with
  | Float16 => 0x1.334p-2
  | Float32 => 0x1.333334p-2
  | Float64 => 0.3
  end%float.

(** [min] over an axis of two entries, as numpy reduces it: a NaN propagates. *)
Definition np_min (a b : float) : float :=
  if PrimFloat.is_nan a then a
  else if PrimFloat.is_nan b then b
  else if PrimFloat.ltb b a then b else a.

(** [a[ix]] with an integer index list: every index must be in range. *)
Definition fancy_index {A} (a : list A) (ix : list nat) : option (list A) :=
  mapM (fun i => a !! i) ix.

(** [frame_joints[idcs][skeleton_ids]]: the (19, 2, 3) array of segment endpoints. *)
Definition segment_joints (frame_joints : list joint) : option (list (joint * joint)) :=
  remapped ← fancy_index frame_joints idcs;
  mapM (fun e : nat * nat =>
          p ← remapped !! e.1; q ← remapped !! e.2; Some (p, q)) skeleton_ids.

(** [joints[..., 2].min(axis=-1)] *)
Definition joint_confidence (joints : list (joint * joint)) : list float :=
  map (fun s => np_min (joint_conf s.1) (joint_conf s.2)) joints.

(** [a[mask]] with a boolean mask over the first axis. *)
Fixpoint mask_select {A} (mask : list bool) (a : list A) : list A :=
  match mask, a with
  | m :: mask', x :: a' => if m then x :: mask_select mask' a' else mask_select mask' a'
  | _, _ => []
  end.

(** [joints[joint_confidence > 0.3, :, :2]] for an array of dtype [dt] *)
Definition good_joints_xy (dt : float_dtype) (joints : list (joint * joint))
  : list ((float * float) * (float * float)) :=
  map (fun s => (joint_xy s.1, joint_xy s.2))
      (mask_select (map (fun c => PrimFloat.ltb (conf_threshold dt) c)
                        (joint_confidence joints))
                   joints).

(** [good_joints_xy.reshape(-2, 2)]: numpy infers the dimension given as a
    negative number, so the (k, 2, 2) array becomes the 2k points in order. *)
Definition reshape_points (g : list ((float * float) * (float * float)))
  : list (float * float) :=
  flat_map (fun s => [s.1; s.2]) g.

Definition skeleton_path (i : nat) : string :=
  "world/camera/image/skeleton/#" +:+ pretty i.

Definition phase_path (phase : string) (i : nat) : string :=
  "world/phase_" +:+ phase +:+ "/#" +:+ pretty i.

(** [sorted(res_path_dict.keys())[-1]] *)
Definition dict_keys {V} (m : gmap string V) : list string := (map_to_list m).*1.

Definition latest_iteration {V} (res_path_dict : gmap string V) : M string :=
  match last (py_sorted (dict_keys res_path_dict)) with
  | Some it => ret it
  | None => raise IndexError
  end.

(** [d[k]] on a dict *)
Definition getitem {V} (d : gmap string V) (k : string) : M V :=
  match d !! k with
  | Some v => ret v
  | None => raise (KeyError k)
  end.

(** ** The functions of the module *)

Section Module_functions.

Variable X : externals.

(** [log_input_frames] *)
Definition log_input_frames (ds : dataset) : M unit :=
  for_each (enumerate (sel_img_paths ds)) (fun fp =>
    rr_set_time_sequence fp.1 ;;
    rr_log "world/camera/image" (ImageFile fp.2)).

(** The body of the frame loop of [log_skeleton_2d] for track index [i]. *)
Definition log_skeleton_frame (dt : float_dtype) (i : nat) (frame_id : nat)
    (frame_joints : list joint) : M unit :=
  let! joints := match segment_joints frame_joints with
                 | Some j => ret j
                 | None => raise IndexError
                 end in
  let good := good_joints_xy dt joints in
  rr_set_time_sequence frame_id ;;
  if bool_decide (length good ≠ 0)
  then rr_log (skeleton_path i) (LineSegments (reshape_points good))
  else rr_log (skeleton_path i) Cleared.

(** [log_skeleton_2d]. [dataset.load_data()] fills the [data_dict] that the
    dataset record already carries. *)
Definition log_skeleton_2d (ds : dataset) : M unit :=
  for_each (enumerate (track_ids ds)) (fun it =>
    let! joints2d_i := index (joints2d ds) it.1 in
    for_each (enumerate joints2d_i) (fun ff =>
      log_skeleton_frame (joints2d_dtype ds) it.1 ff.1 ff.2)).

(** The body of the frame loop of [log_camera]. *)
Definition log_camera_frame (ds : dataset) (frame_id : nat) : M unit :=
  let cam := get_camera_data ds in
  let! translation := index (cam_t cam) frame_id in
  let! rotation_mat := index (cam_R cam) frame_id in
  let! rotation_q := lift (rotation_as_quat X rotation_mat) in
  let! k := index (intrins cam) frame_id in
  let '(fx, fy, cx, cy) := k in
  let '(width, height) := img_size ds in
  rr_set_time_sequence frame_id ;;
  rr_log "world/camera/image"
         (Pinhole [[fx; 0%float; cx]; [0%float; fy; cy]; [0%float; 0%float; 1%float]]
                  width height) ;;
  rr_log "world/camera" (Rigid3 translation rotation_q "RDF").

(** [log_camera] *)
Definition log_camera (ds : dataset) : M unit :=
  for_each (range (seq_len ds)) (log_camera_frame ds).

(** The body of the track loop of [log_phase_result] at one frame. *)
Definition log_phase_track (ds : dataset) (phase : string)
    (vertices : list (list (list vec))) (faces : list (list Z))
    (frame_id : nat) (i : nat) : M unit :=
  let! vis_i := index (vis_mask ds) i in
  let! code := index vis_i frame_id in
  if bool_decide (0 ≤ code)%Z then
    let! verts_i := index vertices i in
    let! verts := index verts_i frame_id in
    let normals := vertex_normals X verts faces in
    rr_log (phase_path phase i) (Mesh verts faces normals)
  else
    rr_log (phase_path phase i) Cleared.

(** The body of the frame loop of [log_phase_result]. *)
Definition log_phase_frame (ds : dataset) (phase : string) (res : phase_result)
    (vertices : list (list (list vec))) (faces : list (list Z))
    (frame_id : nat) : M unit :=
  rr_set_time_sequence frame_id ;;
  let! cam_t1 := index (res_cam_t res) 1 in
  let! translation := index cam_t1 frame_id in
  let! cam_R1 := index (res_cam_R res) 1 in
  let! rotation_mat := index cam_R1 frame_id in
  let! rotation_q := lift (rotation_as_quat X rotation_mat) in
  rr_log "world/camera" (Rigid3 translation rotation_q "RDF") ;;
  for_each (enumerate (track_ids ds)) (fun it =>
    log_phase_track ds phase vertices faces frame_id it.1).

(** [log_phase_result]. Moving tensors to the device keeps their values, so
    [get_device] and [move_to] leave no trace in the model. *)
Definition log_phase_result (cfg : config) (ds : dataset) (dev_id : pyval)
    (phase : string) (res : phase_result) : M unit :=
  let B := dataset_len ds in
  let num_frames := seq_len ds in
  let cfg := resolve_cfg_paths X cfg in
  let! body_model := lift (load_smpl_body_model X (paths_smpl cfg) (B * num_frames)) in
  let! world_smpl := lift (run_smpl X body_model (trans res) (root_orient res)
                                    (pose_body res) (betas res)) in
  let vertices := smpl_vertices world_smpl in
  let faces := smpl_faces world_smpl in
  for_each (range num_frames) (log_phase_frame ds phase res vertices faces).

(** The body of the phase loop of [log_to_rerun]; [continue] ends the body. *)
Definition log_phase (cfg : config) (ds : dataset) (log_dir : string) (dev_id : pyval)
    (phase : string) : M unit :=
  let phase_dir := path_join log_dir phase in
  if bool_decide (phase = "input") then
    let res := get_input_dict X ds in
    log_phase_result cfg ds dev_id phase res
  else if isdir X phase_dir then
    let res_path_dict := get_results_paths X phase_dir in
    let! it := latest_iteration res_path_dict in
    let! res_path := getitem res_path_dict it in
    let! loaded := lift (load_result X res_path) in
    let! res := getitem loaded "world" in
    log_phase_result cfg ds dev_id phase res
  else
    print (phase_dir +:+ " does not exist, skipping").

(** [log_to_rerun] *)
Definition log_to_rerun (cfg : config) (ds : dataset) (log_dir : string)
    (dev_id : pyval) (phases : list string) (opts : vis_options) : M unit :=
  rr_init ;;
  rr_log_timeless "world" (ViewCoordinates "-Y") ;;
  log_input_frames ds ;;
  log_skeleton_2d ds ;;
  log_camera ds ;;
  for_each phases (log_phase cfg ds log_dir dev_id).

(** [log_to_rrd] *)
Definition log_to_rrd (log_dir : string) (dev_id : pyval) (phases : list string)
    (save_dir : string) (opts : vis_options) : M unit :=
  print log_dir ;;
  let! cfg := lift (load_config_from_log X log_dir) in
  let cfg := Config (paths_smpl cfg) (expand_source_paths X (data_sources cfg)) in
  print ("SOURCES " +:+ sources_repr X (data_sources cfg)) ;;
  let! ds := lift (get_dataset_from_cfg X cfg) in
  if bool_decide (dataset_len ds < 1) then
    print "No tracks in dataset, skipping"
  else
    log_to_rerun cfg ds log_dir dev_id phases opts ;;
    rr_save (path_join save_dir "log.rrd").

(** The parsed command line, with [log_dirs] as [main] sets it. *)
Record arguments := Args {
  log_root : string;
  save_root : option string;
  phases_arg : list string;
  gpus : list pyval;
  options : vis_options;
  log_dirs : list string
}.

(** [launch_rerun_vis] *)
Definition launch_rerun_vis (i : nat) (args : arguments) : M unit :=
  let! log_dir := index (log_dirs args) i in
  let! dev_id := (if bool_decide (length (gpus args) = 0) then raise ZeroDivisionError
                  else index (gpus args) (i mod length (gpus args))) in
  setenv "EGL_DEVICE_ID" (py_str dev_id) ;;
  setenv "PYOPENGL_PLATFORM" "egl" ;;
  let! pieces := py_split log_dir (log_root args) in
  let path_name := strip_slash (default "" (last pieces)) in
  let exp_name := join_dash (take 2 (split_go "/" 0 "" path_name)) in
  let save_dir := match save_root args with
                  | Some r => r +:+ "/" +:+ exp_name
                  | None => log_dir
                  end in
  makedirs save_dir ;;
  log_to_rrd log_dir dev_id (phases_arg args) save_dir (options args).

(** [args.log_dirs = log_dirs] *)
Definition set_log_dirs (args : arguments) (found : list string) : arguments :=
  Args (log_root args) (save_root args) (phases_arg args) (gpus args) (options args) found.

(** The run directories [main] collects: the walked directories that list a
    [".hydra"] subdirectory. *)
Definition found_runs (walk : list (string * list string * list string)) : list string :=
  map (fun e => e.1.1) (filter (fun e => ".hydra" ∈ e.1.2) walk).

(** [main]. With several devices the runs are handed to a process pool, and
    the pool is recorded in [pools].  Registering the ["eval"] resolver with
    OmegaConf only affects how configurations are read, which is the
    collaborators' business. *)
Definition main (args : arguments) : M unit :=
  let found := match walk_tree X (log_root args) with
               | Some d => found_runs (os_walk (log_root args) d)
               | None => []
               end in
  let args := set_log_dirs args found in
  print ("FOUND " +:+ pretty (length (log_dirs args)) +:+ " TO RENDER") ;;
  if bool_decide (1 < length (gpus args)) then
    pool_starmap (pool_worker X) (pool_first_failure X) (length (gpus args))
                 (fun i => launch_rerun_vis i args) (range (length (log_dirs args)))
  else
    for_each (range (length (log_dirs args))) (fun i => launch_rerun_vis i args).

End Module_functions.

(** The output directory [launch_rerun_vis] computes for a run. *)
Definition launch_save_dir (args : arguments) (log_dir : string) : string :=
  let path_name := strip_slash (default "" (last (split_go (log_root args) 0 "" log_dir))) in
  let exp_name := join_dash (take 2 (split_go "/" 0 "" path_name)) in
  match save_root args with
  | Some r => r +:+ "/" +:+ exp_name
  | None => log_dir
  end.

(** The world in which the orchestrator starts inside [launch_rerun_vis]:
    the device selection is in the environment, the output directory made. *)
Definition launched_world (dev_id : pyval) (save_dir : string) (w : world) : world :=
  World (rr_time w) (rr_rows w) (stdout w) (files w)
        (<["PYOPENGL_PLATFORM" := "egl"]> (<["EGL_DEVICE_ID" := py_str dev_id]> (environ w)))
        (made_dirs w ++ [save_dir]) (pools w).

(** ** The rows a pass emits, as pure functions of its inputs

    Each logging pass is described by the list of rows it appends to the
    recording when it completes; the lemmas of the next part relate the
    stateful functions to these lists. *)

(** The payloads logged at an entity path under timeline key [f], oldest first. *)
Definition events_at (rows : list row) (path : string) (f : nat) : list component :=
  row_data <$> filter (fun r => row_path r = path ∧ row_time r = Some f) rows.

(** What a viewer shows for an entity at key [f]: the payload logged last. *)
Definition latest_at (rows : list row) (path : string) (f : nat) : option component :=
  last (events_at rows path f).

Definition is_rigid3 (c : component) : bool :=
  match c with Rigid3 _ _ _ => true | _ => false end.

Definition is_mesh (c : component) : bool :=
  match c with Mesh _ _ _ => true | _ => false end.

Definition is_line_segments (c : component) : bool :=
  match c with LineSegments _ => true | _ => false end.

Definition is_image_or_pinhole (c : component) : bool :=
  match c with ImageFile _ | Pinhole _ _ _ => true | _ => false end.

(** A camera pose event, and a mesh or skeleton event (geometry or its clear). *)
Definition camera_pose_row (r : row) : bool := is_rigid3 (row_data r).
Definition geometry_row (r : row) : bool :=
  match row_data r with
  | Mesh _ _ _ | LineSegments _ | Cleared => true
  | _ => false
  end.

(** Timeline keys never decrease along the rows. *)
Fixpoint keys_ascending (prev : nat) (rows : list row) : bool :=
  match rows with
  | [] => true
  | r :: rows' =>
      match row_time r with
      | Some t => bool_decide (prev ≤ t) && keys_ascending t rows'
      | None => keys_ascending prev rows'
      end
  end.

(** Every camera pose row with key [f] stands before every geometry row with key [f]. *)
Definition pose_before_geometry (rows : list row) : Prop :=
  ∀ i j ri rj f,
    rows !! i = Some ri → rows !! j = Some rj →
    row_time ri = Some f → row_time rj = Some f →
    camera_pose_row ri = true → geometry_row rj = true → i < j.

(** The same order as a check that runs: after a geometry row no camera pose
    row carries its key. *)
Definition same_key_pose (key : option nat) (r : row) : bool :=
  camera_pose_row r && bool_decide (row_time r = key).

Fixpoint pose_before_geometry_b (rows : list row) : bool :=
  match rows with
  | [] => true
  | r :: rest =>
      (negb (geometry_row r) || forallb (fun r' => negb (same_key_pose (row_time r) r')) rest)
      && pose_before_geometry_b rest
  end.

(** The ordering guarantee as the spec words it, for one run's rows. *)
Definition logging_order (rows : list row) : Prop :=
  keys_ascending 0 rows = true ∧ pose_before_geometry rows.

Definition view_row : row := Row None "world" (ViewCoordinates "-Y").

Definition input_rows (ds : dataset) : list row :=
  flat_map (fun fp => [Row (Some fp.1) "world/camera/image" (ImageFile fp.2)])
           (enumerate (sel_img_paths ds)).

Definition skeleton_component (dt : float_dtype) (segs : list (joint * joint))
  : component :=
  let good := good_joints_xy dt segs in
  if bool_decide (length good ≠ 0) then LineSegments (reshape_points good) else Cleared.

Definition skeleton_frame_rows (dt : float_dtype) (i f : nat) (frame_joints : list joint)
  : list row :=
  match segment_joints frame_joints with
  | Some segs => [Row (Some f) (skeleton_path i) (skeleton_component dt segs)]
  | None => []
  end.

Definition skeleton_track_rows (ds : dataset) (i : nat) : list row :=
  match joints2d ds !! i with
  | Some js =>
      flat_map (fun ff => skeleton_frame_rows (joints2d_dtype ds) i ff.1 ff.2)
               (enumerate js)
  | None => []
  end.

Definition skeleton_rows (ds : dataset) : list row :=
  flat_map (fun it => skeleton_track_rows ds it.1) (enumerate (track_ids ds)).

(** The value of an outcome, when there is one. *)
Definition ok_value {A} (o : outcome A) : option A :=
  match o with
  | Ok a => Some a
  | Raise _ => None
  end.

Definition camera_component (X : externals) (ds : dataset) (f : nat)
  : option (component * component) :=
  let cam := get_camera_data ds in
  t ← cam_t cam !! f;
  R ← cam_R cam !! f;
  q ← ok_value (rotation_as_quat X R);
  k ← intrins cam !! f;
  let '(fx, fy, cx, cy) := k in
  Some (Pinhole [[fx; 0%float; cx]; [0%float; fy; cy]; [0%float; 0%float; 1%float]]
                (img_size ds).1 (img_size ds).2,
        Rigid3 t q "RDF").

Definition camera_frame_rows (X : externals) (ds : dataset) (f : nat) : list row :=
  match camera_component X ds f with
  | Some (pin, pose) =>
      [Row (Some f) "world/camera/image" pin; Row (Some f) "world/camera" pose]
  | None => []
  end.

Definition camera_rows (X : externals) (ds : dataset) : list row :=
  flat_map (camera_frame_rows X ds) (range (seq_len ds)).

Definition phase_track_component (X : externals) (ds : dataset) (out : smpl_output)
    (f i : nat) : option component :=
  vis_i ← vis_mask ds !! i;
  code ← vis_i !! f;
  if bool_decide (0 ≤ code)%Z then
    verts_i ← smpl_vertices out !! i;
    verts ← verts_i !! f;
    Some (Mesh verts (smpl_faces out) (vertex_normals X verts (smpl_faces out)))
  else Some Cleared.

Definition phase_track_rows (X : externals) (ds : dataset) (phase : string)
    (out : smpl_output) (f i : nat) : list row :=
  match phase_track_component X ds out f i with
  | Some c => [Row (Some f) (phase_path phase i) c]
  | None => []
  end.

Definition phase_camera_component (X : externals) (res : phase_result) (f : nat)
  : option component :=
  t1 ← res_cam_t res !! 1;
  t ← t1 !! f;
  R1 ← res_cam_R res !! 1;
  R ← R1 !! f;
  q ← ok_value (rotation_as_quat X R);
  Some (Rigid3 t q "RDF").

Definition phase_frame_rows (X : externals) (ds : dataset) (phase : string)
    (res : phase_result) (out : smpl_output) (f : nat) : list row :=
  match phase_camera_component X res f with
  | Some c =>
      Row (Some f) "world/camera" c
        :: flat_map (fun it => phase_track_rows X ds phase out f it.1)
                    (enumerate (track_ids ds))
  | None => []
  end.

(** The body-model evaluation at the head of [log_phase_result]. *)
Definition smpl_result (X : externals) (cfg : config) (ds : dataset) (res : phase_result)
  : outcome smpl_output :=
  match load_smpl_body_model X (paths_smpl (resolve_cfg_paths X cfg))
                             (dataset_len ds * seq_len ds) with
  | Ok body_model =>
      run_smpl X body_model (trans res) (root_orient res) (pose_body res) (betas res)
  | Raise e => Raise e
  end.

Definition phase_rows (X : externals) (cfg : config) (ds : dataset) (phase : string)
    (res : phase_result) : list row :=
  match smpl_result X cfg ds res with
  | Ok out => flat_map (phase_frame_rows X ds phase res out) (range (seq_len ds))
  | Raise _ => []
  end.

(** The spec's phase resolver: [Ok (Some res)] for a phase to log,
    [Ok None] for a phase to skip, [Raise] for a hard failure. *)
Definition resolve_phase (X : externals) (ds : dataset) (log_dir phase : string)
  : outcome (option phase_result) :=
  if bool_decide (phase = "input") then Ok (Some (get_input_dict X ds))
  else if isdir X (path_join log_dir phase) then
    let d := get_results_paths X (path_join log_dir phase) in
    match last (py_sorted (dict_keys d)) with
    | None => Raise IndexError
    | Some it =>
        match d !! it with
        | None => Raise (KeyError it)
        | Some p =>
            match load_result X p with
            | Raise e => Raise e
            | Ok loaded =>
                match loaded !! "world" with
                | Some res => Ok (Some res)
                | None => Raise (KeyError "world")
                end
            end
        end
    end
  else Ok None.

Definition phase_pass_rows (X : externals) (cfg : config) (ds : dataset)
    (log_dir phase : string) : list row :=
  match resolve_phase X ds log_dir phase with
  | Ok (Some res) => phase_rows X cfg ds phase res
  | _ => []
  end.

(** Two worlds that differ at most in what was printed. *)
Definition same_recording (w1 w2 : world) : Prop :=
  rr_time w1 = rr_time w2 ∧ rr_rows w1 = rr_rows w2 ∧ files w1 = files w2 ∧
  environ w1 = environ w2 ∧ made_dirs w1 = made_dirs w2 ∧ pools w1 = pools w2.

(** Two computations that, from worlds differing at most in what was printed,
    end with the same outcome in worlds differing at most in what was printed. *)
Definition same_up_to_stdout {A} (m1 m2 : M A) : Prop :=
  ∀ w1 w2, same_recording w1 w2 →
    (m1 w1).1 = (m2 w2).1 ∧ same_recording (m1 w1).2 (m2 w2).2.

(** A computation whose outcome and recording do not depend on standard output. *)
Definition stdout_blind {A} (m : M A) : Prop := same_up_to_stdout m m.

(** ** A concrete run

    The end-to-end scenario of the spec: two tracks, three frames, visibility
    mask [[1,-1,0],[-1,1,1]], and a ["motion_chunks"] phase directory holding
    the iterations "000010", "000050" and "000005". *)

Definition ex_joint (c : float) : joint := (1%float, 2%float, c).

(** All joints confident; no joint confident; one joint at exactly the threshold. *)
Definition ex_frame_high : list joint := replicate 19 (ex_joint 0.9%float).
Definition ex_frame_zero : list joint := replicate 19 (ex_joint 0%float).
Definition ex_frame_edge : list joint :=
  ex_joint 0.3%float :: replicate 18 (ex_joint 0.30001%float).

Definition ex_cam : cam_data :=
  CamData [[0%float; 0%float; 0%float]; [1%float; 0%float; 0%float]; [2%float; 0%float; 0%float]]
          [[[1%float]]; [[2%float]]; [[3%float]]]
          (replicate 3 (500%float, 500%float, 320%float, 240%float)).

Definition ex_ds : dataset :=
  Dataset [7; 9]%Z 3 (640, 480)%Z ["f0.jpg"; "f1.jpg"; "f2.jpg"] ex_cam
          [[1; -1; 0]; [-1; 1; 1]]%Z
          [[ex_frame_high; ex_frame_zero; ex_frame_edge];
           [ex_frame_zero; ex_frame_zero; ex_frame_zero]]
          Float64.

Definition ex_empty_ds : dataset :=
  Dataset [] 3 (640, 480)%Z ["f0.jpg"; "f1.jpg"; "f2.jpg"] ex_cam [] [] Float64.

Definition ex_tensor : tensor := Tensor [2; 3]%nat [].

Definition ex_res : phase_result :=
  PhaseResult ex_tensor ex_tensor ex_tensor None
    [[[10%float]; [11%float]; [12%float]]; [[20%float]; [21%float]; [22%float]]]
    [[[[10%float]]; [[11%float]]; [[12%float]]]; [[[20%float]]; [[21%float]]; [[22%float]]]].

Definition ex_res_input : phase_result :=
  PhaseResult ex_tensor ex_tensor ex_tensor None
    [[[30%float]; [31%float]; [32%float]]; [[40%float]; [41%float]; [42%float]]]
    [[[[30%float]]; [[31%float]]; [[32%float]]]; [[[40%float]]; [[41%float]]; [[42%float]]]].

Definition ex_out : smpl_output :=
  SmplOutput [[[[0%float]]; [[1%float]]; [[2%float]]]; [[[3%float]]; [[4%float]]; [[5%float]]]]
             [[0; 1; 2]%Z].

Definition ex_paths : gmap string string :=
  <["000010" := "it10.npz"]> (<["000050" := "it50.npz"]> (<["000005" := "it5.npz"]> ∅)).

Definition ex_tree : fs_dir :=
  Dir "logs" [ Dir "a" [Dir ".hydra" [] ["config.yaml"]; Dir "motion_chunks" [] []] [];
               Dir "b" [Dir "c" [Dir ".hydra" [] []] []; Dir "empty" [] []] [];
               Dir "d" [Dir ".hydra" [] []] ["x.txt"] ] [].

Definition ex_X_with (ds : dataset) : externals :=
  Externals (fun R => match R with r :: _ => Ok r | [] => Raise ValueError end)
            (fun verts _ => verts) (fun cfg => cfg)
            (fun _ n => Ok (Tensor [n] [])) (fun _ _ _ _ _ => Ok ex_out)
            (fun _ => ex_res_input)
            (fun p => bool_decide (p = "logs/a/motion_chunks"))
            (fun _ => ex_paths)
            (fun _ => Ok (<["world" := ex_res]> ∅))
            (fun _ => Ok (Config "smpl" ["videos"]))
            (fun l => l) (fun l => join_dash l)
            (fun _ => Ok ds)
            (fun root => if bool_decide (root = "logs") then Some ex_tree else None)
            (fun c => c) (fun _ => 0).

Definition ex_X : externals := ex_X_with ex_ds.

Definition ex_opts : vis_options :=
  VisOptions false false false false ["src_cam"; "front"; "above"; "side"] false false.

Definition ex_cfg : config := Config "smpl" ["videos"].

Definition ex_world : world := World None [] [] [] ∅ [] [].

Definition ex_args (devices : list pyval) : arguments :=
  Args "logs" None ["motion_chunks"] devices ex_opts [].

(** ** Specification vocabulary *)

(** [w'] is [w] with the rows [new] appended to the recording; the timeline
    cursor may have moved and lines may have been printed, nothing else has
    changed. *)
Definition emitted (w w' : world) (new : list row) : Prop :=
  rr_rows w' = rr_rows w ++ new ∧ files w' = files w ∧
  environ w' = environ w ∧ made_dirs w' = made_dirs w ∧ pools w' = pools w.

(** Every array entry a completed phase pass reads is there. *)
Definition phase_ok (X : externals) (cfg : config) (ds : dataset) (res : phase_result)
  : Prop :=
  ∃ out, smpl_result X cfg ds res = Ok out ∧
    ∀ f, f < seq_len ds →
      is_Some (phase_camera_component X res f) ∧
      ∀ i, i < length (track_ids ds) → is_Some (phase_track_component X ds out f i).

(** Every array entry a completed skeleton pass reads is there. *)
Definition skeleton_ok (ds : dataset) : Prop :=
  ∀ i, i < length (track_ids ds) →
    ∃ js, joints2d ds !! i = Some js ∧
      ∀ f fj, js !! f = Some fj → is_Some (segment_joints fj).

Definition camera_ok (X : externals) (ds : dataset) : Prop :=
  ∀ f, f < seq_len ds → is_Some (camera_component X ds f).

(** What the defining-camera pass needs of frame [f]: an entry in each of the
    three camera arrays, and a rotation matrix that converts. *)
Definition camera_frame_ok (X : externals) (ds : dataset) (f : nat) : Prop :=
  ∃ t R q k, cam_t (get_camera_data ds) !! f = Some t ∧
             cam_R (get_camera_data ds) !! f = Some R ∧
             rotation_as_quat X R = Ok q ∧
             intrins (get_camera_data ds) !! f = Some k.

(** The scenario's dataset with a second rotation matrix that is no rotation. *)
Definition ex_ds_bad_rotation : dataset :=
  Dataset [7; 9]%Z 3 (640, 480)%Z ["f0.jpg"; "f1.jpg"; "f2.jpg"]
          (CamData (cam_t ex_cam) [[[1%float]]; []; [[3%float]]] (intrins ex_cam))
          [[1; -1; 0]; [-1; 1; 1]]%Z
          [[ex_frame_high; ex_frame_zero; ex_frame_edge];
           [ex_frame_zero; ex_frame_zero; ex_frame_zero]]
          Float64.

(** ** Vocabulary for the failure and edge behaviour *)

(** What logging never touches: the saved files, the environment, the made
    directories and the pools. *)
Definition same_outputs (w w' : world) : Prop :=
  files w' = files w ∧ environ w' = environ w ∧
  made_dirs w' = made_dirs w ∧ pools w' = pools w.

(** The same, and nothing printed either. *)
Definition same_outputs_and_stdout (w w' : world) : Prop :=
  stdout w' = stdout w ∧ same_outputs w w'.

(** A computation that keeps [R] between its start and its end, whatever
    its outcome. *)
Definition preserves (R : world → world → Prop) {A} (m : M A) : Prop :=
  ∀ w, R w (m w).2.

(** The diagnostic of a skipped phase, and those of a list of phases. *)
Definition skip_line (log_dir phase : string) : string :=
  path_join log_dir phase +:+ " does not exist, skipping".

Definition skipped_lines (X : externals) (ds : dataset) (log_dir : string)
    (phases : list string) : list string :=
  flat_map (fun p => match resolve_phase X ds log_dir p with
                     | Ok None => [skip_line log_dir p]
                     | _ => []
                     end) phases.


(** The collaborators of the scenario, with phase directories that hold no
    snapshot. *)
Definition ex_X_no_snapshots : externals :=
  Externals (rotation_as_quat ex_X) (vertex_normals ex_X) (resolve_cfg_paths ex_X)
            (load_smpl_body_model ex_X) (run_smpl ex_X) (get_input_dict ex_X)
            (isdir ex_X) (fun _ => ∅) (load_result ex_X) (load_config_from_log ex_X)
            (expand_source_paths ex_X) (sources_repr ex_X)
            (get_dataset_from_cfg ex_X) (walk_tree ex_X)
            (pool_worker ex_X) (pool_first_failure ex_X).

(** What a run needs to complete: the arrays of the skeleton and camera
    passes, and for every requested phase a resolution that does not raise
    and, when the phase is processed, the arrays of its pass. *)
Definition phase_resolves_ok (X : externals) (cfg : config) (ds : dataset)
    (log_dir p : string) : Prop :=
  match resolve_phase X ds log_dir p with
  | Ok (Some res) => phase_ok X cfg ds res
  | Ok None => True
  | Raise _ => False
  end.

Definition run_ok (X : externals) (cfg : config) (ds : dataset) (log_dir : string)
    (phases : list string) : Prop :=
  skeleton_ok ds ∧ camera_ok X ds ∧ Forall (phase_resolves_ok X cfg ds log_dir) phases.

(** A string without ["/"]. *)
Fixpoint no_slash (s : string) : bool :=
  match s with
  | "" => true
  | String c s' => negb (bool_decide (c = "/"%char)) && no_slash s'
  end.

(** A phase result whose rotation matrix at [[1, 1]] is no rotation. *)
Definition ex_res_bad_rotation : phase_result :=
  PhaseResult ex_tensor ex_tensor ex_tensor None
    [[[10%float]; [11%float]; [12%float]]; [[20%float]; [21%float]; [22%float]]]
    [[[[10%float]]; [[11%float]]; [[12%float]]]; [[[20%float]]; []; [[22%float]]]].

(** A phase result whose camera arrays have a single leading entry. *)
Definition ex_res_single : phase_result :=
  PhaseResult ex_tensor ex_tensor ex_tensor None
    [[[10%float]; [11%float]; [12%float]]]
    [[[[10%float]]; [[11%float]]; [[12%float]]]].

(** The phase resolver as the spec words it, for a phase directory: it
    selects the iteration key no key is lexicographically above, loads that
    snapshot and logs its ["world"] block. *)
Definition selects_last_snapshot (X : externals) (cfg : config) (ds : dataset)
    (log_dir : string) (dev : pyval) (phase : string) (w : world) : Prop :=
  ∃ it res_path,
    (∀ k, k ∈ dict_keys (get_results_paths X (path_join log_dir phase))
          ↔ is_Some (get_results_paths X (path_join log_dir phase) !! k)) ∧
    it ∈ dict_keys (get_results_paths X (path_join log_dir phase)) ∧
    (∀ k, k ∈ dict_keys (get_results_paths X (path_join log_dir phase)) →
          String.le k it) ∧
    latest_iteration (get_results_paths X (path_join log_dir phase)) w = (Ok it, w) ∧
    get_results_paths X (path_join log_dir phase) !! it = Some res_path ∧
    log_phase X cfg ds log_dir dev phase w
    = (let! loaded := lift (load_result X res_path) in
       let! res := getitem loaded "world" in
       log_phase_result X cfg ds dev phase res) w.

(** A computation whose outcome is the same from every world. *)
Definition oblivious {A} (m : M A) : Prop := ∀ w1 w2, (m w1).1 = (m w2).1.

(** The configuration [log_to_rrd] hands on: the one it loads, with its
    sources expanded. *)
Definition expanded (X : externals) (cfg : config) : config :=
  Config (paths_smpl cfg) (expand_source_paths X (data_sources cfg)).

(** The rows of a completed run, pass by pass. *)
Definition run_rows (X : externals) (cfg : config) (ds : dataset) (log_dir : string)
    (phases : list string) : list row :=
  view_row :: input_rows ds ++ skeleton_rows ds ++ camera_rows X ds
    ++ flat_map (phase_pass_rows X cfg ds log_dir) phases.

(** The recording file run [i] of the launcher leaves when it completes:
    none for a dataset without tracks. *)
Definition run_files (X : externals) (args : arguments) (i : nat)
  : list (string * list row) :=
  match log_dirs args !! i with
  | Some log_dir =>
      match load_config_from_log X log_dir with
      | Ok cfg =>
          match get_dataset_from_cfg X (expanded X cfg) with
          | Ok ds =>
              if bool_decide (dataset_len ds < 1) then []
              else [(path_join (launch_save_dir args log_dir) "log.rrd",
                     run_rows X (expanded X cfg) ds log_dir (phases_arg args))]
          | Raise _ => []
          end
      | Raise _ => []
      end
  | None => []
  end.

(** ** The skeleton filter in the spec's words

    Steps 3 to 5 of the spec's skeleton extractor, written on the endpoints
    themselves rather than with the array operations of the code: a segment
    is kept when both of its endpoint confidences are above the threshold,
    which is when the smaller of the two is; the overlay of a frame is the
    two endpoints [(x, y)] of every kept segment, in the order of the edge
    table. *)

Definition segment_kept (thr : float) (s : joint * joint) : bool :=
  let '((_, _, c1), (_, _, c2)) := s in PrimFloat.ltb thr c1 && PrimFloat.ltb thr c2.

Definition segment_xy (s : joint * joint) : (float * float) * (float * float) :=
  let '((x1, y1, _), (x2, y2, _)) := s in ((x1, y1), (x2, y2)).

Definition segment_points (s : joint * joint) : list (float * float) :=
  let '((x1, y1, _), (x2, y2, _)) := s in [(x1, y1); (x2, y2)].

Definition kept_points (thr : float) (segs : list (joint * joint)) : list (float * float) :=
  flat_map segment_points (filter (fun s => segment_kept thr s = true) segs).

(** ** The order of the floats

    A float that is not a NaN is placed in the lexicographic order of three
    integers: its class and sign, then its exponent, then its mantissa. *)

Definition sf_key (x : spec_float) : Z * Z * Z :=
  match x with
  | S754_zero _ => (0, 0, 0)
  | S754_infinity true => (-2, 0, 0)
  | S754_infinity false => (2, 0, 0)
  | S754_nan => (0, 0, 0)
  | S754_finite true m e => (-1, - e, Z.neg m)
  | S754_finite false m e => (1, e, Z.pos m)
  end%Z.

Definition key_lt (a b : Z * Z * Z) : Prop :=
  (a.1.1 < b.1.1 ∨ (a.1.1 = b.1.1 ∧ (a.1.2 < b.1.2 ∨ (a.1.2 = b.1.2 ∧ a.2 < b.2))))%Z.

(** ** Keypoint frames for the skeleton filter *)

(** Raw joint 16 sits exactly at 0.3; it is the first endpoint of the edges
    (1, 2) and (1, 3) and the second endpoint of the edge (0, 1). *)
Definition ex_frame_second : list joint :=
  replicate 16 (ex_joint 0.30001%float) ++ ex_joint 0.3%float
    :: replicate 2 (ex_joint 0.30001%float).

(** The same frame in single precision: raw joint 16 holds the single
    precision value nearest to 0.3, the others the one nearest to 0.30001. *)
Definition ex_frame_single : list joint :=
  replicate 16 (ex_joint 0x1.3335d2p-2%float) ++ ex_joint 0x1.333334p-2%float
    :: replicate 2 (ex_joint 0x1.3335d2p-2%float).

(** Joint [j] at [(j, 10 j)]; only the raw joints 0, 15 and 16 are confident,
    which the permutation puts at the canonical positions 0, 2 and 1. *)
Definition ex_frame_marked : list joint :=
  [ (0, 0, 0.9); (1, 10, 0.1); (2, 20, 0.1); (3, 30, 0.1); (4, 40, 0.1);
    (5, 50, 0.1); (6, 60, 0.1); (7, 70, 0.1); (8, 80, 0.1); (9, 90, 0.1);
    (10, 100, 0.1); (11, 110, 0.1); (12, 120, 0.1); (13, 130, 0.1); (14, 140, 0.1);
    (15, 150, 0.9); (16, 160, 0.9); (17, 170, 0.1); (18, 180, 0.1) ]%float.

(** One track over two frames: segments at frame 0, none at frame 1. *)
Definition ex_ds_skeleton : dataset :=
  Dataset [7]%Z 2 (640, 480)%Z ["f0.jpg"; "f1.jpg"] ex_cam [[1; 0]]%Z
          [[ex_frame_marked; ex_frame_zero]] Float32.

Ltac inv_pair :=
  repeat match goal with
         | H : (_, _) = (_, _) |- _ => inversion H; clear H; subst
         | H : Ok _ = Ok _ |- _ => inversion H; clear H; subst
         end.

(** * Properties *)

(** ** The monad and its loops *)

Lemma bind_ok {A B} (m : M A) (k : A → M B) w b w' :
  bind m k w = (Ok b, w') → ∃ a w1, m w = (Ok a, w1) ∧ k a w1 = (Ok b, w').
Proof.
  unfold bind. destruct (m w) as [[a|e] w1]; [eauto | discriminate].
Qed.

Lemma index_ok {A} (l : list A) i w x w' :
  index l i w = (Ok x, w') → l !! i = Some x ∧ w' = w.
Proof.
  unfold index, ret, raise. destruct (l !! i); intros; inv_pair; auto.
Qed.

Lemma lift_ok {A} (o : outcome A) w x w' :
  lift o w = (Ok x, w') → o = Ok x ∧ w' = w.
Proof. unfold lift. intros; inv_pair; auto. Qed.

Lemma emitted_refl w : emitted w w [].
Proof. unfold emitted. rewrite app_nil_r. tauto. Qed.

Lemma emitted_trans w1 w2 w3 a b :
  emitted w1 w2 a → emitted w2 w3 b → emitted w1 w3 (a ++ b).
Proof.
  unfold emitted. intros (?&?&?&?&?) (?&?&?&?&?).
  rewrite app_assoc. repeat split; congruence.
Qed.

Lemma emitted_set_time w f w' :
  rr_set_time_sequence f w = (Ok tt, w') → emitted w w' [] ∧ rr_time w' = Some f.
Proof.
  unfold rr_set_time_sequence. intros; inv_pair. unfold emitted; cbn.
  rewrite app_nil_r. tauto.
Qed.

Lemma emitted_log w path c w' :
  rr_log path c w = (Ok tt, w') →
  emitted w w' [Row (rr_time w) path c] ∧ rr_time w' = rr_time w.
Proof.
  unfold rr_log, push_row. intros; inv_pair. unfold emitted; cbn. tauto.
Qed.

(** A completed loop appended the rows of its iterations, in order. *)
Lemma for_each_emitted {A} (body : A → M unit) (g : A → list row) (Q : A → Prop)
    (I : world → Prop) l w w' :
  I w →
  (∀ x w1 w2, I w1 → body x w1 = (Ok tt, w2) → emitted w1 w2 (g x) ∧ Q x ∧ I w2) →
  for_each l body w = (Ok tt, w') →
  emitted w w' (flat_map g l) ∧ Forall Q l ∧ I w'.
Proof.
  intros HI Hbody. revert w HI. induction l as [|x l IH]; intros w HI Hrun; cbn in *.
  - unfold ret in Hrun. inv_pair. auto using emitted_refl.
  - apply bind_ok in Hrun as ([] & w1 & Hx & Hl).
    destruct (Hbody _ _ _ HI Hx) as (Hem & HQ & HI1).
    destruct (IH _ HI1 Hl) as (Hem' & HQ' & HI').
    eauto using emitted_trans.
Qed.

Lemma for_each_ext {A} (body body' : A → M unit) l w :
  (∀ x w1, body x w1 = body' x w1) → for_each l body w = for_each l body' w.
Proof.
  intros H. revert w. induction l as [|x l IH]; intros w; cbn; [done|].
  unfold bind. rewrite H. destruct (body' x w) as [[[]|e] w1]; auto.
Qed.

Lemma for_each_app {A} (body : A → M unit) l1 l2 w :
  for_each (l1 ++ l2) body w = (for_each l1 body ;; for_each l2 body) w.
Proof.
  revert w. induction l1 as [|x l1 IH]; intros w; cbn; [done|].
  unfold bind in *. destruct (body x w) as [[[]|e] w1]; auto.
Qed.

(** A loop whose every iteration completes completes. *)
Lemma for_each_completes {A} (body : A → M unit) l w :
  (∀ x, x ∈ l → ∀ w1, ∃ w2, body x w1 = (Ok tt, w2)) →
  ∃ w', for_each l body w = (Ok tt, w').
Proof.
  revert w. induction l as [|x l IH]; intros w Hbody; simpl.
  - by exists w.
  - destruct (Hbody x (list_elem_of_here x l) w) as [w1 Hx].
    destruct (IH w1) as [w' Hl].
    { intros y Hy. apply Hbody. by apply list_elem_of_further. }
    exists w'. unfold bind. by rewrite Hx.
Qed.

(** ** Queries on a recording *)

Local Arguments events_at : simpl never.

Lemma events_at_app rows1 rows2 p f :
  events_at (rows1 ++ rows2) p f = events_at rows1 p f ++ events_at rows2 p f.
Proof. unfold events_at. by rewrite filter_app, fmap_app. Qed.

Lemma events_at_cons_hit t p c rows f :
  t = Some f → events_at (Row t p c :: rows) p f = c :: events_at rows p f.
Proof. intros ->. unfold events_at. by rewrite filter_cons_True. Qed.

Lemma events_at_cons_miss r rows p f :
  ¬ (row_path r = p ∧ row_time r = Some f) →
  events_at (r :: rows) p f = events_at rows p f.
Proof. intros H. unfold events_at. by rewrite filter_cons_False. Qed.

Lemma events_at_none rows p f :
  Forall (fun r => ¬ (row_path r = p ∧ row_time r = Some f)) rows →
  events_at rows p f = [].
Proof.
  induction 1 as [|r rows Hr _ IH]; [done|].
  by rewrite events_at_cons_miss.
Qed.

Lemma events_at_other_time rows p f f' :
  Forall (fun r => row_time r = Some f') rows → f' ≠ f → events_at rows p f = [].
Proof.
  intros H Hne. apply events_at_none. eapply Forall_impl; [exact H|].
  simpl. intros r Hr [_ Hf]. congruence.
Qed.

Lemma events_at_flat_map_none {A} (g : A → list row) l p f :
  Forall (fun x => events_at (g x) p f = []) l → events_at (flat_map g l) p f = [].
Proof.
  induction 1 as [|x l Hx _ IH]; simpl; [done|].
  by rewrite events_at_app, Hx, IH.
Qed.

(** Only the iteration that logs at a path and key contributes to its events. *)
Lemma events_at_flat_map_seq (g : nat → list row) p f s n k :
  s ≤ k < s + n →
  (∀ j, j ≠ k → events_at (g j) p f = []) →
  events_at (flat_map g (seq s n)) p f = events_at (g k) p f.
Proof.
  intros Hk Hothers. revert s Hk. induction n as [|n IH]; intros s Hk; [lia|].
  simpl. rewrite events_at_app. destruct (decide (s = k)) as [->|Hne].
  - rewrite (events_at_flat_map_none g (seq (S k) n)); [by rewrite app_nil_r|].
    apply Forall_forall. intros j Hj%elem_of_seq. apply Hothers. lia.
  - rewrite (Hothers s Hne). simpl. apply IH. lia.
Qed.

Lemma flat_map_enumerate_fst {A B} (h : nat → list B) (l : list A) k :
  flat_map (fun it => h it.1) (enumerate_from k l) = flat_map h (seq k (length l)).
Proof.
  revert k. induction l as [|x l IH]; intros k; simpl; [done|]. by rewrite IH.
Qed.

Lemma events_at_flat_map_enumerate {A} (g : nat → A → list row) (l : list A) p f s k x :
  l !! k = Some x →
  (∀ j y, j ≠ s + k → events_at (g j y) p f = []) →
  events_at (flat_map (fun ff => g ff.1 ff.2) (enumerate_from s l)) p f
  = events_at (g (s + k) x) p f.
Proof.
  revert s k. induction l as [|y l IH]; intros s k Hk Hothers; [done|].
  simpl. rewrite events_at_app. destruct k as [|k]; simpl in Hk.
  - inversion Hk; subst. rewrite Nat.add_0_r.
    rewrite (events_at_flat_map_none _ (enumerate_from (S s) l)); [by rewrite app_nil_r|].
    assert (∀ m, s < m → Forall (fun x0 : nat * A => events_at (g x0.1 x0.2) p f = [])
                                 (enumerate_from m l)) as Hall.
    { clear -Hothers. induction l as [|z l IHl]; intros m Hm; simpl; constructor.
      - simpl. apply Hothers. lia.
      - apply IHl. lia. }
    apply Hall. lia.
  - rewrite (Hothers s y) by lia. simpl.
    replace (s + S k) with (S s + k) by lia. apply IH; [done|].
    intros j z Hj. apply Hothers. lia.
Qed.

Lemma Forall_flat_map_rows {A} (P : row → Prop) (g : A → list row) l :
  (∀ x, Forall P (g x)) → Forall P (flat_map g l).
Proof.
  intros H. induction l as [|x l IH]; simpl; [constructor|].
  apply Forall_app. auto.
Qed.

Lemma enumerate_from_lookup {A} (l : list A) s k x :
  l !! k = Some x → enumerate_from s l !! k = Some (s + k, x).
Proof.
  revert s k. induction l as [|y l IH]; intros s [|k] Hk; simpl in *; try done.
  - inversion Hk. by rewrite Nat.add_0_r.
  - rewrite (IH (S s) k Hk). f_equal. f_equal. lia.
Qed.

Lemma enumerate_from_elem {A} (l : list A) s k x :
  (k, x) ∈ enumerate_from s l → s ≤ k ∧ l !! (k - s) = Some x.
Proof.
  revert s. induction l as [|y l IH]; intros s; simpl.
  - intros H. inversion H.
  - intros [Heq|Hin]%elem_of_cons.
    + inversion Heq; subst. rewrite Nat.sub_diag. auto.
    + apply IH in Hin as [Hle Hl]. split; [lia|].
      replace (k - s) with (S (k - S s)) by lia. done.
Qed.

Lemma enumerate_elem_bound {A} (l : list A) it :
  it ∈ enumerate l → it.1 < length l ∧ l !! it.1 = Some it.2.
Proof.
  destruct it as [k x]. intros [_ Hk]%enumerate_from_elem. simpl.
  rewrite Nat.sub_0_r in Hk. split; [|done]. by eapply lookup_lt_Some.
Qed.

(** ** Entity paths *)

Lemma phase_path_inj phase i j : phase_path phase i = phase_path phase j → i = j.
Proof.
  unfold phase_path. intros H.
  repeat apply (inj (String.app _)) in H. by apply (inj pretty) in H.
Qed.

Lemma skeleton_path_inj i j : skeleton_path i = skeleton_path j → i = j.
Proof.
  unfold skeleton_path. intros H.
  apply (inj (String.app _)) in H. by apply (inj pretty) in H.
Qed.

Lemma phase_path_not_camera phase i : phase_path phase i ≠ "world/camera".
Proof. unfold phase_path. simpl. discriminate. Qed.

(** ** The phase pass *)

Lemma log_phase_track_rows X ds phase out f i w w' :
  rr_time w = Some f →
  log_phase_track X ds phase (smpl_vertices out) (smpl_faces out) f i w = (Ok tt, w') →
  emitted w w' (phase_track_rows X ds phase out f i) ∧
  is_Some (phase_track_component X ds out f i) ∧ rr_time w' = Some f.
Proof.
  intros Ht H. unfold log_phase_track in H.
  apply bind_ok in H as (vis_i & w1 & [Hv ->]%index_ok & H).
  apply bind_ok in H as (code & w2 & [Hc ->]%index_ok & H).
  unfold phase_track_rows, phase_track_component. rewrite Hv. simpl. rewrite Hc. simpl.
  case_bool_decide.
  - apply bind_ok in H as (verts_i & w3 & [Hvi ->]%index_ok & H).
    apply bind_ok in H as (verts & w4 & [Hvs ->]%index_ok & H).
    rewrite Hvi. simpl. rewrite Hvs. simpl.
    apply emitted_log in H as [Hem Htm]. rewrite Ht in Hem, Htm. eauto.
  - apply emitted_log in H as [Hem Htm]. rewrite Ht in Hem, Htm. eauto.
Qed.

Lemma log_phase_frame_rows X ds phase res out f w w' :
  log_phase_frame X ds phase res (smpl_vertices out) (smpl_faces out) f w = (Ok tt, w') →
  emitted w w' (phase_frame_rows X ds phase res out f) ∧
  is_Some (phase_camera_component X res f) ∧
  ∀ i, i < length (track_ids ds) → is_Some (phase_track_component X ds out f i).
Proof.
  intros H. unfold log_phase_frame in H.
  apply bind_ok in H as ([] & w1 & [Hem0 Ht]%emitted_set_time & H).
  apply bind_ok in H as (t1 & ? & [Ht1 ->]%index_ok & H).
  apply bind_ok in H as (t & ? & [Htf ->]%index_ok & H).
  apply bind_ok in H as (R1 & ? & [HR1 ->]%index_ok & H).
  apply bind_ok in H as (R & ? & [HRf ->]%index_ok & H).
  apply bind_ok in H as (q & ? & [Hq ->]%lift_ok & H).
  apply bind_ok in H as ([] & w2 & [Hem1 Ht2]%emitted_log & H).
  rewrite Ht in Hem1, Ht2.
  apply (for_each_emitted _ (fun it => phase_track_rows X ds phase out f it.1)
           (fun it => is_Some (phase_track_component X ds out f it.1))
           (fun w => rr_time w = Some f)) in H as (Hem2 & Hall & _); [|done|].
  - unfold phase_frame_rows, phase_camera_component.
    rewrite Ht1. simpl. rewrite Htf. simpl. rewrite HR1. simpl. rewrite HRf. simpl.
    rewrite Hq. simpl.
    split; [|split; [eauto|]].
    + apply (emitted_trans _ _ _ [] _ Hem0).
      apply (emitted_trans _ _ _ [_] _ Hem1 Hem2).
    + intros i Hi. destruct (lookup_lt_is_Some_2 (track_ids ds) i Hi) as [tid Htid].
      rewrite Forall_forall in Hall.
      apply (Hall (i, tid)).
      apply list_elem_of_lookup. exists i.
      exact (enumerate_from_lookup _ 0 i tid Htid).
  - intros it wa wb Hta Hb. by apply log_phase_track_rows.
Qed.

Lemma log_phase_result_rows X cfg ds dev phase res w w' :
  log_phase_result X cfg ds dev phase res w = (Ok tt, w') →
  emitted w w' (phase_rows X cfg ds phase res) ∧ phase_ok X cfg ds res.
Proof.
  intros H. unfold log_phase_result in H.
  apply bind_ok in H as (bm & ? & [Hbm ->]%lift_ok & H).
  apply bind_ok in H as (out & ? & [Hout ->]%lift_ok & H).
  assert (smpl_result X cfg ds res = Ok out) as Hs.
  { unfold smpl_result. by rewrite Hbm. }
  apply (for_each_emitted _ (phase_frame_rows X ds phase res out)
           (fun f => is_Some (phase_camera_component X res f) ∧
                     ∀ i, i < length (track_ids ds) →
                          is_Some (phase_track_component X ds out f i))
           (fun _ => True)) in H as (Hem & Hall & _); [|done|].
  - unfold phase_rows, phase_ok. rewrite Hs. split; [done|].
    exists out. split; [done|]. intros f Hf.
    rewrite Forall_forall in Hall. apply Hall. apply elem_of_seq. lia.
  - intros f wa wb _ Hb. apply log_phase_frame_rows in Hb. tauto.
Qed.

Lemma phase_frame_rows_time X ds phase res out f :
  Forall (fun r => row_time r = Some f) (phase_frame_rows X ds phase res out f).
Proof.
  unfold phase_frame_rows. destruct (phase_camera_component X res f); [|constructor].
  constructor; [done|]. apply Forall_flat_map_rows. intros it.
  unfold phase_track_rows. destruct (phase_track_component _ _ _ _ _); repeat constructor.
Qed.

(** The events of one track at one frame within the rows of a phase pass. *)
Lemma events_at_phase_track X ds phase res out T f i c :
  f < T → i < length (track_ids ds) →
  is_Some (phase_camera_component X res f) →
  phase_track_component X ds out f i = Some c →
  events_at (flat_map (phase_frame_rows X ds phase res out) (seq 0 T))
            (phase_path phase i) f = [c].
Proof.
  intros Hf Hi [cam Hcam] Hc.
  rewrite (events_at_flat_map_seq _ _ _ 0 T f); [|lia|].
  - unfold phase_frame_rows. rewrite Hcam.
    rewrite events_at_cons_miss.
    2:{ simpl. intros [Hp _]. symmetry in Hp. by apply phase_path_not_camera in Hp. }
    unfold enumerate. rewrite (flat_map_enumerate_fst (phase_track_rows X ds phase out f)).
    rewrite (events_at_flat_map_seq _ _ _ 0 _ i); [|lia|].
    + unfold phase_track_rows. rewrite Hc. by rewrite events_at_cons_hit.
    + intros j Hj. unfold phase_track_rows.
      destruct (phase_track_component X ds out f j); [|done].
      apply events_at_none. repeat constructor. simpl.
      intros [Hp _]. by apply phase_path_inj in Hp.
  - intros j Hj. eapply events_at_other_time; [apply phase_frame_rows_time|done].
Qed.

(** The camera events of one frame within the rows of a phase pass. *)
Lemma events_at_phase_camera X ds phase res out T f c :
  f < T → phase_camera_component X res f = Some c →
  events_at (flat_map (phase_frame_rows X ds phase res out) (seq 0 T)) "world/camera" f
  = [c].
Proof.
  intros Hf Hc.
  rewrite (events_at_flat_map_seq _ _ _ 0 T f); [|lia|].
  - unfold phase_frame_rows. rewrite Hc. rewrite events_at_cons_hit by done.
    rewrite events_at_flat_map_none; [done|].
    apply Forall_forall. intros it _. unfold phase_track_rows.
    destruct (phase_track_component _ _ _ _ _); [|done].
    apply events_at_none. repeat constructor. simpl.
    intros [Hp _]. by apply phase_path_not_camera in Hp.
  - intros j Hj. eapply events_at_other_time; [apply phase_frame_rows_time|done].
Qed.

(** With every array entry in place the phase pass completes. *)
Lemma log_phase_track_completes X ds phase out f i w :
  is_Some (phase_track_component X ds out f i) →
  ∃ w', log_phase_track X ds phase (smpl_vertices out) (smpl_faces out) f i w = (Ok tt, w').
Proof.
  intros [c Hc]. unfold phase_track_component in Hc.
  unfold log_phase_track, bind, index.
  destruct (vis_mask ds !! i) as [vis_i|]; [|done]. simpl in Hc |- *.
  destruct (vis_i !! f) as [code|]; [|done]. simpl in Hc |- *.
  case_bool_decide; [|by eexists].
  destruct (smpl_vertices out !! i) as [verts_i|]; [|done]. simpl in Hc |- *.
  destruct (verts_i !! f) as [verts|]; [|done]. simpl. by eexists.
Qed.

Lemma log_phase_frame_completes X ds phase res out f w :
  is_Some (phase_camera_component X res f) →
  (∀ i, i < length (track_ids ds) → is_Some (phase_track_component X ds out f i)) →
  ∃ w', log_phase_frame X ds phase res (smpl_vertices out) (smpl_faces out) f w
        = (Ok tt, w').
Proof.
  intros [c Hc] Htracks. unfold phase_camera_component in Hc.
  unfold log_phase_frame, bind, index. simpl.
  destruct (res_cam_t res !! 1%nat) as [t1|]; [|done]. simpl in Hc |- *.
  destruct (t1 !! f) as [t|]; [|done]. simpl in Hc |- *.
  destruct (res_cam_R res !! 1%nat) as [R1|]; [|done]. simpl in Hc |- *.
  destruct (R1 !! f) as [R|]; [|done]. simpl in Hc |- *.
  unfold lift. destruct (rotation_as_quat X R) as [q|e]; [|done]. simpl.
  apply for_each_completes. intros it [Hit _]%enumerate_elem_bound w1.
  by apply log_phase_track_completes, Htracks.
Qed.

Lemma log_phase_result_completes X cfg ds dev phase res w :
  phase_ok X cfg ds res →
  ∃ w', log_phase_result X cfg ds dev phase res w = (Ok tt, w').
Proof.
  intros (out & Hs & Hok). unfold smpl_result in Hs.
  unfold log_phase_result, bind, lift.
  destruct (load_smpl_body_model X _ _) as [bm|e]; [|done]. simpl. rewrite Hs.
  apply for_each_completes. intros f Hf%elem_of_seq w1.
  destruct (Hok f) as [Hcam Htracks]; [lia|].
  by apply log_phase_frame_completes.
Qed.

(** C1 (visibility gate). [log_phase_result] completes exactly when the body
    model evaluates and every array entry it reads is there; and when it
    completes, every track index [i] and frame [f] has exactly one event at
    [world/phase_<phase>/#i] under timeline key [f]: the mesh of
    [vertices[i][f]] when [vis_mask[i][f] >= 0] (the same mesh for code 0 as
    for code 1: it depends on the vertices only), and a clear when the code
    is negative. *)
Theorem visibility_gate_one_event X cfg ds dev phase res w :
  (phase_ok X cfg ds res ↔
   ∃ w', log_phase_result X cfg ds dev phase res w = (Ok tt, w')) ∧
  ∀ w', log_phase_result X cfg ds dev phase res w = (Ok tt, w') →
  ∃ new out,
    rr_rows w' = rr_rows w ++ new ∧ smpl_result X cfg ds res = Ok out ∧
    ∀ i f, i < length (track_ids ds) → f < seq_len ds →
      ∃ code, vis_mask ds !! i ≫= (.!! f) = Some code ∧
        ((0 ≤ code)%Z →
           ∃ verts, smpl_vertices out !! i ≫= (.!! f) = Some verts ∧
             events_at new (phase_path phase i) f
             = [Mesh verts (smpl_faces out) (vertex_normals X verts (smpl_faces out))]) ∧
        ((code < 0)%Z → events_at new (phase_path phase i) f = [Cleared]).
Proof.
  split.
  { split; [apply log_phase_result_completes|].
    intros [w' H]. by apply log_phase_result_rows in H as [_ Hok]. }
  intros w' H. apply log_phase_result_rows in H as [Hem (out & Hs & Hok)].
  exists (phase_rows X cfg ds phase res), out.
  split; [apply Hem|]. split; [done|].
  intros i f Hi Hf. destruct (Hok f Hf) as [Hcam Htracks].
  destruct (Htracks i Hi) as [c Hc].
  pose proof (events_at_phase_track X ds phase res out (seq_len ds) f i c Hf Hi Hcam Hc)
    as Hev.
  unfold phase_rows, range. rewrite Hs.
  unfold phase_track_component in Hc.
  destruct (vis_mask ds !! i) as [vis_i|]; [|done]. simpl in Hc |- *.
  destruct (vis_i !! f) as [code|]; [|done]. simpl in Hc.
  exists code. split; [done|]. case_bool_decide.
  - split; [|lia]. intros _.
    destruct (smpl_vertices out !! i) as [verts_i|]; [|done]. simpl in Hc |- *.
    destruct (verts_i !! f) as [verts|]; [|done]. simpl in Hc.
    exists verts. split; [done|]. congruence.
  - split; [lia|]. intros _. congruence.
Qed.

(** On the end-to-end scenario: track 0 is cleared at frame 1 (code -1) and
    rendered at frame 2 (code 0, occluded). *)
Lemma visibility_gate_one_event_witness :
  log_phase_result ex_X ex_cfg ex_ds (PyInt 0) "motion_chunks" ex_res ex_world
  = (Ok tt, (log_phase_result ex_X ex_cfg ex_ds (PyInt 0) "motion_chunks" ex_res
                              ex_world).2) ∧
  ∃ new, rr_rows (log_phase_result ex_X ex_cfg ex_ds (PyInt 0) "motion_chunks" ex_res
                                   ex_world).2 = new ∧
         events_at new (phase_path "motion_chunks" 0) 1 = [Cleared] ∧
         events_at new (phase_path "motion_chunks" 0) 2
         = [Mesh [[2%float]] [[0; 1; 2]%Z] [[2%float]]].
Proof.
  assert (log_phase_result ex_X ex_cfg ex_ds (PyInt 0) "motion_chunks" ex_res ex_world
          = (Ok tt, (log_phase_result ex_X ex_cfg ex_ds (PyInt 0) "motion_chunks" ex_res
                                      ex_world).2)) as Hrun
    by (vm_compute; reflexivity).
  split; [exact Hrun|].
  destruct (proj2 (visibility_gate_one_event ex_X ex_cfg ex_ds (PyInt 0) "motion_chunks"
                     ex_res ex_world) _ Hrun) as (new & out & Hrows & Hs & Hall).
  exists new. split; [exact Hrows|].
  vm_compute in Hs. inversion Hs; subst out. split.
  - destruct (Hall 0 1) as (code & Hc & _ & Hneg); [simpl; lia..|].
    vm_compute in Hc. inversion Hc; subst code. apply Hneg. lia.
  - destruct (Hall 0 2) as (code & Hc & Hpos & _); [simpl; lia..|].
    vm_compute in Hc. inversion Hc; subst code.
    destruct Hpos as (verts & Hv & Hev); [lia|].
    vm_compute in Hv. inversion Hv; subst verts. exact Hev.
Defined.

(** ** The order of the floats *)

Lemma SFcompare_key x y :
  x ≠ S754_nan → y ≠ S754_nan →
  ∃ c, SFcompare x y = Some c ∧
       match c with
       | Lt => key_lt (sf_key x) (sf_key y)
       | Eq => sf_key x = sf_key y
       | Gt => key_lt (sf_key y) (sf_key x)
       end.
Proof.
  intros Hx Hy. unfold key_lt.
  destruct x as [sx|[]| |[] mx ex], y as [sy|[]| |[] my ey]; try done;
    simpl; try (eexists; split; [reflexivity|]; simpl; first [reflexivity | lia]).
  - change (PosDef.Pos.compare_cont Eq mx my) with (Pos.compare mx my).
    destruct (Z.compare_spec ex ey) as [->|?|?];
      [destruct (Pos.compare_spec mx my) as [->|?|?]|..];
      eexists; (split; [reflexivity|]); simpl; first [reflexivity | lia].
  - change (PosDef.Pos.compare_cont Eq mx my) with (Pos.compare mx my).
    destruct (Z.compare_spec ex ey) as [->|?|?];
      [destruct (Pos.compare_spec mx my) as [->|?|?]|..];
      eexists; (split; [reflexivity|]); simpl; first [reflexivity | lia].
Qed.

Lemma is_nan_false_spec x : PrimFloat.is_nan x = false → Prim2SF x ≠ S754_nan.
Proof.
  unfold PrimFloat.is_nan. rewrite FloatAxioms.eqb_spec. intros H Hn.
  rewrite Hn in H. discriminate.
Qed.

Lemma is_nan_spec_float x : PrimFloat.is_nan x = true → Prim2SF x = S754_nan.
Proof.
  unfold PrimFloat.is_nan. rewrite FloatAxioms.eqb_spec. unfold SFeqb.
  destruct (Prim2SF x) as [s|s| |s m e]; simpl; try done.
  - by destruct s.
  - destruct s; rewrite Z.compare_refl, Pos.compare_cont_refl; done.
Qed.

Lemma ltb_nan_r x y : PrimFloat.is_nan y = true → PrimFloat.ltb x y = false.
Proof.
  intros Hy%is_nan_spec_float. rewrite FloatAxioms.ltb_spec, Hy. unfold SFltb.
  by destruct (Prim2SF x).
Qed.

Lemma ltb_key x y :
  PrimFloat.ltb x y = true ↔
  Prim2SF x ≠ S754_nan ∧ Prim2SF y ≠ S754_nan ∧
  key_lt (sf_key (Prim2SF x)) (sf_key (Prim2SF y)).
Proof.
  rewrite FloatAxioms.ltb_spec. unfold SFltb. split.
  - intros H.
    assert (Prim2SF x ≠ S754_nan) as Hx.
    { intros Hn. rewrite Hn in H. done. }
    assert (Prim2SF y ≠ S754_nan) as Hy.
    { intros Hn. rewrite Hn in H. by destruct (Prim2SF x). }
    split; [done|]. split; [done|].
    destruct (SFcompare_key _ _ Hx Hy) as (c & Hc & Hk). rewrite Hc in H.
    by destruct c.
  - intros (Hx & Hy & Hk).
    destruct (SFcompare_key _ _ Hx Hy) as (c & Hc & Hk'). rewrite Hc.
    destruct c; [|done|]; unfold key_lt in *.
    + rewrite Hk' in Hk. lia.
    + lia.
Qed.

Lemma leb_key x y :
  PrimFloat.leb x y = true ↔
  Prim2SF x ≠ S754_nan ∧ Prim2SF y ≠ S754_nan ∧
  ¬ key_lt (sf_key (Prim2SF y)) (sf_key (Prim2SF x)).
Proof.
  rewrite FloatAxioms.leb_spec. unfold SFleb. split.
  - intros H.
    assert (Prim2SF x ≠ S754_nan) as Hx.
    { intros Hn. rewrite Hn in H. done. }
    assert (Prim2SF y ≠ S754_nan) as Hy.
    { intros Hn. rewrite Hn in H. by destruct (Prim2SF x). }
    split; [done|]. split; [done|].
    destruct (SFcompare_key _ _ Hx Hy) as (c & Hc & Hk). rewrite Hc in H.
    destruct c; [| |done]; unfold key_lt in *.
    + rewrite Hk. lia.
    + lia.
  - intros (Hx & Hy & Hk).
    destruct (SFcompare_key _ _ Hx Hy) as (c & Hc & Hk'). rewrite Hc.
    by destruct c.
Qed.

(** The constants of [conf_threshold] are the roundings of [0.3]: in half and
    in single precision [0.3] lies strictly between two neighbouring values,
    and the constant is the nearer one. *)
Lemma conf_threshold_rounds :
  conf_threshold Float64 = 0.3%float ∧
  (PrimFloat.ltb 0x1.333332p-2 0.3 = true ∧
   PrimFloat.ltb 0.3 (conf_threshold Float32) = true ∧
   PrimFloat.eqb (conf_threshold Float32 - 0x1.333332p-2) 0x1p-25 = true ∧
   PrimFloat.ltb (conf_threshold Float32 - 0.3) (0.3 - 0x1.333332p-2) = true)%float ∧
  (PrimFloat.ltb 0x1.330p-2 0.3 = true ∧
   PrimFloat.ltb 0.3 (conf_threshold Float16) = true ∧
   PrimFloat.eqb (conf_threshold Float16 - 0x1.330p-2) 0x1p-12 = true ∧
   PrimFloat.ltb (conf_threshold Float16 - 0.3) (0.3 - 0x1.330p-2) = true)%float.
Proof. vm_compute. tauto. Qed.

(** ** The skeleton extractor *)

Lemma np_min_endpoint a b : np_min a b = a ∨ np_min a b = b.
Proof.
  unfold np_min. destruct (PrimFloat.is_nan a); [auto|].
  destruct (PrimFloat.is_nan b); [auto|]. destruct (PrimFloat.ltb b a); auto.
Qed.

(** Without a NaN, [np_min] is one of its arguments and below both. *)
Lemma np_min_is_minimum a b :
  PrimFloat.is_nan a = false → PrimFloat.is_nan b = false →
  (np_min a b = a ∨ np_min a b = b) ∧
  PrimFloat.leb (np_min a b) a = true ∧ PrimFloat.leb (np_min a b) b = true.
Proof.
  intros Ha Hb. unfold np_min. rewrite Ha, Hb.
  apply is_nan_false_spec in Ha, Hb.
  destruct (PrimFloat.ltb b a) eqn:Hba.
  - split; [by right|]. apply ltb_key in Hba as (_ & _ & Hba).
    rewrite !leb_key. unfold key_lt in *. repeat split; try done; lia.
  - assert (¬ key_lt (sf_key (Prim2SF b)) (sf_key (Prim2SF a))) as Hnot.
    { intros Hk. assert (PrimFloat.ltb b a = true) as Ht by (apply ltb_key; auto).
      congruence. }
    split; [by left|]. rewrite !leb_key. unfold key_lt in *.
    repeat split; try done; lia.
Qed.

(** The minimum is above a threshold exactly when both arguments are; a NaN
    on either side makes both sides false. *)
Lemma ltb_np_min thr a b :
  PrimFloat.ltb thr (np_min a b) = PrimFloat.ltb thr a && PrimFloat.ltb thr b.
Proof.
  unfold np_min.
  destruct (PrimFloat.is_nan a) eqn:Ha.
  { by rewrite (ltb_nan_r thr a Ha). }
  destruct (PrimFloat.is_nan b) eqn:Hb.
  { rewrite (ltb_nan_r thr b Hb). by rewrite andb_false_r. }
  apply is_nan_false_spec in Ha, Hb.
  apply eq_true_iff_eq. rewrite andb_true_iff.
  destruct (PrimFloat.ltb b a) eqn:Hba.
  - apply ltb_key in Hba as (_ & _ & Hba). rewrite !ltb_key. unfold key_lt in *.
    split; [|tauto]. intros (Ht & _ & Hk). repeat split; try done; lia.
  - assert (¬ key_lt (sf_key (Prim2SF b)) (sf_key (Prim2SF a))) as Hnot.
    { intros Hk. assert (PrimFloat.ltb b a = true) as Ht by (apply ltb_key; auto).
      congruence. }
    rewrite !ltb_key. unfold key_lt in *.
    split; [|tauto]. intros (Ht & _ & Hk). repeat split; try done; lia.
Qed.

(** Selecting by a boolean mask computed row by row is filtering. *)
Lemma mask_select_filter {A} (b : A → bool) (l : list A) :
  mask_select (map b l) l = filter (fun x => b x = true) l.
Proof.
  induction l as [|x l IH]; simpl; [done|].
  destruct (b x) eqn:Hb.
  - rewrite filter_cons_True by done. by rewrite IH.
  - rewrite filter_cons_False by (rewrite Hb; discriminate). done.
Qed.

Lemma filter_none {A} (P : A → Prop) `{!∀ x, Decision (P x)} (l : list A) :
  Forall (fun x => ¬ P x) l → filter P l = [].
Proof.
  induction 1 as [|x l Hx _ IH]; [done|]. by rewrite filter_cons_False.
Qed.

Lemma joint_confidence_mask dt segs :
  map (fun c => PrimFloat.ltb (conf_threshold dt) c) (joint_confidence segs)
  = map (fun s => PrimFloat.ltb (conf_threshold dt)
                    (np_min (joint_conf s.1) (joint_conf s.2)))
        segs.
Proof. unfold joint_confidence. by rewrite map_map. Qed.

Lemma segment_kept_min thr s :
  PrimFloat.ltb thr (np_min (joint_conf s.1) (joint_conf s.2)) = segment_kept thr s.
Proof. destruct s as [[[x1 y1] c1] [[x2 y2] c2]]. simpl. apply ltb_np_min. Qed.

(** The kept rows of the code are the spec's kept segments. *)
Lemma good_joints_xy_kept dt segs :
  good_joints_xy dt segs
  = map segment_xy (filter (fun s => segment_kept (conf_threshold dt) s = true) segs).
Proof.
  unfold good_joints_xy. rewrite joint_confidence_mask, mask_select_filter.
  induction segs as [|s segs IH]; [done|].
  rewrite !filter_cons, <- segment_kept_min.
  destruct (decide (PrimFloat.ltb (conf_threshold dt)
                      (np_min (joint_conf s.1) (joint_conf s.2)) = true)); simpl.
  - rewrite IH. f_equal. by destruct s as [[[x1 y1] c1] [[x2 y2] c2]].
  - exact IH.
Qed.

Lemma reshape_points_kept dt segs :
  reshape_points (good_joints_xy dt segs) = kept_points (conf_threshold dt) segs.
Proof.
  rewrite good_joints_xy_kept. unfold reshape_points, kept_points.
  induction (filter (fun s => segment_kept (conf_threshold dt) s = true) segs)
    as [|s l IH]; simpl; [done|].
  rewrite IH. by destruct s as [[[x1 y1] c1] [[x2 y2] c2]].
Qed.

Lemma kept_points_length thr segs :
  length (kept_points thr segs)
  = 2 * length (filter (fun s => segment_kept thr s = true) segs).
Proof.
  unfold kept_points.
  induction (filter (fun s => segment_kept thr s = true) segs) as [|s l IH];
    simpl; [done|].
  rewrite length_app, IH. destruct s as [[[x1 y1] c1] [[x2 y2] c2]]. simpl. lia.
Qed.

Lemma filter_kept_nil thr segs :
  filter (fun s => segment_kept thr s = true) segs = [] ↔
  Forall (fun s => segment_kept thr s = false) segs.
Proof.
  induction segs as [|s segs IH]; [split; [constructor|done]|].
  rewrite filter_cons. destruct (decide (segment_kept thr s = true)) as [Hk|Hk].
  - split; [done|]. intros Hall. inversion Hall; subst. congruence.
  - rewrite IH. apply not_true_is_false in Hk. split.
    + by constructor.
    + intros Hall. by inversion Hall.
Qed.

(** What the skeleton pass logs for a frame, in the spec's words. *)
Lemma skeleton_component_kept dt segs :
  (Forall (fun s => segment_kept (conf_threshold dt) s = false) segs →
   skeleton_component dt segs = Cleared) ∧
  (Exists (fun s => segment_kept (conf_threshold dt) s = true) segs →
   skeleton_component dt segs = LineSegments (kept_points (conf_threshold dt) segs)).
Proof.
  unfold skeleton_component. rewrite reshape_points_kept, good_joints_xy_kept, length_map.
  split.
  - intros Hall%filter_kept_nil. rewrite Hall. reflexivity.
  - intros Hex. rewrite bool_decide_true; [done|].
    intros Hlen. apply nil_length_inv in Hlen. apply filter_kept_nil in Hlen.
    apply Exists_exists in Hex as (s & Hs & Hk).
    rewrite Forall_forall in Hlen. specialize (Hlen s Hs). congruence.
Qed.

Lemma segment_joints_lookup frame_joints segs k a b :
  segment_joints frame_joints = Some segs →
  skeleton_ids !! k = Some (a, b) →
  ∃ ia ib p q,
    idcs !! a = Some ia ∧ idcs !! b = Some ib ∧
    frame_joints !! ia = Some p ∧ frame_joints !! ib = Some q ∧
    segs !! k = Some (p, q).
Proof.
  unfold segment_joints, fancy_index.
  generalize skeleton_ids as edges, idcs as perm. intros edges perm H Hk.
  destruct (mapM (fun i => frame_joints !! i) perm) as [remapped|] eqn:Hre; [|done].
  simpl in H. apply mapM_Some_1 in H. apply mapM_Some_1 in Hre.
  destruct (Forall2_lookup_l _ _ _ _ _ H Hk) as (s & Hs & Hpq). simpl in Hpq.
  destruct (remapped !! a) as [p|] eqn:Hp; [|done]. simpl in Hpq.
  destruct (remapped !! b) as [q|] eqn:Hq; [|done]. simpl in Hpq.
  inversion Hpq; subst s.
  destruct (Forall2_lookup_r _ _ _ _ _ Hre Hp) as (ia & Hia & Hfa).
  destruct (Forall2_lookup_r _ _ _ _ _ Hre Hq) as (ib & Hib & Hfb).
  exists ia, ib, p, q. auto.
Qed.

Lemma good_joints_xy_app dt l1 l2 :
  good_joints_xy dt (l1 ++ l2) = good_joints_xy dt l1 ++ good_joints_xy dt l2.
Proof.
  unfold good_joints_xy.
  by rewrite !joint_confidence_mask, !mask_select_filter, filter_app, map_app.
Qed.

(** C2 (skeleton confidence filter). The candidate segments of a frame are the
    edges of [skeleton_ids] read through the permutation [idcs], and the
    confidence the code computes for a segment is [np_min] of its two
    endpoint confidences.  [np_min] is the minimum: without a NaN it is one
    of the two and below both, and it is above a threshold exactly when both
    endpoints are.  The kept segments are exactly those whose minimum is
    strictly above 0.3, in the order of the edge table, where 0.3 is the
    constant in the precision of the keypoint array (binary64 0.3 for a
    double precision array, the nearest single or half precision value
    otherwise); a segment whose minimum is exactly that value is dropped. *)
Theorem skeleton_confidence_filter (dt : float_dtype) (frame_joints : list joint) segs :
  segment_joints frame_joints = Some segs →
  let thr := match dt with
             | Float16 => 0x1.334p-2
             | Float32 => 0x1.333334p-2
             | Float64 => 0.3
             end%float in
  (∀ k a b, skeleton_ids !! k = Some (a, b) →
     ∃ ia ib x1 y1 c1 x2 y2 c2,
       idcs !! a = Some ia ∧ idcs !! b = Some ib ∧
       frame_joints !! ia = Some (x1, y1, c1) ∧ frame_joints !! ib = Some (x2, y2, c2) ∧
       segs !! k = Some ((x1, y1, c1), (x2, y2, c2)) ∧
       joint_confidence segs !! k = Some (np_min c1 c2)) ∧
  (∀ a b, PrimFloat.is_nan a = false → PrimFloat.is_nan b = false →
     (np_min a b = a ∨ np_min a b = b) ∧
     PrimFloat.leb (np_min a b) a = true ∧ PrimFloat.leb (np_min a b) b = true) ∧
  (∀ a b, PrimFloat.ltb thr (np_min a b) = PrimFloat.ltb thr a && PrimFloat.ltb thr b) ∧
  good_joints_xy dt segs
  = map (fun '((x1, y1, c1), (x2, y2, c2)) => ((x1, y1), (x2, y2)))
        (filter (fun '((x1, y1, c1), (x2, y2, c2)) =>
                   PrimFloat.ltb thr (np_min c1 c2) = true) segs) ∧
  (∀ l1 x1 y1 c1 x2 y2 c2 l2,
     segs = l1 ++ ((x1, y1, c1), (x2, y2, c2)) :: l2 →
     np_min c1 c2 = thr →
     good_joints_xy dt segs = good_joints_xy dt l1 ++ good_joints_xy dt l2).
Proof.
  intros Hsegs thr.
  assert (thr = conf_threshold dt) as Hthr by (by destruct dt).
  split; [|split; [|split; [|split]]].
  - intros k a b Hk.
    destruct (segment_joints_lookup _ _ _ _ _ Hsegs Hk)
      as (ia & ib & [[x1 y1] c1] & [[x2 y2] c2] & Hia & Hib & Hp & Hq & Hs).
    exists ia, ib, x1, y1, c1, x2, y2, c2. repeat split; try done.
    unfold joint_confidence.
    change (map ?f segs) with (f <$> segs). by rewrite list_lookup_fmap, Hs.
  - apply np_min_is_minimum.
  - intros a b. apply ltb_np_min.
  - rewrite Hthr. unfold good_joints_xy.
    rewrite joint_confidence_mask, mask_select_filter.
    clear Hsegs. induction segs as [|[[[x1 y1] c1] [[x2 y2] c2]] segs IH]; [done|].
    rewrite !filter_cons. simpl.
    destruct (decide (PrimFloat.ltb (conf_threshold dt) (np_min c1 c2) = true)); simpl.
    + by rewrite IH.
    + exact IH.
  - intros l1 x1 y1 c1 x2 y2 c2 l2 -> Hmin.
    rewrite good_joints_xy_app. f_equal.
    change (?s :: l2) with ([s] ++ l2). rewrite good_joints_xy_app.
    unfold good_joints_xy at 1. simpl. rewrite Hmin, Hthr.
    assert (PrimFloat.ltb (conf_threshold dt) (conf_threshold dt) = false) as ->
      by (by destruct dt).
    reflexivity.
Qed.

(** A frame whose raw joint 16 sits exactly at the threshold and is the
    second endpoint of the edge (0, 1): that edge has confidence 0.3, the
    smaller of 0.30001 and 0.3, and is dropped with the two other edges of
    the joint, so 16 of the 19 segments are kept.  In single precision the
    stored value nearest to 0.3 is dropped as well, although it is above the
    binary64 0.3. *)
Lemma skeleton_confidence_filter_witness :
  (∃ segs, segment_joints ex_frame_second = Some segs ∧
     segs !! 13%nat = Some (ex_joint 0.30001%float, ex_joint 0.3%float) ∧
     joint_confidence segs !! 13%nat = Some 0.3%float ∧
     length (good_joints_xy Float64 segs) = 16%nat) ∧
  (∃ segs, segment_joints ex_frame_single = Some segs ∧
     joint_confidence segs !! 13%nat = Some 0x1.333334p-2%float ∧
     PrimFloat.ltb 0.3 0x1.333334p-2 = true ∧
     length (good_joints_xy Float32 segs) = 16%nat).
Proof.
  split.
  - exists (default [] (segment_joints ex_frame_second)).
    assert (segment_joints ex_frame_second
            = Some (default [] (segment_joints ex_frame_second))) as Hs
      by (vm_compute; reflexivity).
    split; [exact Hs|].
    destruct (skeleton_confidence_filter Float64 _ _ Hs) as (Hcand & _ & _ & Hgood & _).
    destruct (Hcand 13%nat 0%nat 1%nat eq_refl)
      as (ia & ib & x1 & y1 & c1 & x2 & y2 & c2 & Hia & Hib & Hp & Hq & Hseg & Hc).
    vm_compute in Hia, Hib. inversion Hia; inversion Hib; subst ia ib.
    vm_compute in Hp, Hq. inversion Hp; inversion Hq; subst.
    split; [exact Hseg|]. split; [exact Hc|].
    rewrite Hgood. vm_compute. reflexivity.
  - exists (default [] (segment_joints ex_frame_single)).
    assert (segment_joints ex_frame_single
            = Some (default [] (segment_joints ex_frame_single))) as Hs
      by (vm_compute; reflexivity).
    split; [exact Hs|].
    destruct (skeleton_confidence_filter Float32 _ _ Hs) as (Hcand & _ & _ & Hgood & _).
    destruct (Hcand 13%nat 0%nat 1%nat eq_refl)
      as (ia & ib & x1 & y1 & c1 & x2 & y2 & c2 & Hia & Hib & Hp & Hq & Hseg & Hc).
    vm_compute in Hia, Hib. inversion Hia; inversion Hib; subst ia ib.
    vm_compute in Hp, Hq. inversion Hp; inversion Hq; subst.
    split; [exact Hc|]. split; [vm_compute; reflexivity|].
    rewrite Hgood. vm_compute. reflexivity.
Defined.

(** ** The skeleton pass *)

Lemma log_skeleton_frame_rows dt i f fj w w' :
  log_skeleton_frame dt i f fj w = (Ok tt, w') →
  emitted w w' (skeleton_frame_rows dt i f fj) ∧ is_Some (segment_joints fj).
Proof.
  intros H. unfold log_skeleton_frame in H.
  apply bind_ok in H as (segs & w1 & Hsegs & H).
  unfold skeleton_frame_rows, skeleton_component.
  destruct (segment_joints fj) as [segs'|]; [|discriminate Hsegs].
  unfold ret in Hsegs. inv_pair.
  apply bind_ok in H as ([] & w2 & [Hem0 Ht]%emitted_set_time & H).
  split; [|eauto].
  apply (emitted_trans _ _ _ [] _ Hem0).
  case_bool_decide; apply emitted_log in H as [Hem _]; by rewrite Ht in Hem.
Qed.

Lemma log_skeleton_2d_rows ds w w' :
  log_skeleton_2d ds w = (Ok tt, w') →
  emitted w w' (skeleton_rows ds) ∧ skeleton_ok ds.
Proof.
  intros H. unfold log_skeleton_2d in H.
  apply (for_each_emitted _ (fun it => skeleton_track_rows ds it.1)
           (fun it => ∃ js, joints2d ds !! it.1 = Some js ∧
                        Forall (fun ff => is_Some (segment_joints ff.2)) (enumerate js))
           (fun _ => True)) in H as (Hem & Hall & _); [|done|].
  - split; [done|]. intros i Hi.
    destruct (lookup_lt_is_Some_2 (track_ids ds) i Hi) as [tid Htid].
    rewrite Forall_forall in Hall.
    destruct (Hall (i, tid)) as (js & Hjs & Hfr).
    { apply list_elem_of_lookup. exists i. exact (enumerate_from_lookup _ 0 i tid Htid). }
    exists js. split; [done|]. intros f fj Hf.
    rewrite Forall_forall in Hfr. apply (Hfr (f, fj)).
    apply list_elem_of_lookup. exists f. exact (enumerate_from_lookup _ 0 f fj Hf).
  - intros it wa wb _ Hb.
    apply bind_ok in Hb as (js & ? & [Hjs ->]%index_ok & Hb).
    apply (for_each_emitted _
             (fun ff => skeleton_frame_rows (joints2d_dtype ds) it.1 ff.1 ff.2)
             (fun ff => is_Some (segment_joints ff.2)) (fun _ => True))
      in Hb as (Hem & Hall & _); [|done|].
    + unfold skeleton_track_rows. rewrite Hjs. eauto.
    + intros ff w1 w2 _ Hf. apply log_skeleton_frame_rows in Hf. tauto.
Qed.

Lemma skeleton_frame_rows_stamp dt i f fj :
  Forall (fun r => row_time r = Some f ∧ row_path r = skeleton_path i)
         (skeleton_frame_rows dt i f fj).
Proof.
  unfold skeleton_frame_rows. destruct (segment_joints fj); repeat constructor.
Qed.

Lemma skeleton_track_rows_path ds i :
  Forall (fun r => row_path r = skeleton_path i) (skeleton_track_rows ds i).
Proof.
  unfold skeleton_track_rows. destruct (joints2d ds !! i); [|constructor].
  apply Forall_flat_map_rows. intros ff.
  eapply Forall_impl; [apply skeleton_frame_rows_stamp|]. simpl. tauto.
Qed.

(** The events of one track at one frame within the rows of the skeleton pass. *)
Lemma events_at_skeleton ds i js f fj segs :
  i < length (track_ids ds) →
  joints2d ds !! i = Some js → js !! f = Some fj → segment_joints fj = Some segs →
  events_at (skeleton_rows ds) (skeleton_path i) f
  = [skeleton_component (joints2d_dtype ds) segs].
Proof.
  intros Hi Hjs Hf Hsegs. unfold skeleton_rows, enumerate.
  rewrite (flat_map_enumerate_fst (skeleton_track_rows ds)).
  rewrite (events_at_flat_map_seq _ _ _ 0 _ i); [|lia|].
  - unfold skeleton_track_rows. rewrite Hjs. unfold enumerate.
    rewrite (events_at_flat_map_enumerate
               (skeleton_frame_rows (joints2d_dtype ds) i) js _ _ 0 f fj Hf).
    + simpl. unfold skeleton_frame_rows. rewrite Hsegs. by rewrite events_at_cons_hit.
    + intros j y Hj. eapply events_at_other_time; [|exact Hj].
      eapply Forall_impl; [apply skeleton_frame_rows_stamp|]. simpl. tauto.
  - intros j Hj. apply events_at_none.
    eapply Forall_impl; [apply skeleton_track_rows_path|]. simpl.
    intros r Hr [Hp _]. rewrite Hr in Hp. by apply skeleton_path_inj in Hp.
Qed.

Lemma segment_joints_elem frame_joints segs s :
  segment_joints frame_joints = Some segs → s ∈ segs →
  s.1 ∈ frame_joints ∧ s.2 ∈ frame_joints.
Proof.
  unfold segment_joints, fancy_index.
  generalize skeleton_ids as edges, idcs as perm. intros edges perm H Hs.
  destruct (mapM (fun i => frame_joints !! i) perm) as [remapped|] eqn:Hre; [|done].
  simpl in H. apply mapM_Some_1 in H. apply mapM_Some_1 in Hre.
  apply list_elem_of_lookup in Hs as [k Hk].
  destruct (Forall2_lookup_r _ _ _ _ _ H Hk) as (e & _ & Hpq). simpl in Hpq.
  destruct (remapped !! e.1) as [p|] eqn:Hp; [|done]. simpl in Hpq.
  destruct (remapped !! e.2) as [q|] eqn:Hq; [|done]. simpl in Hpq.
  inversion Hpq; subst s. simpl.
  destruct (Forall2_lookup_r _ _ _ _ _ Hre Hp) as (ia & _ & Hfa).
  destruct (Forall2_lookup_r _ _ _ _ _ Hre Hq) as (ib & _ & Hfb).
  split; apply list_elem_of_lookup; eauto.
Qed.

(** No joint above the threshold: no segment is kept. *)
Lemma good_joints_xy_none dt frame_joints segs :
  segment_joints frame_joints = Some segs →
  (∀ j, j ∈ frame_joints → PrimFloat.ltb (conf_threshold dt) (joint_conf j) = false) →
  good_joints_xy dt segs = [].
Proof.
  intros Hsegs Hlow. unfold good_joints_xy.
  rewrite joint_confidence_mask, mask_select_filter.
  rewrite filter_none; [done|].
  apply Forall_forall. intros s Hs.
  destruct (segment_joints_elem _ _ _ Hsegs Hs) as [H1 H2].
  destruct (np_min_endpoint (joint_conf s.1) (joint_conf s.2)) as [-> | ->].
  - rewrite (Hlow _ H1). discriminate.
  - rewrite (Hlow _ H2). discriminate.
Qed.

(** With every array entry in place the skeleton pass completes. *)
Lemma log_skeleton_2d_completes ds w :
  skeleton_ok ds → ∃ w', log_skeleton_2d ds w = (Ok tt, w').
Proof.
  intros Hok. unfold log_skeleton_2d.
  apply for_each_completes. intros it [Hit _]%enumerate_elem_bound w1.
  destruct (Hok it.1 Hit) as (js & Hjs & Hframes).
  unfold bind, index. rewrite Hjs. simpl.
  apply for_each_completes. intros ff [_ Hff]%enumerate_elem_bound w2.
  destruct (Hframes _ _ Hff) as [segs Hsegs].
  unfold log_skeleton_frame, bind. rewrite Hsegs. simpl.
  case_bool_decide; by eexists.
Qed.

Lemma reshape_points_length g : length (reshape_points g) = 2 * length g.
Proof.
  unfold reshape_points. induction g as [|s g IH]; simpl; [done|]. rewrite IH. lia.
Qed.

(** The one skeleton event of a track at a frame, in the spec's words. *)
Lemma skeleton_event_kept ds rows i f segs :
  events_at rows (skeleton_path i) f = [skeleton_component (joints2d_dtype ds) segs] →
  (Forall (fun s => segment_kept (conf_threshold (joints2d_dtype ds)) s = false) segs →
   events_at rows (skeleton_path i) f = [Cleared]) ∧
  (Exists (fun s => segment_kept (conf_threshold (joints2d_dtype ds)) s = true) segs →
   events_at rows (skeleton_path i) f
   = [LineSegments (kept_points (conf_threshold (joints2d_dtype ds)) segs)]).
Proof.
  intros ->. destruct (skeleton_component_kept (joints2d_dtype ds) segs) as [Hc Hl].
  split; intros H; [by rewrite Hc|by rewrite Hl].
Qed.

(** C8 (skeleton emptiness). [log_skeleton_2d] completes exactly when every
    keypoint array it reads has the joints the tables ask for; and when it
    completes, every track [i] and frame [f] has exactly one event at the
    track's skeleton path under key [f]: one clear (and no segment event)
    when no candidate segment has both endpoint confidences above 0.3, and
    otherwise one line-segment event whose points are the two endpoints
    [(x, y)] of every such segment, in the order of the edge table.  A track
    none of whose joints is ever above the threshold gets one clear per
    frame.  0.3 is the constant in the precision of the keypoint array. *)
Theorem skeleton_clear_or_segments ds w :
  let thr := match joints2d_dtype ds with
             | Float16 => 0x1.334p-2
             | Float32 => 0x1.333334p-2
             | Float64 => 0.3
             end%float in
  (skeleton_ok ds ↔ ∃ w', log_skeleton_2d ds w = (Ok tt, w')) ∧
  ∀ w', log_skeleton_2d ds w = (Ok tt, w') →
  ∃ new, rr_rows w' = rr_rows w ++ new ∧
    ∀ i, i < length (track_ids ds) →
      ∃ js, joints2d ds !! i = Some js ∧
        (∀ f fj, js !! f = Some fj →
           ∃ segs, segment_joints fj = Some segs ∧
             (Forall (fun s => segment_kept thr s = false) segs →
                events_at new (skeleton_path i) f = [Cleared]) ∧
             (Exists (fun s => segment_kept thr s = true) segs →
                events_at new (skeleton_path i) f
                = [LineSegments (kept_points thr segs)] ∧
                length (kept_points thr segs)
                = 2 * length (filter (fun s => segment_kept thr s = true) segs))) ∧
        ((∀ f fj x y c, js !! f = Some fj → (x, y, c) ∈ fj →
                        PrimFloat.ltb thr c = false) →
         ∀ f, f < length js → events_at new (skeleton_path i) f = [Cleared]).
Proof.
  intros thr.
  assert (thr = conf_threshold (joints2d_dtype ds)) as Hthr
    by (unfold thr; by destruct (joints2d_dtype ds)).
  clearbody thr. subst thr.
  split.
  { split; [apply log_skeleton_2d_completes|].
    intros [w' H]. by apply log_skeleton_2d_rows in H as [_ Hok]. }
  intros w' H. apply log_skeleton_2d_rows in H as [Hem Hok].
  exists (skeleton_rows ds). split; [apply Hem|].
  intros i Hi. destruct (Hok i Hi) as (js & Hjs & Hfr). exists js. split; [done|].
  assert (∀ f fj, js !! f = Some fj →
            ∃ segs, segment_joints fj = Some segs ∧
              events_at (skeleton_rows ds) (skeleton_path i) f
              = [skeleton_component (joints2d_dtype ds) segs])
    as Hev.
  { intros f fj Hf. destruct (Hfr f fj Hf) as [segs Hsegs]. exists segs.
    split; [done|]. by eapply events_at_skeleton. }
  split.
  - intros f fj Hf. destruct (Hev f fj Hf) as (segs & Hsegs & Hevs).
    exists segs. split; [done|].
    destruct (skeleton_event_kept ds _ i f segs Hevs) as [Hclear Hline].
    split; [exact Hclear|]. intros Hex. split; [by apply Hline|].
    apply kept_points_length.
  - intros Hlow f Hf.
    destruct (lookup_lt_is_Some_2 js f Hf) as [fj Hfj].
    destruct (Hev f fj Hfj) as (segs & Hsegs & Hevs). rewrite Hevs.
    unfold skeleton_component.
    rewrite (good_joints_xy_none _ fj segs Hsegs); [reflexivity|].
    intros [[x y] c] Hj. by eapply Hlow.
Qed.

(** One track over two frames in single precision.  At frame 0 only the raw
    joints 0, 15 and 16 are confident: the edges (1, 2), (0, 1) and (0, 2)
    survive and their six endpoints are logged in that order; at frame 1 no
    joint is confident and the overlay is cleared. *)
Lemma skeleton_clear_or_segments_witness :
  log_skeleton_2d ex_ds_skeleton ex_world
  = (Ok tt, (log_skeleton_2d ex_ds_skeleton ex_world).2) ∧
  ∃ new, rr_rows (log_skeleton_2d ex_ds_skeleton ex_world).2 = new ∧
    events_at new (skeleton_path 0) 0
    = [LineSegments [(16, 160); (15, 150); (0, 0); (16, 160); (0, 0); (15, 150)]%float] ∧
    events_at new (skeleton_path 0) 1 = [Cleared].
Proof.
  assert (log_skeleton_2d ex_ds_skeleton ex_world
          = (Ok tt, (log_skeleton_2d ex_ds_skeleton ex_world).2))
    as Hrun by (vm_compute; reflexivity).
  split; [exact Hrun|].
  destruct (proj2 (skeleton_clear_or_segments ex_ds_skeleton ex_world) _ Hrun)
    as (new & Hrows & Hall).
  exists new. split; [exact Hrows|].
  destruct (Hall 0) as (js & Hjs & Hframes & _); [simpl; lia|].
  change (Some [ex_frame_marked; ex_frame_zero] = Some js) in Hjs.
  inversion Hjs; subst js. split.
  - destruct (Hframes 0 ex_frame_marked eq_refl) as (segs & Hsegs & _ & Hline).
    assert (segs = default [] (segment_joints ex_frame_marked)) as ->.
    { rewrite Hsegs. reflexivity. }
    destruct Hline as [Hev _].
    + apply Exists_exists.
      exists ((16, 160, 0.9), (15, 150, 0.9))%float. split; [|vm_compute; reflexivity].
      apply list_elem_of_lookup. exists 12. vm_compute. reflexivity.
    + rewrite Hev. vm_compute. reflexivity.
  - destruct (Hframes 1 ex_frame_zero eq_refl) as (segs & Hsegs & Hclear & _).
    apply Hclear.
    assert (segs = default [] (segment_joints ex_frame_zero)) as ->.
    { rewrite Hsegs. reflexivity. }
    apply Forall_forall. intros s Hs.
    assert (s = (ex_joint 0, ex_joint 0)%float) as ->.
    { apply list_elem_of_lookup in Hs as [k Hk].
      apply list_elem_of_lookup_2 in Hk.
      change (s ∈ replicate 19 (ex_joint 0, ex_joint 0)%float) in Hk.
      by apply elem_of_replicate in Hk as [-> _]. }
    vm_compute. reflexivity.
Defined.

(** ** The camera pass *)

Lemma log_camera_frame_rows X ds f w w' :
  log_camera_frame X ds f w = (Ok tt, w') →
  emitted w w' (camera_frame_rows X ds f) ∧ is_Some (camera_component X ds f).
Proof.
  intros H. unfold log_camera_frame in H.
  apply bind_ok in H as (t & ? & [Ht ->]%index_ok & H).
  apply bind_ok in H as (R & ? & [HR ->]%index_ok & H).
  apply bind_ok in H as (q & ? & [Hq ->]%lift_ok & H).
  apply bind_ok in H as (k & ? & [Hk ->]%index_ok & H).
  unfold camera_frame_rows, camera_component.
  rewrite Ht. simpl. rewrite HR. simpl. rewrite Hq. simpl. rewrite Hk. simpl.
  destruct k as [[[fx fy] cx] cy]. destruct (img_size ds) as [width height]. simpl.
  apply bind_ok in H as ([] & w1 & [Hem0 Ht1]%emitted_set_time & H).
  apply bind_ok in H as ([] & w2 & [Hem1 Ht2]%emitted_log & H).
  apply emitted_log in H as [Hem2 _]. rewrite Ht2, Ht1 in Hem2. rewrite Ht1 in Hem1.
  split; [|eauto].
  apply (emitted_trans _ _ _ [] _ Hem0). apply (emitted_trans _ _ _ [_] [_] Hem1 Hem2).
Qed.

Lemma log_camera_rows X ds w w' :
  log_camera X ds w = (Ok tt, w') →
  emitted w w' (camera_rows X ds) ∧ camera_ok X ds.
Proof.
  intros H. unfold log_camera in H.
  apply (for_each_emitted _ (camera_frame_rows X ds)
           (fun f => is_Some (camera_component X ds f)) (fun _ => True))
    in H as (Hem & Hall & _); [|done|].
  - split; [done|]. intros f Hf. rewrite Forall_forall in Hall.
    apply Hall. apply elem_of_seq. lia.
  - intros f wa wb _ Hb. apply log_camera_frame_rows in Hb. tauto.
Qed.

Lemma camera_frame_rows_time X ds f :
  Forall (fun r => row_time r = Some f) (camera_frame_rows X ds f).
Proof.
  unfold camera_frame_rows. destruct (camera_component X ds f) as [[pin pose]|];
    repeat constructor.
Qed.

Lemma events_at_camera X ds f pin pose :
  f < seq_len ds → camera_component X ds f = Some (pin, pose) →
  events_at (camera_rows X ds) "world/camera" f = [pose].
Proof.
  intros Hf Hc. unfold camera_rows, range.
  rewrite (events_at_flat_map_seq _ _ _ 0 _ f); [|lia|].
  - unfold camera_frame_rows. rewrite Hc.
    rewrite events_at_cons_miss by (simpl; intros [? _]; discriminate).
    by rewrite events_at_cons_hit.
  - intros j Hj. eapply events_at_other_time; [apply camera_frame_rows_time|done].
Qed.

(** A phase result with the entries at leading index 0 of its camera arrays replaced. *)
Lemma phase_frame_ignores_index_zero X ds phase res t0 R0 vertices faces f w :
  log_phase_frame X ds phase
    (PhaseResult (trans res) (root_orient res) (pose_body res) (betas res)
                 (<[0%nat := t0]> (res_cam_t res)) (<[0%nat := R0]> (res_cam_R res)))
    vertices faces f w
  = log_phase_frame X ds phase res vertices faces f w.
Proof.
  unfold log_phase_frame, index. simpl.
  by rewrite !list_lookup_insert_ne by lia.
Qed.

(** C10 (phase camera index). For every frame [f] of a completed phase pass
    the one camera pose logged under key [f] is built from
    [cam_t[1, f]] and [cam_R[1, f]] of the phase result, whereas the
    defining-camera logger reads [cam_t[f]] and [cam_R[f]]; the entries at
    leading index 0 of the phase result's camera arrays are never read:
    replacing them changes nothing of what [log_phase_result] does. *)
Theorem phase_camera_leading_index_one X cfg ds dev phase res w w' :
  log_phase_result X cfg ds dev phase res w = (Ok tt, w') →
  (∃ new, rr_rows w' = rr_rows w ++ new ∧
     ∀ f, f < seq_len ds →
       ∃ t R q, res_cam_t res !! 1%nat ≫= (.!! f) = Some t ∧
                res_cam_R res !! 1%nat ≫= (.!! f) = Some R ∧
                rotation_as_quat X R = Ok q ∧
                events_at new "world/camera" f = [Rigid3 t q "RDF"]) ∧
  (∀ t0 R0 w0,
     log_phase_result X cfg ds dev phase
       (PhaseResult (trans res) (root_orient res) (pose_body res) (betas res)
                    (<[0%nat := t0]> (res_cam_t res)) (<[0%nat := R0]> (res_cam_R res))) w0
     = log_phase_result X cfg ds dev phase res w0) ∧
  (∀ v v', log_camera X ds v = (Ok tt, v') →
     ∃ new, rr_rows v' = rr_rows v ++ new ∧
       ∀ f, f < seq_len ds →
         ∃ t R q, cam_t (get_camera_data ds) !! f = Some t ∧
                  cam_R (get_camera_data ds) !! f = Some R ∧
                  rotation_as_quat X R = Ok q ∧
                  events_at new "world/camera" f = [Rigid3 t q "RDF"]).
Proof.
  intros H. split; [|split].
  - apply log_phase_result_rows in H as [Hem (out & Hs & Hok)].
    exists (phase_rows X cfg ds phase res). split; [apply Hem|].
    intros f Hf. destruct (Hok f Hf) as [[c Hc] _].
    unfold phase_rows, range. rewrite Hs.
    rewrite (events_at_phase_camera X ds phase res out _ f c Hf Hc).
    unfold phase_camera_component in Hc.
    destruct (res_cam_t res !! 1%nat) as [t1|]; [|done]. simpl in Hc |- *.
    destruct (t1 !! f) as [t|]; [|done]. simpl in Hc.
    destruct (res_cam_R res !! 1%nat) as [R1|]; [|done]. simpl in Hc |- *.
    destruct (R1 !! f) as [R|]; [|done]. simpl in Hc.
    destruct (rotation_as_quat X R) as [q|e] eqn:Hq; [|done]. simpl in Hc.
    exists t, R, q. repeat split; congruence.
  - intros t0 R0 w0. unfold log_phase_result, bind, lift. simpl.
    destruct (load_smpl_body_model X _ _) as [bm|e]; [|done].
    destruct (run_smpl X bm _ _ _ _) as [out|e]; [|done].
    apply for_each_ext. intros f w1. apply phase_frame_ignores_index_zero.
  - intros v v' Hcam. apply log_camera_rows in Hcam as [Hem Hok].
    exists (camera_rows X ds). split; [apply Hem|].
    intros f Hf. destruct (Hok f Hf) as [[pin pose] Hc].
    rewrite (events_at_camera X ds f pin pose Hf Hc).
    unfold camera_component in Hc.
    destruct (cam_t (get_camera_data ds) !! f) as [t|]; [|done]. simpl in Hc.
    destruct (cam_R (get_camera_data ds) !! f) as [R|]; [|done]. simpl in Hc.
    destruct (rotation_as_quat X R) as [q|e] eqn:Hq; [|done]. simpl in Hc.
    destruct (intrins (get_camera_data ds) !! f) as [[[[fx fy] cx] cy]|]; [|done].
    simpl in Hc. exists t, R, q. repeat split; congruence.
Qed.

(** On the end-to-end scenario the pose of frame 2 is the entry [1, 2]. *)
Lemma phase_camera_leading_index_one_witness :
  log_phase_result ex_X ex_cfg ex_ds (PyInt 0) "motion_chunks" ex_res ex_world
  = (Ok tt, (log_phase_result ex_X ex_cfg ex_ds (PyInt 0) "motion_chunks" ex_res
                              ex_world).2) ∧
  ∃ new, rr_rows (log_phase_result ex_X ex_cfg ex_ds (PyInt 0) "motion_chunks" ex_res
                                   ex_world).2 = new ∧
         events_at new "world/camera" 2 = [Rigid3 [22%float] [22%float] "RDF"].
Proof.
  assert (log_phase_result ex_X ex_cfg ex_ds (PyInt 0) "motion_chunks" ex_res ex_world
          = (Ok tt, (log_phase_result ex_X ex_cfg ex_ds (PyInt 0) "motion_chunks" ex_res
                                      ex_world).2)) as Hrun
    by (vm_compute; reflexivity).
  split; [exact Hrun|].
  destruct (phase_camera_leading_index_one _ _ _ _ _ _ _ _ Hrun)
    as ((new & Hrows & Hall) & _ & _).
  exists new. split; [exact Hrows|].
  destruct (Hall 2) as (t & R & q & Ht & HR & Hq & Hev); [simpl; lia|].
  vm_compute in Ht, HR. inversion Ht; inversion HR; subst t R.
  vm_compute in Hq. inversion Hq; subst q. exact Hev.
Defined.

(** ** The whole run *)

Lemma log_input_frames_rows ds w w' :
  log_input_frames ds w = (Ok tt, w') → emitted w w' (input_rows ds).
Proof.
  intros H. unfold log_input_frames in H.
  apply (for_each_emitted _
           (fun fp => [Row (Some fp.1) "world/camera/image" (ImageFile fp.2)])
           (fun _ => True) (fun _ => True)) in H as (Hem & _ & _); [done|done|].
  intros fp wa wb _ Hb.
  apply bind_ok in Hb as ([] & w1 & [Hem0 Ht]%emitted_set_time & Hb).
  apply emitted_log in Hb as [Hem1 _]. rewrite Ht in Hem1.
  split; [|done]. apply (emitted_trans _ _ _ [] _ Hem0 Hem1).
Qed.

(** The phase loop's body is the spec's resolver followed by the phase pass. *)
Lemma log_phase_resolve X cfg ds log_dir dev phase w :
  log_phase X cfg ds log_dir dev phase w
  = match resolve_phase X ds log_dir phase with
    | Ok (Some res) => log_phase_result X cfg ds dev phase res w
    | Ok None => print (path_join log_dir phase +:+ " does not exist, skipping") w
    | Raise e => (Raise e, w)
    end.
Proof.
  unfold log_phase, resolve_phase. case_bool_decide; [done|].
  destruct (isdir X (path_join log_dir phase)); [|done].
  unfold bind, latest_iteration, getitem, lift, ret, raise.
  destruct (last (py_sorted (dict_keys (get_results_paths X (path_join log_dir phase)))))
    as [it|]; [|done].
  destruct (get_results_paths X (path_join log_dir phase) !! it) as [p|]; [|done].
  destruct (load_result X p) as [loaded|e]; [|done].
  destruct (loaded !! "world") as [res|]; done.
Qed.

Lemma log_phase_rows X cfg ds log_dir dev phase w w' :
  log_phase X cfg ds log_dir dev phase w = (Ok tt, w') →
  emitted w w' (phase_pass_rows X cfg ds log_dir phase) ∧
  ∀ res, resolve_phase X ds log_dir phase = Ok (Some res) → phase_ok X cfg ds res.
Proof.
  rewrite log_phase_resolve. unfold phase_pass_rows.
  destruct (resolve_phase X ds log_dir phase) as [[res|]|e]; intros H.
  - apply log_phase_result_rows in H as [Hem Hok]. split; [done|].
    intros res' Hres. by inversion Hres; subst.
  - unfold print in H. inv_pair. split; [|done].
    unfold emitted. simpl. rewrite app_nil_r. tauto.
  - discriminate.
Qed.

Lemma log_to_rerun_rows X cfg ds log_dir dev phases opts w w' :
  log_to_rerun X cfg ds log_dir dev phases opts w = (Ok tt, w') →
  rr_rows w'
  = view_row :: input_rows ds ++ skeleton_rows ds ++ camera_rows X ds
      ++ flat_map (phase_pass_rows X cfg ds log_dir) phases ∧
  skeleton_ok ds ∧ camera_ok X ds ∧
  Forall (fun p => ∀ res, resolve_phase X ds log_dir p = Ok (Some res) →
                          phase_ok X cfg ds res) phases.
Proof.
  intros H. unfold log_to_rerun in H.
  apply bind_ok in H as ([] & w1 & Hinit & H).
  apply bind_ok in H as ([] & w2 & Hview & H).
  apply bind_ok in H as ([] & w3 & Hin%log_input_frames_rows & H).
  apply bind_ok in H as ([] & w4 & [Hsk Hsk_ok]%log_skeleton_2d_rows & H).
  apply bind_ok in H as ([] & w5 & [Hcam Hcam_ok]%log_camera_rows & H).
  apply (for_each_emitted _ (phase_pass_rows X cfg ds log_dir)
           (fun p => ∀ res, resolve_phase X ds log_dir p = Ok (Some res) →
                            phase_ok X cfg ds res) (fun _ => True))
    in H as (Hph & Hph_ok & _); [|done|].
  - repeat split; try done.
    unfold rr_init in Hinit. unfold rr_log_timeless, push_row in Hview. inv_pair.
    destruct Hin as [Hin _], Hsk as [Hsk _], Hcam as [Hcam _], Hph as [Hph _].
    rewrite Hph, Hcam, Hsk, Hin. simpl. unfold view_row.
    by rewrite <- !app_assoc.
  - intros p wa wb _ Hb. apply log_phase_rows in Hb. tauto.
Qed.

(** ** Order of the rows within a pass *)

Lemma keys_ascending_weaken prev prev' rows :
  prev' ≤ prev → keys_ascending prev rows = true → keys_ascending prev' rows = true.
Proof.
  revert prev prev'. induction rows as [|r rows IH]; intros prev prev' Hle; simpl; [done|].
  destruct (row_time r) as [t|]; [|by apply IH].
  rewrite !andb_true_iff, !bool_decide_eq_true. intros [? ?]. split; [lia|done].
Qed.

Lemma keys_ascending_block prev f a b :
  Forall (fun r => row_time r = Some f) a → prev ≤ f →
  keys_ascending f b = true → keys_ascending prev (a ++ b) = true.
Proof.
  intros Ha. revert prev. induction Ha as [|r a Hr _ IH]; intros prev Hle Hb; simpl.
  - by eapply keys_ascending_weaken.
  - rewrite Hr. rewrite andb_true_iff, bool_decide_eq_true. split; [done|].
    by apply IH.
Qed.

Lemma keys_ascending_flat_map_seq (g : nat → list row) prev s n :
  (∀ f, Forall (fun r => row_time r = Some f) (g f)) → prev ≤ s →
  keys_ascending prev (flat_map g (seq s n)) = true.
Proof.
  intros Hg. revert prev s. induction n as [|n IH]; intros prev s Hle; simpl; [done|].
  apply (keys_ascending_block prev s); [apply Hg|done|].
  apply IH. lia.
Qed.

Lemma keys_ascending_flat_map_enumerate {A} (g : nat → A → list row) prev s (l : list A) :
  (∀ f x, Forall (fun r => row_time r = Some f) (g f x)) → prev ≤ s →
  keys_ascending prev (flat_map (fun ff => g ff.1 ff.2) (enumerate_from s l)) = true.
Proof.
  intros Hg. revert prev s. induction l as [|x l IH]; intros prev s Hle; simpl; [done|].
  apply (keys_ascending_block prev s); [apply Hg|done|].
  apply IH. lia.
Qed.

Lemma pose_before_geometry_b_sound rows :
  pose_before_geometry_b rows = true → pose_before_geometry rows.
Proof.
  unfold pose_before_geometry.
  induction rows as [|r rows IH]; intros Hb i j ri rj f Hi Hj Hti Htj Hpose Hgeo.
  - done.
  - simpl in Hb. apply andb_true_iff in Hb as [Hhere Hrest].
    destruct j as [|j]; simpl in Hj.
    + inversion Hj; subst rj. rewrite Hgeo in Hhere. simpl in Hhere.
      destruct i as [|i]; simpl in Hi.
      * inversion Hi; subst ri. unfold camera_pose_row, geometry_row in *.
        destruct (row_data r); discriminate.
      * rewrite forallb_forall in Hhere.
        assert (In ri rows) as Hin.
        { apply list_elem_of_In, list_elem_of_lookup. eauto. }
        specialize (Hhere ri Hin). unfold same_key_pose in Hhere.
        rewrite Hpose, Htj, bool_decide_true in Hhere by done. discriminate.
    + destruct i as [|i]; [lia|]. simpl in Hi.
      specialize (IH Hrest i j ri rj f Hi Hj Hti Htj Hpose Hgeo). lia.
Qed.

Lemma pose_before_geometry_b_app a b :
  pose_before_geometry_b a = true → pose_before_geometry_b b = true →
  (∀ g r, g ∈ a → geometry_row g = true → r ∈ b →
          same_key_pose (row_time g) r = false) →
  pose_before_geometry_b (a ++ b) = true.
Proof.
  intros Ha Hb Hcross. induction a as [|g a IH]; simpl; [done|].
  simpl in Ha. apply andb_true_iff in Ha as [Hhere Hrest].
  apply andb_true_iff. split.
  - destruct (geometry_row g) eqn:Hgeo; [|done]. simpl in Hhere |- *.
    rewrite forallb_app, Hhere. simpl.
    apply forallb_forall. intros r Hr%list_elem_of_In.
    rewrite (Hcross g r); [done| |done|done]. apply list_elem_of_here.
  - apply IH; [done|]. intros g' r Hg' Hgeo Hr. apply Hcross; [|done|done].
    by apply list_elem_of_further.
Qed.

Lemma pose_before_geometry_b_no_geometry rows :
  Forall (fun r => geometry_row r = false) rows → pose_before_geometry_b rows = true.
Proof.
  induction 1 as [|r rows Hr _ IH]; simpl; [done|]. by rewrite Hr, IH.
Qed.

Lemma pose_before_geometry_b_no_pose rows :
  Forall (fun r => camera_pose_row r = false) rows → pose_before_geometry_b rows = true.
Proof.
  induction 1 as [|r rows Hr Hrows IH]; simpl; [done|]. rewrite IH, andb_true_r.
  apply orb_true_iff. right. apply forallb_forall. intros r' Hr'%list_elem_of_In.
  rewrite Forall_forall in Hrows. unfold same_key_pose. by rewrite (Hrows r' Hr').
Qed.

Lemma elem_of_flat_map_seq (g : nat → list row) s n r :
  r ∈ flat_map g (seq s n) → ∃ f, s ≤ f < s + n ∧ r ∈ g f.
Proof.
  intros Hr%list_elem_of_In%in_flat_map. destruct Hr as (f & Hf%in_seq & Hr).
  exists f. split; [lia|]. by apply list_elem_of_In.
Qed.

Lemma pose_before_geometry_b_flat_map_seq (g : nat → list row) s n :
  (∀ f, Forall (fun r => row_time r = Some f) (g f)) →
  (∀ f, pose_before_geometry_b (g f) = true) →
  pose_before_geometry_b (flat_map g (seq s n)) = true.
Proof.
  intros Htime Hg. revert s. induction n as [|n IH]; intros s; simpl; [done|].
  apply pose_before_geometry_b_app; [apply Hg|apply IH|].
  intros r0 r Hr0 _ Hr. apply elem_of_flat_map_seq in Hr as (f & Hf & Hr).
  pose proof (Htime s) as Hs. pose proof (Htime f) as Hf'.
  rewrite Forall_forall in Hs, Hf'. unfold same_key_pose.
  rewrite (Hs r0 Hr0), (Hf' r Hr). rewrite bool_decide_false; [apply andb_false_r|].
  intros Heq. inversion Heq. lia.
Qed.

Lemma phase_track_rows_geometry X ds phase out f it :
  Forall (fun r => camera_pose_row r = false ∧ geometry_row r = true)
         (phase_track_rows X ds phase out f it).
Proof.
  unfold phase_track_rows, phase_track_component.
  destruct (vis_mask ds !! it) as [vis_i|]; [|constructor]. simpl.
  destruct (vis_i !! f) as [code|]; [|constructor]. simpl.
  case_bool_decide; [|repeat constructor].
  destruct (smpl_vertices out !! it) as [verts_i|]; [|constructor]. simpl.
  destruct (verts_i !! f); repeat constructor.
Qed.

Lemma phase_frame_rows_order X ds phase res out f :
  pose_before_geometry_b (phase_frame_rows X ds phase res out f) = true.
Proof.
  unfold phase_frame_rows, phase_camera_component.
  destruct (res_cam_t res !! 1%nat) as [t1|]; [|done]. simpl.
  destruct (t1 !! f) as [t|]; [|done]. simpl.
  destruct (res_cam_R res !! 1%nat) as [R1|]; [|done]. simpl.
  destruct (R1 !! f) as [R|]; [|done]. simpl.
  destruct (rotation_as_quat X R) as [q|e]; [|done]. simpl.
  apply pose_before_geometry_b_no_pose. apply Forall_flat_map_rows. intros it.
  eapply Forall_impl; [apply phase_track_rows_geometry|]. simpl. tauto.
Qed.

Lemma phase_rows_keys X cfg ds phase res :
  keys_ascending 0 (phase_rows X cfg ds phase res) = true.
Proof.
  unfold phase_rows. destruct (smpl_result X cfg ds res); [|done].
  apply keys_ascending_flat_map_seq; [|lia]. intros f. apply phase_frame_rows_time.
Qed.

Lemma phase_rows_order X cfg ds phase res :
  pose_before_geometry_b (phase_rows X cfg ds phase res) = true.
Proof.
  unfold phase_rows. destruct (smpl_result X cfg ds res); [|done].
  apply pose_before_geometry_b_flat_map_seq.
  - intros f. apply phase_frame_rows_time.
  - intros f. apply phase_frame_rows_order.
Qed.

Lemma camera_rows_no_geometry X ds :
  Forall (fun r => geometry_row r = false) (camera_rows X ds).
Proof.
  unfold camera_rows. apply Forall_flat_map_rows. intros f.
  unfold camera_frame_rows, camera_component.
  destruct (cam_t (get_camera_data ds) !! f); [|constructor]. simpl.
  destruct (cam_R (get_camera_data ds) !! f); [|constructor]. simpl.
  destruct (rotation_as_quat X _) as [q|e]; [|constructor]. simpl.
  destruct (intrins (get_camera_data ds) !! f) as [[[[fx fy] cx] cy]|]; [|constructor].
  simpl. repeat constructor.
Qed.

(** C4, as the code has it (ordering within passes). A completed run's
    recording is the view row, then the input-frame pass, then one skeleton
    pass per track, then the defining-camera pass, then one pass per
    requested phase.  Within each of these passes the timeline keys never
    decrease; within a phase pass, and from the defining-camera pass to a
    phase pass, every camera pose row of a key stands before every mesh or
    clear row of that key. *)
Theorem logging_order_within_passes X cfg ds log_dir dev phases opts w w' :
  log_to_rerun X cfg ds log_dir dev phases opts w = (Ok tt, w') →
  rr_rows w'
  = view_row :: input_rows ds ++ skeleton_rows ds ++ camera_rows X ds
      ++ flat_map (phase_pass_rows X cfg ds log_dir) phases ∧
  skeleton_rows ds
  = flat_map (fun it => skeleton_track_rows ds it.1) (enumerate (track_ids ds)) ∧
  keys_ascending 0 (input_rows ds) = true ∧
  (∀ i, keys_ascending 0 (skeleton_track_rows ds i) = true) ∧
  keys_ascending 0 (camera_rows X ds) = true ∧
  (∀ p, keys_ascending 0 (phase_pass_rows X cfg ds log_dir p) = true ∧
        pose_before_geometry (phase_pass_rows X cfg ds log_dir p) ∧
        pose_before_geometry (camera_rows X ds ++ phase_pass_rows X cfg ds log_dir p)).
Proof.
  intros H. apply log_to_rerun_rows in H as (Hrows & _).
  split; [done|]. split; [done|]. split; [|split; [|split]].
  - unfold input_rows, enumerate.
    apply (keys_ascending_flat_map_enumerate
             (fun f p => [Row (Some f) "world/camera/image" (ImageFile p)])); [|lia].
    intros f x. repeat constructor.
  - intros i. unfold skeleton_track_rows. destruct (joints2d ds !! i); [|done].
    unfold enumerate.
    apply (keys_ascending_flat_map_enumerate
             (skeleton_frame_rows (joints2d_dtype ds) i)); [|lia].
    intros f x. eapply Forall_impl; [apply skeleton_frame_rows_stamp|]. simpl. tauto.
  - unfold camera_rows. apply keys_ascending_flat_map_seq; [|lia].
    intros f. apply camera_frame_rows_time.
  - intros p.
    assert (pose_before_geometry_b (phase_pass_rows X cfg ds log_dir p) = true) as Hp.
    { unfold phase_pass_rows.
      destruct (resolve_phase X ds log_dir p) as [[res|]|e]; try done.
      apply phase_rows_order. }
    split; [|split].
    + unfold phase_pass_rows.
      destruct (resolve_phase X ds log_dir p) as [[res|]|e]; try done.
      apply phase_rows_keys.
    + by apply pose_before_geometry_b_sound.
    + apply pose_before_geometry_b_sound. apply pose_before_geometry_b_app; [|done|].
      * apply pose_before_geometry_b_no_geometry, camera_rows_no_geometry.
      * intros g r Hg Hgeo _. pose proof (camera_rows_no_geometry X ds) as Hno.
        rewrite Forall_forall in Hno. rewrite (Hno g Hg) in Hgeo. discriminate.
Qed.

(** On the end-to-end scenario with the one phase ["motion_chunks"]. *)
Lemma logging_order_within_passes_witness :
  log_to_rerun ex_X ex_cfg ex_ds "logs/a" (PyInt 0) ["motion_chunks"] ex_opts ex_world
  = (Ok tt, (log_to_rerun ex_X ex_cfg ex_ds "logs/a" (PyInt 0) ["motion_chunks"] ex_opts
                          ex_world).2) ∧
  length (rr_rows (log_to_rerun ex_X ex_cfg ex_ds "logs/a" (PyInt 0) ["motion_chunks"]
                                ex_opts ex_world).2) = 25 ∧
  pose_before_geometry (phase_pass_rows ex_X ex_cfg ex_ds "logs/a" "motion_chunks").
Proof.
  assert (log_to_rerun ex_X ex_cfg ex_ds "logs/a" (PyInt 0) ["motion_chunks"] ex_opts
                       ex_world
          = (Ok tt, (log_to_rerun ex_X ex_cfg ex_ds "logs/a" (PyInt 0) ["motion_chunks"]
                                  ex_opts ex_world).2)) as Hrun
    by (vm_compute; reflexivity).
  split; [exact Hrun|].
  destruct (logging_order_within_passes _ _ _ _ _ _ _ _ _ Hrun)
    as (Hrows & _ & _ & _ & _ & Hphase).
  split.
  - rewrite Hrows. vm_compute. reflexivity.
  - apply (Hphase "motion_chunks").
Defined.

(** C4, as the spec words it, fails on the end-to-end scenario: the keys
    restart with every pass, and the skeleton rows of key 0 stand before the
    camera pose rows of key 0. *)
Lemma logging_order_counterexample :
  (log_to_rerun ex_X ex_cfg ex_ds "logs/a" (PyInt 0) ["motion_chunks"] ex_opts ex_world).1
  = Ok tt ∧
  ¬ logging_order
      (rr_rows (log_to_rerun ex_X ex_cfg ex_ds "logs/a" (PyInt 0) ["motion_chunks"]
                             ex_opts ex_world).2) ∧
  keys_ascending 0
      (rr_rows (log_to_rerun ex_X ex_cfg ex_ds "logs/a" (PyInt 0) ["motion_chunks"]
                             ex_opts ex_world).2) = false ∧
  ¬ pose_before_geometry
      (rr_rows (log_to_rerun ex_X ex_cfg ex_ds "logs/a" (PyInt 0) ["motion_chunks"]
                             ex_opts ex_world).2).
Proof.
  remember (rr_rows (log_to_rerun ex_X ex_cfg ex_ds "logs/a" (PyInt 0) ["motion_chunks"]
                                  ex_opts ex_world).2) as rows eqn:Hrows.
  assert (keys_ascending 0 rows = false) as Hkeys
    by (subst rows; vm_compute; reflexivity).
  assert (¬ pose_before_geometry rows) as Hpose.
  { intros Hp.
    assert (rows !! 11%nat
            = Some (Row (Some 0%nat) "world/camera"
                        (Rigid3 [0%float; 0%float; 0%float] [1%float] "RDF"))) as Hcam
      by (subst rows; vm_compute; reflexivity).
    assert (rows !! 7%nat
            = Some (Row (Some 0%nat) (skeleton_path 1) Cleared)) as Hskel
      by (subst rows; vm_compute; reflexivity).
    specialize (Hp 11%nat 7%nat _ _ 0%nat Hcam Hskel eq_refl eq_refl eq_refl eq_refl).
    lia. }
  split; [vm_compute; reflexivity|]. split; [|split; [exact Hkeys|exact Hpose]].
  intros [Hk _]. rewrite Hkeys in Hk. discriminate Hk.
Qed.

(** ** The camera entity *)

Lemma input_rows_no_pose ds : Forall (fun r => camera_pose_row r = false) (input_rows ds).
Proof.
  unfold input_rows. apply Forall_flat_map_rows. intros fp. repeat constructor.
Qed.

Lemma skeleton_rows_no_pose ds :
  Forall (fun r => camera_pose_row r = false) (skeleton_rows ds).
Proof.
  unfold skeleton_rows. apply Forall_flat_map_rows. intros it.
  unfold skeleton_track_rows. destruct (joints2d ds !! it.1); [|constructor].
  apply Forall_flat_map_rows. intros ff. unfold skeleton_frame_rows.
  destruct (segment_joints ff.2) as [segs|]; [|constructor].
  repeat constructor. unfold camera_pose_row, skeleton_component. simpl.
  by case_bool_decide.
Qed.

Lemma camera_rows_pose_path X ds :
  Forall (fun r => camera_pose_row r = true → row_path r = "world/camera")
         (camera_rows X ds).
Proof.
  unfold camera_rows. apply Forall_flat_map_rows. intros f.
  unfold camera_frame_rows, camera_component.
  destruct (cam_t (get_camera_data ds) !! f); [|constructor]. simpl.
  destruct (cam_R (get_camera_data ds) !! f); [|constructor]. simpl.
  destruct (rotation_as_quat X _) as [q|e]; [|constructor]. simpl.
  destruct (intrins (get_camera_data ds) !! f) as [[[[fx fy] cx] cy]|]; [|constructor].
  simpl. repeat constructor; simpl; done.
Qed.

Lemma phase_pass_rows_pose_path X cfg ds log_dir p :
  Forall (fun r => camera_pose_row r = true → row_path r = "world/camera")
         (phase_pass_rows X cfg ds log_dir p).
Proof.
  unfold phase_pass_rows. destruct (resolve_phase X ds log_dir p) as [[res|]|e];
    try constructor.
  unfold phase_rows. destruct (smpl_result X cfg ds res) as [out|e]; [|constructor].
  apply Forall_flat_map_rows. intros f. unfold phase_frame_rows.
  destruct (phase_camera_component X res f); [|constructor].
  constructor; [done|]. apply Forall_flat_map_rows. intros it.
  eapply Forall_impl; [apply phase_track_rows_geometry|]. simpl.
  intros r [Hr _] Hpose. congruence.
Qed.

Lemma flat_map_skipped X cfg ds log_dir l :
  Forall (fun q => resolve_phase X ds log_dir q = Ok None) l →
  flat_map (phase_pass_rows X cfg ds log_dir) l = [].
Proof.
  induction 1 as [|q l Hq _ IH]; simpl; [done|].
  unfold phase_pass_rows at 1. by rewrite Hq, IH.
Qed.

(** C5 (shared camera path). In the recording of a completed run every
    camera rigid-transform row, whether of the defining camera or of a phase,
    has the entity path ["world/camera"]; and when [p] is the last phase that
    was processed (the phases after it were skipped), the pose shown at
    ["world/camera"] for every frame is the one of [p]'s result. *)
Theorem camera_path_shared X cfg ds log_dir dev l1 p l2 res opts w w' :
  log_to_rerun X cfg ds log_dir dev (l1 ++ p :: l2) opts w = (Ok tt, w') →
  resolve_phase X ds log_dir p = Ok (Some res) →
  Forall (fun q => resolve_phase X ds log_dir q = Ok None) l2 →
  (∀ r, r ∈ rr_rows w' → camera_pose_row r = true → row_path r = "world/camera") ∧
  (∀ f, f < seq_len ds →
     ∃ t R q, res_cam_t res !! 1%nat ≫= (.!! f) = Some t ∧
              res_cam_R res !! 1%nat ≫= (.!! f) = Some R ∧
              rotation_as_quat X R = Ok q ∧
              latest_at (rr_rows w') "world/camera" f = Some (Rigid3 t q "RDF")).
Proof.
  intros H Hres Hskip. apply log_to_rerun_rows in H as (Hrows & _ & _ & Hok).
  split.
  - rewrite Hrows.
    apply (proj1 (Forall_forall
                    (fun r => camera_pose_row r = true → row_path r = "world/camera") _)).
    constructor; [done|].
    repeat apply Forall_app_2.
    + eapply Forall_impl; [apply input_rows_no_pose|]. simpl. congruence.
    + eapply Forall_impl; [apply skeleton_rows_no_pose|]. simpl. congruence.
    + apply camera_rows_pose_path.
    + apply Forall_flat_map_rows. intros q. apply phase_pass_rows_pose_path.
  - intros f Hf.
    rewrite Forall_forall in Hok.
    assert (p ∈ l1 ++ p :: l2) as Hin
      by (apply elem_of_app; right; apply list_elem_of_here).
    destruct (Hok p Hin res Hres) as (out & Hs & Hframes).
    destruct (Hframes f Hf) as [[c Hc] _].
    assert (events_at (phase_pass_rows X cfg ds log_dir p) "world/camera" f = [c]) as Hev.
    { unfold phase_pass_rows, phase_rows, range. rewrite Hres, Hs.
      by apply events_at_phase_camera. }
    assert (latest_at (rr_rows w') "world/camera" f = Some c) as Hlast.
    { unfold latest_at. rewrite Hrows, flat_map_app. simpl.
      rewrite (flat_map_skipped _ _ _ _ _ Hskip), app_nil_r.
      rewrite !app_comm_cons, !app_assoc, events_at_app, Hev.
      apply last_snoc. }
    rewrite Hlast. unfold phase_camera_component in Hc.
    destruct (res_cam_t res !! 1%nat) as [t1|]; [|done]. simpl in Hc |- *.
    destruct (t1 !! f) as [t|]; [|done]. simpl in Hc.
    destruct (res_cam_R res !! 1%nat) as [R1|]; [|done]. simpl in Hc |- *.
    destruct (R1 !! f) as [R|]; [|done]. simpl in Hc.
    destruct (rotation_as_quat X R) as [q|e] eqn:Hq; [|done]. simpl in Hc.
    exists t, R, q. repeat split; congruence.
Qed.

(** Phases ["input"], ["motion_chunks"] and a missing one: the pose shown at
    frame 1 is the one of ["motion_chunks"]. *)
Lemma camera_path_shared_witness :
  log_to_rerun ex_X ex_cfg ex_ds "logs/a" (PyInt 0)
               (["input"] ++ "motion_chunks" :: ["nope"]) ex_opts ex_world
  = (Ok tt, (log_to_rerun ex_X ex_cfg ex_ds "logs/a" (PyInt 0)
                          (["input"] ++ "motion_chunks" :: ["nope"]) ex_opts ex_world).2) ∧
  resolve_phase ex_X ex_ds "logs/a" "motion_chunks" = Ok (Some ex_res) ∧
  Forall (fun q => resolve_phase ex_X ex_ds "logs/a" q = Ok None) ["nope"] ∧
  latest_at (rr_rows (log_to_rerun ex_X ex_cfg ex_ds "logs/a" (PyInt 0)
                                   (["input"] ++ "motion_chunks" :: ["nope"]) ex_opts
                                   ex_world).2) "world/camera" 1
  = Some (Rigid3 [21%float] [21%float] "RDF").
Proof.
  assert (log_to_rerun ex_X ex_cfg ex_ds "logs/a" (PyInt 0)
                       (["input"] ++ "motion_chunks" :: ["nope"]) ex_opts ex_world
          = (Ok tt, (log_to_rerun ex_X ex_cfg ex_ds "logs/a" (PyInt 0)
                                  (["input"] ++ "motion_chunks" :: ["nope"]) ex_opts
                                  ex_world).2)) as Hrun
    by (vm_compute; reflexivity).
  assert (resolve_phase ex_X ex_ds "logs/a" "motion_chunks" = Ok (Some ex_res)) as Hres
    by (vm_compute; reflexivity).
  assert (Forall (fun q => resolve_phase ex_X ex_ds "logs/a" q = Ok None) ["nope"]) as Hskip
    by (repeat constructor).
  split; [exact Hrun|]. split; [exact Hres|]. split; [exact Hskip|].
  destruct (camera_path_shared _ _ _ _ _ _ _ _ _ _ _ _ Hrun Hres Hskip) as [_ Hlast].
  destruct (Hlast 1) as (t & R & q & Ht & HR & Hq & Hl); [simpl; lia|].
  vm_compute in Ht, HR. inversion Ht; inversion HR; subst t R.
  vm_compute in Hq. inversion Hq; subst q. exact Hl.
Defined.

(** ** The phase resolver *)

Lemma dict_keys_elem {V} (d : gmap string V) k : k ∈ dict_keys d ↔ is_Some (d !! k).
Proof.
  unfold dict_keys. rewrite list_elem_of_fmap. split.
  - intros ([k' v] & -> & Hkv%elem_of_map_to_list). eauto.
  - intros [v Hv]. exists (k, v). split; [done|]. by apply elem_of_map_to_list.
Qed.

(** The last entry of [sorted(keys)] is a key, and no key is above it. *)
Lemma py_sorted_last keys :
  keys ≠ [] →
  ∃ it, last (py_sorted keys) = Some it ∧ it ∈ keys ∧ ∀ k, k ∈ keys → String.le k it.
Proof.
  intros Hne. unfold py_sorted.
  pose proof (StronglySorted_merge_sort String.le keys) as Hsorted.
  pose proof (merge_sort_Permutation String.le keys) as Hperm.
  destruct (last (merge_sort String.le keys)) as [it|] eqn:Hlast.
  - exists it. split; [done|].
    apply last_Some in Hlast as [l' Hl']. rewrite Hl' in Hsorted, Hperm.
    split.
    + rewrite <- Hperm. apply elem_of_app. right. apply list_elem_of_here.
    + intros k Hk. rewrite <- Hperm in Hk.
      apply elem_of_app in Hk as [Hk|Hk%list_elem_of_singleton].
      * eapply StronglySorted_app_1_elem_of; [exact Hsorted|exact Hk|].
        apply list_elem_of_here.
      * by subst k.
  - apply last_None in Hlast. rewrite Hlast in Hperm.
    symmetry in Hperm. by apply Permutation_nil_r in Hperm.
Qed.

(** C3, as the code has it (phase resolution). For a phase other than
    ["input"] whose directory exists and holds at least one iteration, the
    resolver takes the keys of the snapshot dictionary, selects the one no
    key is lexicographically above, loads that snapshot and logs its
    ["world"] block; from the keys "000010", "000050", "000005" it selects
    "000050". *)
Theorem phase_resolver_selects_last X cfg ds log_dir dev phase w :
  phase ≠ "input" →
  isdir X (path_join log_dir phase) = true →
  dict_keys (get_results_paths X (path_join log_dir phase)) ≠ [] →
  selects_last_snapshot X cfg ds log_dir dev phase w ∧
  (∀ (d : gmap string string),
     dom d = {[ "000010"; "000050"; "000005" ]} →
     latest_iteration d w = (Ok "000050", w)).
Proof.
  intros Hphase Hdir Hkeys. split.
  - unfold selects_last_snapshot.
    destruct (py_sorted_last _ Hkeys) as (it & Hlast & Hin & Hmax).
    destruct (proj1 (dict_keys_elem _ it) Hin) as [res_path Hpath].
    exists it, res_path. split; [apply dict_keys_elem|].
    split; [done|]. split; [done|].
    assert (latest_iteration (get_results_paths X (path_join log_dir phase)) w
            = (Ok it, w)) as Hlatest.
    { unfold latest_iteration. by rewrite Hlast. }
    split; [done|]. split; [done|].
    unfold log_phase. rewrite bool_decide_false by done. rewrite Hdir.
    unfold bind at 1. rewrite Hlatest.
    unfold bind at 1. unfold getitem at 1. by rewrite Hpath.
  - intros d Hdom.
    assert (∀ k, k ∈ dict_keys d ↔ k ∈ ({[ "000010"; "000050"; "000005" ]} : gset string))
      as Hd.
    { intros k. rewrite dict_keys_elem, <- Hdom. by rewrite elem_of_dom. }
    assert (dict_keys d ≠ []) as Hne.
    { intros Hnil. assert ("000050" ∈ dict_keys d) as Hk by (apply Hd; set_solver).
      rewrite Hnil in Hk. by apply elem_of_nil in Hk. }
    destruct (py_sorted_last _ Hne) as (it & Hlast & Hin & Hmax).
    unfold latest_iteration. rewrite Hlast.
    assert (String.le "000050" it) as Hle by (apply Hmax, Hd; set_solver).
    apply Hd in Hin.
    rewrite !elem_of_union, !elem_of_singleton in Hin.
    destruct Hin as [[-> | ->] | ->].
    + by vm_compute in Hle.
    + done.
    + by vm_compute in Hle.
Qed.

(** The ["motion_chunks"] directory of the scenario. *)
Lemma phase_resolver_selects_last_witness :
  "motion_chunks" ≠ "input" ∧
  isdir ex_X (path_join "logs/a" "motion_chunks") = true ∧
  dict_keys (get_results_paths ex_X (path_join "logs/a" "motion_chunks")) ≠ [] ∧
  latest_iteration (get_results_paths ex_X (path_join "logs/a" "motion_chunks")) ex_world
  = (Ok "000050", ex_world).
Proof.
  assert ("motion_chunks" ≠ "input") as H1 by discriminate.
  assert (isdir ex_X (path_join "logs/a" "motion_chunks") = true) as H2
    by (vm_compute; reflexivity).
  assert (dict_keys (get_results_paths ex_X (path_join "logs/a" "motion_chunks")) ≠ [])
    as H3 by (vm_compute; discriminate).
  split; [exact H1|]. split; [exact H2|]. split; [exact H3|].
  destruct (phase_resolver_selects_last ex_X ex_cfg ex_ds "logs/a" (PyInt 0)
              "motion_chunks" ex_world H1 H2 H3) as [_ Hexample].
  apply Hexample. vm_compute. reflexivity.
Defined.

(** C3, as the spec words it, fails for a phase directory that exists and
    holds no snapshot: there is no key to select, [sorted(...)[-1]] raises
    [IndexError], and nothing is loaded or logged. *)
Lemma phase_resolver_counterexample :
  "motion_chunks" ≠ "input" ∧
  isdir ex_X_no_snapshots (path_join "logs/a" "motion_chunks") = true ∧
  ¬ selects_last_snapshot ex_X_no_snapshots ex_cfg ex_ds "logs/a" (PyInt 0)
                          "motion_chunks" ex_world ∧
  latest_iteration (get_results_paths ex_X_no_snapshots (path_join "logs/a" "motion_chunks"))
                   ex_world
  = (Raise IndexError, ex_world) ∧
  log_phase ex_X_no_snapshots ex_cfg ex_ds "logs/a" (PyInt 0) "motion_chunks" ex_world
  = (Raise IndexError, ex_world).
Proof.
  split; [discriminate|]. split; [vm_compute; reflexivity|].
  split; [|split; [vm_compute; reflexivity|vm_compute; reflexivity]].
  intros (it & res_path & _ & Hin & _).
  change (it ∈ dict_keys (∅ : gmap string string)) in Hin.
  unfold dict_keys in Hin. rewrite map_to_list_empty in Hin.
  by apply elem_of_nil in Hin.
Qed.

(** ** Skipped runs and skipped phases *)

(** C7 (empty dataset). When the dataset loaded for a run has no tracks,
    [log_to_rrd] returns normally after printing its three lines: nothing is
    logged, the timeline is untouched and no recording file is written. *)
Theorem empty_dataset_skips_run X log_dir dev phases save_dir opts w cfg ds :
  load_config_from_log X log_dir = Ok cfg →
  get_dataset_from_cfg X (Config (paths_smpl cfg)
                                 (expand_source_paths X (data_sources cfg))) = Ok ds →
  dataset_len ds < 1 →
  log_to_rrd X log_dir dev phases save_dir opts w
  = (Ok tt,
     World (rr_time w) (rr_rows w)
           (stdout w ++ [log_dir;
                         "SOURCES " +:+ sources_repr X (expand_source_paths X (data_sources cfg));
                         "No tracks in dataset, skipping"])
           (files w) (environ w) (made_dirs w) (pools w)).
Proof.
  intros Hcfg Hds Hlen. unfold log_to_rrd, bind, lift, print. simpl.
  rewrite Hcfg. simpl. rewrite Hds. rewrite bool_decide_true by done. simpl.
  by rewrite <- !app_assoc.
Qed.

(** The scenario with a dataset that has no track. *)
Lemma empty_dataset_skips_run_witness :
  load_config_from_log (ex_X_with ex_empty_ds) "logs/a" = Ok ex_cfg ∧
  get_dataset_from_cfg (ex_X_with ex_empty_ds)
    (Config (paths_smpl ex_cfg)
            (expand_source_paths (ex_X_with ex_empty_ds) (data_sources ex_cfg)))
  = Ok ex_empty_ds ∧
  dataset_len ex_empty_ds < 1 ∧
  log_to_rrd (ex_X_with ex_empty_ds) "logs/a" (PyInt 0) ["motion_chunks"] "out" ex_opts
             ex_world
  = (Ok tt,
     World None [] ["logs/a"; "SOURCES videos"; "No tracks in dataset, skipping"] [] ∅ [] []).
Proof.
  assert (dataset_len ex_empty_ds < 1) as Hlen by (unfold dataset_len; simpl; lia).
  split; [reflexivity|]. split; [reflexivity|]. split; [exact Hlen|].
  exact (empty_dataset_skips_run (ex_X_with ex_empty_ds) "logs/a" (PyInt 0)
           ["motion_chunks"] "out" ex_opts ex_world ex_cfg ex_empty_ds
           eq_refl eq_refl Hlen).
Defined.

Lemma same_recording_refl w : same_recording w w.
Proof. unfold same_recording. tauto. Qed.

Lemma blind_bind {A B} (m1 m2 : M A) (k1 k2 : A → M B) :
  same_up_to_stdout m1 m2 → (∀ a, same_up_to_stdout (k1 a) (k2 a)) →
  same_up_to_stdout (bind m1 k1) (bind m2 k2).
Proof.
  intros Hm Hk w1 w2 Hw. unfold bind. specialize (Hm w1 w2 Hw).
  destruct (m1 w1) as [[a1|e1] v1], (m2 w2) as [[a2|e2] v2]; simpl in Hm;
    destruct Hm as [Ho Hv]; try discriminate; inversion Ho; subst.
  - by apply Hk.
  - done.
Qed.

Lemma blind_pure {A} (o : outcome A) : stdout_blind (fun w => (o, w)).
Proof. intros w1 w2 Hw. done. Qed.

Lemma blind_index {A} (l : list A) i : stdout_blind (index l i).
Proof. unfold index. destruct (l !! i); apply blind_pure. Qed.

Lemma blind_getitem {V} (d : gmap string V) k : stdout_blind (getitem d k).
Proof. unfold getitem. destruct (d !! k); apply blind_pure. Qed.

Lemma blind_for_each {A} (body : A → M unit) l :
  (∀ x, stdout_blind (body x)) → stdout_blind (for_each l body).
Proof.
  intros Hbody. induction l as [|x l IH]; simpl; [apply blind_pure|].
  apply blind_bind; [apply Hbody|]. intros _. apply IH.
Qed.

Lemma blind_set_time t : stdout_blind (rr_set_time_sequence t).
Proof.
  intros w1 w2 (?&?&?&?&?&?). unfold rr_set_time_sequence, same_recording. simpl. tauto.
Qed.

Lemma blind_log path c : stdout_blind (rr_log path c).
Proof.
  intros w1 w2 (Ht&Hr&?&?&?&?). unfold rr_log, push_row, same_recording. simpl.
  rewrite Ht, Hr. tauto.
Qed.

Lemma blind_log_timeless path c : stdout_blind (rr_log_timeless path c).
Proof.
  intros w1 w2 (Ht&Hr&?&?&?&?). unfold rr_log_timeless, push_row, same_recording. simpl.
  rewrite Hr. tauto.
Qed.

Lemma blind_init : stdout_blind rr_init.
Proof.
  intros w1 w2 (?&?&?&?&?&?). unfold rr_init, same_recording. simpl. tauto.
Qed.

Lemma blind_save path : stdout_blind (rr_save path).
Proof.
  intros w1 w2 (?&Hr&Hf&?&?&?). unfold rr_save, same_recording. simpl.
  rewrite Hr, Hf. tauto.
Qed.

Lemma blind_print line : stdout_blind (print line).
Proof.
  intros w1 w2 (?&?&?&?&?&?). unfold print, same_recording. simpl. tauto.
Qed.

(** Printing a line on one side only changes nothing of what is compared. *)
Lemma blind_print_left {A} line (m : M A) :
  stdout_blind m → same_up_to_stdout (print line ;; m) m.
Proof.
  intros Hm w1 w2 Hw. unfold bind, print. simpl. apply Hm.
  destruct Hw as (?&?&?&?&?&?). unfold same_recording. simpl. tauto.
Qed.

Ltac blind_step :=
  first
    [ apply blind_bind; [|intros ?]
    | apply blind_for_each; intros ?
    | apply blind_index | apply blind_getitem | apply blind_pure
    | apply blind_set_time | apply blind_log | apply blind_log_timeless
    | apply blind_init | apply blind_save | apply blind_print ].

Lemma blind_log_input_frames ds : stdout_blind (log_input_frames ds).
Proof. unfold log_input_frames. repeat blind_step. Qed.

Lemma blind_log_skeleton_2d ds : stdout_blind (log_skeleton_2d ds).
Proof.
  unfold log_skeleton_2d, log_skeleton_frame. repeat blind_step.
  - destruct (segment_joints _); apply blind_pure.
  - case_bool_decide; apply blind_log.
Qed.

Lemma blind_log_camera X ds : stdout_blind (log_camera X ds).
Proof.
  unfold log_camera, log_camera_frame, lift. repeat blind_step.
  match goal with k : (float * float * float * float)%type |- _ =>
    destruct k as [[[fx fy] cx] cy] end.
  destruct (img_size ds). repeat blind_step.
Qed.

Lemma blind_log_phase_result X cfg ds dev phase res :
  stdout_blind (log_phase_result X cfg ds dev phase res).
Proof.
  unfold log_phase_result, log_phase_frame, log_phase_track, lift.
  repeat blind_step. case_bool_decide; repeat blind_step.
Qed.

Lemma blind_log_phase X cfg ds log_dir dev phase :
  stdout_blind (log_phase X cfg ds log_dir dev phase).
Proof.
  unfold log_phase. case_bool_decide; [apply blind_log_phase_result|].
  destruct (isdir X _); [|apply blind_print].
  unfold latest_iteration, lift.
  apply blind_bind; [destruct (last _); apply blind_pure|intros it].
  apply blind_bind; [apply blind_getitem|intros p].
  apply blind_bind; [apply blind_pure|intros loaded].
  apply blind_bind; [apply blind_getitem|intros res].
  apply blind_log_phase_result.
Qed.

Lemma for_each_skip {A} (body : A → M unit) l1 p l2 line :
  (∀ x, stdout_blind (body x)) →
  (∀ v, body p v = print line v) →
  same_up_to_stdout (for_each (l1 ++ p :: l2) body) (for_each (l1 ++ l2) body).
Proof.
  intros Hbody Hp w1 w2 Hw. rewrite !for_each_app.
  apply (blind_bind (for_each l1 body) (for_each l1 body)
           (fun _ => for_each (p :: l2) body) (fun _ => for_each l2 body));
    [by apply blind_for_each| |exact Hw].
  intros _ v1 v2 Hv. simpl. unfold bind. rewrite Hp. unfold print. simpl.
  apply (blind_for_each body l2 Hbody).
  destruct Hv as (?&?&?&?&?&?). unfold same_recording. simpl. tauto.
Qed.

(** ** The batch launcher *)

Lemma found_runs_app a b : found_runs (a ++ b) = found_runs a ++ found_runs b.
Proof. unfold found_runs. by rewrite filter_app, map_app. Qed.

Lemma found_runs_flat_map {A} (g : A → list (string * list string * list string)) l :
  found_runs (flat_map g l) = flat_map (fun x => found_runs (g x)) l.
Proof.
  induction l as [|x l IH]; simpl; [done|]. by rewrite found_runs_app, IH.
Qed.

(** * Further properties of the module *)

(** ** Loops and failures *)

(** A loop stops at the first iteration that raises. *)
Lemma for_each_raise {A} (body : A → M unit) l1 x l2 w w1 e w2 :
  for_each l1 body w = (Ok tt, w1) → body x w1 = (Raise e, w2) →
  for_each (l1 ++ x :: l2) body w = (Raise e, w2).
Proof.
  intros H1 Hx. rewrite for_each_app. unfold bind. rewrite H1. simpl.
  unfold bind. by rewrite Hx.
Qed.

Lemma for_each_raise_inv {A} (body : A → M unit) l w e w' :
  for_each l body w = (Raise e, w') →
  ∃ l1 x l2 w1, l = l1 ++ x :: l2 ∧ for_each l1 body w = (Ok tt, w1) ∧
                body x w1 = (Raise e, w').
Proof.
  revert w. induction l as [|x l IH]; intros w H; simpl in H.
  - discriminate.
  - unfold bind in H. destruct (body x w) as [[[]|e0] w0] eqn:Hx.
    + destruct (IH _ H) as (l1 & y & l2 & w1 & -> & H1 & Hy).
      exists (x :: l1), y, l2, w1. split; [done|]. split; [|done].
      simpl. unfold bind. by rewrite Hx.
    + inversion H; subst. exists [], x, l, w. auto.
Qed.

(** ** The skeleton tables need 19 joints *)

Lemma skeleton_ids_in_range : Forall (fun e : nat * nat => e.1 < 17 ∧ e.2 < 17) skeleton_ids.
Proof. unfold skeleton_ids. repeat constructor; simpl; lia. Qed.

Lemma idcs_in_range : Forall (fun i => i < 19) idcs ∧ length idcs = 17 ∧ 18 ∈ idcs.
Proof.
  unfold idcs. split; [repeat constructor; lia|]. split; [done|].
  apply list_elem_of_lookup. by exists 3.
Qed.

Lemma segment_joints_defined fj : is_Some (segment_joints fj) ↔ 19 ≤ length fj.
Proof.
  unfold segment_joints, fancy_index. split.
  - intros [segs H].
    destruct (mapM (fun i => fj !! i) idcs) as [remapped|] eqn:Hre; [|done].
    apply mapM_Some_1 in Hre.
    destruct (Forall2_lookup_l _ _ _ 3 18 Hre eq_refl) as (y & _ & Hy).
    apply lookup_lt_Some in Hy. lia.
  - intros Hlen. destruct idcs_in_range as (Hidcs & Hlen17 & _).
    destruct (mapM_is_Some_2 (fun i => fj !! i) idcs) as [remapped Hre].
    { eapply Forall_impl; [exact Hidcs|]. simpl. intros i Hi.
      apply lookup_lt_is_Some. lia. }
    pose proof skeleton_ids_in_range as Hsk. revert Hsk.
    generalize skeleton_ids as edges. intros edges Hsk.
    rewrite Hre. simpl. apply mapM_is_Some_2.
    apply length_mapM in Hre.
    eapply Forall_impl; [exact Hsk|]. simpl. intros e [H1 H2].
    destruct (lookup_lt_is_Some_2 remapped e.1) as [p ->]; [lia|].
    destruct (lookup_lt_is_Some_2 remapped e.2) as [q ->]; [lia|].
    simpl. eauto.
Qed.

Lemma segment_joints_length fj segs : segment_joints fj = Some segs → length segs = 19.
Proof.
  unfold segment_joints, fancy_index.
  assert (length skeleton_ids = 19) as Hn by done. revert Hn.
  generalize skeleton_ids as edges. intros edges Hn H.
  destruct (mapM (fun i => fj !! i) idcs) as [remapped|]; [|done]. simpl in H.
  apply length_mapM in H. lia.
Qed.

(** X1 (joint count). The skeleton extractor reads raw joint 18, so a frame
    yields its 19 candidate segments exactly when it has at least 19
    joints; with fewer, the frame's body raises [IndexError] before it moves
    the timeline or logs anything. *)
Theorem skeleton_needs_19_joints dt i f (fj : list joint) w :
  (is_Some (segment_joints fj) ↔ 19 ≤ length fj) ∧
  (∀ segs, segment_joints fj = Some segs →
     length segs = 19 ∧ length (good_joints_xy dt segs) ≤ 19) ∧
  (length fj < 19 → log_skeleton_frame dt i f fj w = (Raise IndexError, w)).
Proof.
  split; [apply segment_joints_defined|]. split.
  - intros segs Hsegs. pose proof (segment_joints_length _ _ Hsegs) as Hlen.
    split; [done|]. unfold good_joints_xy.
    rewrite joint_confidence_mask, mask_select_filter, length_map.
    rewrite <- Hlen. apply length_filter.
  - intros Hlt. unfold log_skeleton_frame, bind.
    destruct (segment_joints fj) as [segs|] eqn:Hsegs; [|done].
    assert (19 ≤ length fj) by (apply segment_joints_defined; eauto). lia.
Qed.

(** ** What logging leaves alone *)

Section Preservation.

Variable R : world → world → Prop.
Hypothesis R_refl : ∀ w, R w w.
Hypothesis R_trans : ∀ w1 w2 w3, R w1 w2 → R w2 w3 → R w1 w3.
Hypothesis R_recording :
  ∀ w t rows, R w (World t rows (stdout w) (files w) (environ w) (made_dirs w) (pools w)).

Lemma preserves_pure {A} (o : outcome A) : preserves R (fun w => (o, w)).
Proof. intros w. apply R_refl. Qed.

Lemma preserves_bind {A B} (m : M A) (k : A → M B) :
  preserves R m → (∀ a, preserves R (k a)) → preserves R (bind m k).
Proof.
  intros Hm Hk w. unfold bind. specialize (Hm w).
  destruct (m w) as [[a|e] w1]; simpl in *; [|done].
  eapply R_trans; [exact Hm|apply Hk].
Qed.

Lemma preserves_for_each {A} (body : A → M unit) l :
  (∀ x, preserves R (body x)) → preserves R (for_each l body).
Proof.
  intros Hbody. induction l as [|x l IH]; simpl; [apply preserves_pure|].
  apply preserves_bind; [apply Hbody|]. intros _. apply IH.
Qed.

Lemma preserves_index {A} (l : list A) i : preserves R (index l i).
Proof. unfold index. destruct (l !! i); apply preserves_pure. Qed.

Lemma preserves_getitem {V} (d : gmap string V) k : preserves R (getitem d k).
Proof. unfold getitem. destruct (d !! k); apply preserves_pure. Qed.

Lemma preserves_set_time t : preserves R (rr_set_time_sequence t).
Proof. intros w. apply R_recording. Qed.

Lemma preserves_log path c : preserves R (rr_log path c).
Proof. intros w. apply R_recording. Qed.

Lemma preserves_log_timeless path c : preserves R (rr_log_timeless path c).
Proof. intros w. apply R_recording. Qed.

Lemma preserves_init : preserves R rr_init.
Proof. intros w. apply R_recording. Qed.

Ltac preserves_step :=
  first
    [ apply preserves_bind; [|intros ?]
    | apply preserves_for_each; intros ?
    | apply preserves_index | apply preserves_getitem | apply preserves_pure
    | apply preserves_set_time | apply preserves_log | apply preserves_log_timeless
    | apply preserves_init ].

Lemma preserves_log_input_frames ds : preserves R (log_input_frames ds).
Proof. unfold log_input_frames. repeat preserves_step. Qed.

Lemma preserves_log_skeleton_2d ds : preserves R (log_skeleton_2d ds).
Proof.
  unfold log_skeleton_2d, log_skeleton_frame. repeat preserves_step.
  - destruct (segment_joints _); apply preserves_pure.
  - case_bool_decide; apply preserves_log.
Qed.

Lemma preserves_log_camera X ds : preserves R (log_camera X ds).
Proof.
  unfold log_camera, log_camera_frame, lift. repeat preserves_step.
  match goal with k : (float * float * float * float)%type |- _ =>
    destruct k as [[[fx fy] cx] cy] end.
  destruct (img_size ds). repeat preserves_step.
Qed.

Lemma preserves_log_phase_result X cfg ds dev phase res :
  preserves R (log_phase_result X cfg ds dev phase res).
Proof.
  unfold log_phase_result, log_phase_frame, log_phase_track, lift.
  repeat preserves_step. case_bool_decide; repeat preserves_step.
Qed.

End Preservation.

Lemma same_outputs_refl w : same_outputs w w.
Proof. unfold same_outputs. tauto. Qed.

Lemma same_outputs_trans w1 w2 w3 :
  same_outputs w1 w2 → same_outputs w2 w3 → same_outputs w1 w3.
Proof. unfold same_outputs. intros (?&?&?&?) (?&?&?&?). repeat split; congruence. Qed.

Lemma same_outputs_and_stdout_refl w : same_outputs_and_stdout w w.
Proof. split; [done|apply same_outputs_refl]. Qed.

Lemma same_outputs_and_stdout_trans w1 w2 w3 :
  same_outputs_and_stdout w1 w2 → same_outputs_and_stdout w2 w3 →
  same_outputs_and_stdout w1 w3.
Proof.
  intros [? ?] [? ?]. split; [congruence|by eapply same_outputs_trans].
Qed.

Lemma log_phase_same_outputs X cfg ds log_dir dev phase :
  preserves same_outputs (log_phase X cfg ds log_dir dev phase).
Proof.
  intros w. rewrite log_phase_resolve.
  destruct (resolve_phase X ds log_dir phase) as [[res|]|e].
  - apply (preserves_log_phase_result same_outputs same_outputs_refl same_outputs_trans).
    intros; unfold same_outputs; simpl; tauto.
  - unfold print, same_outputs. simpl. tauto.
  - apply same_outputs_refl.
Qed.

Lemma log_to_rerun_same_outputs X cfg ds log_dir dev phases opts :
  preserves same_outputs (log_to_rerun X cfg ds log_dir dev phases opts).
Proof.
  assert (∀ w t rows, same_outputs w (World t rows (stdout w) (files w) (environ w)
                                            (made_dirs w) (pools w))) as Hrec
    by (intros; unfold same_outputs; simpl; tauto).
  unfold log_to_rerun.
  repeat (apply (preserves_bind _ same_outputs_trans); [|intros _]).
  - apply preserves_init; exact Hrec.
  - apply preserves_log_timeless; exact Hrec.
  - apply preserves_log_input_frames;
      [apply same_outputs_refl|apply same_outputs_trans|exact Hrec].
  - apply preserves_log_skeleton_2d;
      [apply same_outputs_refl|apply same_outputs_trans|exact Hrec].
  - apply preserves_log_camera;
      [apply same_outputs_refl|apply same_outputs_trans|exact Hrec].
  - apply preserves_for_each; [apply same_outputs_refl|apply same_outputs_trans|].
    intros p. apply log_phase_same_outputs.
Qed.

(** ** What a run persists and prints *)

(** X2 (persisted recording). [log_to_rrd] never touches the environment,
    the made directories or the pools.  When it raises, no file is written.
    When it returns, either the dataset had no track and neither a file nor
    a row was added, or exactly one file was written, at
    [save_dir/log.rrd], holding the recording as it stands at the end: the
    rows of this run only, starting with the view coordinates. *)
Theorem recording_saved_only_on_success X log_dir dev phases save_dir opts w :
  let r := log_to_rrd X log_dir dev phases save_dir opts w in
  environ r.2 = environ w ∧ made_dirs r.2 = made_dirs w ∧ pools r.2 = pools w ∧
  (∀ e, r.1 = Raise e → files r.2 = files w) ∧
  (r.1 = Ok tt →
   ∃ cfg ds,
     load_config_from_log X log_dir = Ok cfg ∧
     get_dataset_from_cfg X (Config (paths_smpl cfg)
                                    (expand_source_paths X (data_sources cfg))) = Ok ds ∧
     ((dataset_len ds < 1 ∧ files r.2 = files w ∧ rr_rows r.2 = rr_rows w) ∨
      (1 ≤ dataset_len ds ∧
       files r.2 = files w ++ [(path_join save_dir "log.rrd", rr_rows r.2)] ∧
       rr_rows r.2
       = view_row :: input_rows ds ++ skeleton_rows ds ++ camera_rows X ds
           ++ flat_map (phase_pass_rows X (Config (paths_smpl cfg)
                                                  (expand_source_paths X (data_sources cfg)))
                                        ds log_dir) phases))).
Proof.
  simpl. unfold log_to_rrd, bind, lift, print. simpl.
  destruct (load_config_from_log X log_dir) as [cfg|e0]; simpl;
    [|split; [done|]; split; [done|]; split; [done|]; split; [done|discriminate]].
  destruct (get_dataset_from_cfg X _) as [ds|e0] eqn:Hds; simpl;
    [|split; [done|]; split; [done|]; split; [done|]; split; [done|discriminate]].
  case_bool_decide as Hlen; simpl.
  { split; [done|]. split; [done|]. split; [done|]. split; [done|].
    intros _. exists cfg, ds. split; [done|]. split; [done|]. left. done. }
  match goal with
  | |- context [log_to_rerun ?a ?b ?c ?d ?e ?f ?g ?v] =>
      pose proof (log_to_rerun_same_outputs a b c d e f g v) as Hsame;
      destruct (log_to_rerun a b c d e f g v) as [[[]|e0] w1] eqn:Hrun
  end; simpl in *; destruct Hsame as (Hf & He & Hm & Hp).
  - unfold rr_save. simpl.
    split; [done|]. split; [done|]. split; [done|]. split; [discriminate|].
    intros _. exists cfg, ds. split; [done|]. split; [done|]. right.
    split; [lia|]. split; [by rewrite Hf|].
    by apply log_to_rerun_rows in Hrun as [Hrows _].
  - split; [done|]. split; [done|]. split; [done|]. split; [done|discriminate].
Qed.

Lemma log_phase_stdout X cfg ds log_dir dev p w w' :
  log_phase X cfg ds log_dir dev p w = (Ok tt, w') →
  stdout w' = stdout w ++ skipped_lines X ds log_dir [p].
Proof.
  rewrite log_phase_resolve. unfold skipped_lines. simpl.
  destruct (resolve_phase X ds log_dir p) as [[res|]|e]; intros H.
  - pose proof (preserves_log_phase_result same_outputs_and_stdout
                  same_outputs_and_stdout_refl same_outputs_and_stdout_trans) as Hpres.
    specialize (Hpres ltac:(intros; split; [done|unfold same_outputs; simpl; tauto])
                      X cfg ds dev p res w).
    rewrite H in Hpres. destruct Hpres as [Hout _]. simpl in Hout.
    by rewrite Hout, app_nil_r.
  - unfold print in H. by inv_pair.
  - discriminate.
Qed.

Lemma skipped_lines_cons X ds log_dir p l :
  skipped_lines X ds log_dir (p :: l)
  = skipped_lines X ds log_dir [p] ++ skipped_lines X ds log_dir l.
Proof. unfold skipped_lines. simpl. by rewrite app_nil_r. Qed.

(** X3 (diagnostics). A completed [log_to_rerun] has printed exactly one
    line per requested phase that was skipped, in request order, and nothing
    else. *)
Theorem one_diagnostic_per_skipped_phase X cfg ds log_dir dev phases opts w w' :
  log_to_rerun X cfg ds log_dir dev phases opts w = (Ok tt, w') →
  stdout w' = stdout w ++ skipped_lines X ds log_dir phases.
Proof.
  assert (∀ v t rows, same_outputs_and_stdout
                        v (World t rows (stdout v) (files v) (environ v)
                                 (made_dirs v) (pools v))) as Hrec
    by (intros; split; [done|unfold same_outputs; simpl; tauto]).
  intros H. unfold log_to_rerun in H.
  apply bind_ok in H as ([] & w1 & Hinit & H).
  apply bind_ok in H as ([] & w2 & Hview & H).
  apply bind_ok in H as ([] & w3 & Hin & H).
  apply bind_ok in H as ([] & w4 & Hsk & H).
  apply bind_ok in H as ([] & w5 & Hcam & H).
  assert (stdout w5 = stdout w) as Hquiet.
  { pose proof (preserves_log_input_frames same_outputs_and_stdout
                  same_outputs_and_stdout_refl same_outputs_and_stdout_trans Hrec ds w2)
      as [H3 _].
    pose proof (preserves_log_skeleton_2d same_outputs_and_stdout
                  same_outputs_and_stdout_refl same_outputs_and_stdout_trans Hrec ds w3)
      as [H4 _].
    pose proof (preserves_log_camera same_outputs_and_stdout
                  same_outputs_and_stdout_refl same_outputs_and_stdout_trans Hrec X ds w4)
      as [H5 _].
    rewrite Hin in H3. rewrite Hsk in H4. rewrite Hcam in H5. simpl in *.
    unfold rr_init in Hinit. unfold rr_log_timeless, push_row in Hview. inv_pair.
    simpl in *. congruence. }
  rewrite <- Hquiet. clear -H. revert w5 H.
  induction phases as [|p l IH]; intros v H; simpl in H.
  - unfold ret in H. inv_pair. by rewrite app_nil_r.
  - apply bind_ok in H as ([] & v1 & Hp%log_phase_stdout & Hl).
    rewrite skipped_lines_cons, app_assoc, <- Hp. by apply IH.
Qed.

(** Three requested phases of which the middle one is missing. *)
Lemma one_diagnostic_per_skipped_phase_witness :
  log_to_rerun ex_X ex_cfg ex_ds "logs/a" (PyInt 0) ["input"; "nope"; "motion_chunks"]
               ex_opts ex_world
  = (Ok tt, (log_to_rerun ex_X ex_cfg ex_ds "logs/a" (PyInt 0)
                          ["input"; "nope"; "motion_chunks"] ex_opts ex_world).2) ∧
  stdout (log_to_rerun ex_X ex_cfg ex_ds "logs/a" (PyInt 0)
                       ["input"; "nope"; "motion_chunks"] ex_opts ex_world).2
  = ["logs/a/nope does not exist, skipping"].
Proof.
  assert (log_to_rerun ex_X ex_cfg ex_ds "logs/a" (PyInt 0)
                       ["input"; "nope"; "motion_chunks"] ex_opts ex_world
          = (Ok tt, (log_to_rerun ex_X ex_cfg ex_ds "logs/a" (PyInt 0)
                                  ["input"; "nope"; "motion_chunks"] ex_opts ex_world).2))
    as Hrun by (vm_compute; reflexivity).
  split; [exact Hrun|].
  rewrite (one_diagnostic_per_skipped_phase _ _ _ _ _ _ _ _ _ Hrun).
  vm_compute. reflexivity.
Defined.

(** ** Hard failures of a phase *)

Lemma latest_iteration_empty {V} w : latest_iteration (∅ : gmap string V) w = (Raise IndexError, w).
Proof. unfold latest_iteration, dict_keys. by rewrite map_to_list_empty. Qed.

Lemma log_to_rerun_phase_raises X cfg ds log_dir dev l1 p l2 opts e :
  (∀ v, log_phase X cfg ds log_dir dev p v = (Raise e, v)) →
  ∀ v, (log_to_rerun X cfg ds log_dir dev (l1 ++ p :: l2) opts v).1 ≠ Ok tt.
Proof.
  intros Hp v Hok.
  destruct (log_to_rerun X cfg ds log_dir dev (l1 ++ p :: l2) opts v) as [o w'] eqn:Hrun.
  simpl in Hok. subst o. unfold log_to_rerun in Hrun.
  apply bind_ok in Hrun as ([] & w1 & _ & H).
  apply bind_ok in H as ([] & w2 & _ & H).
  apply bind_ok in H as ([] & w3 & _ & H).
  apply bind_ok in H as ([] & w4 & _ & H).
  apply bind_ok in H as ([] & w5 & _ & H).
  rewrite for_each_app in H. apply bind_ok in H as ([] & w6 & _ & H).
  simpl in H. apply bind_ok in H as ([] & w7 & H & _).
  rewrite Hp in H. discriminate.
Qed.

(** X4 (phase directory without snapshots). For a phase other than
    ["input"] whose directory exists but holds no iteration, the phase loop's
    body raises [IndexError] and changes nothing; the loop stops there, so
    the phases after it are not processed; [log_to_rerun] never completes
    and the run writes no recording file. *)
Theorem snapshotless_phase_fails X log_dir dev l1 p l2 save_dir opts w :
  p ≠ "input" →
  isdir X (path_join log_dir p) = true →
  get_results_paths X (path_join log_dir p) = ∅ →
  (∀ cfg ds v, log_phase X cfg ds log_dir dev p v = (Raise IndexError, v)) ∧
  (∀ cfg ds v v1,
     for_each l1 (log_phase X cfg ds log_dir dev) v = (Ok tt, v1) →
     for_each (l1 ++ p :: l2) (log_phase X cfg ds log_dir dev) v
     = (Raise IndexError, v1)) ∧
  (∀ cfg ds v, (log_to_rerun X cfg ds log_dir dev (l1 ++ p :: l2) opts v).1 ≠ Ok tt) ∧
  files (log_to_rrd X log_dir dev (l1 ++ p :: l2) save_dir opts w).2 = files w.
Proof.
  intros Hp Hdir Hempty.
  assert (∀ cfg ds v, log_phase X cfg ds log_dir dev p v = (Raise IndexError, v)) as Hraise.
  { intros cfg ds v. unfold log_phase. rewrite bool_decide_false by done.
    rewrite Hdir, Hempty. unfold bind. by rewrite latest_iteration_empty. }
  split; [done|]. split; [|split].
  - intros cfg ds v v1 H1. by eapply for_each_raise.
  - intros cfg ds. apply (log_to_rerun_phase_raises _ _ _ _ _ _ _ _ _ IndexError).
    apply Hraise.
  - unfold log_to_rrd, bind, lift, print. simpl.
    destruct (load_config_from_log X log_dir) as [cfg|e0]; simpl; [|done].
    destruct (get_dataset_from_cfg X _) as [ds|e0]; simpl; [|done].
    case_bool_decide; simpl; [done|].
    match goal with
    | |- context [log_to_rerun ?a ?b ?c ?d ?e ?f ?g ?v] =>
        pose proof (log_to_rerun_same_outputs a b c d e f g v) as Hsame;
        pose proof (log_to_rerun_phase_raises a b c d e l1 p l2 g IndexError
                      (Hraise b c) v) as Hnot;
        destruct (log_to_rerun a b c d e f g v) as [[[]|e0] w1]
    end; simpl in *; [done|]. by destruct Hsame as (Hf & _).
Qed.

(** The scenario with an empty ["motion_chunks"] directory. *)
Lemma snapshotless_phase_fails_witness :
  "motion_chunks" ≠ "input" ∧
  isdir ex_X_no_snapshots (path_join "logs/a" "motion_chunks") = true ∧
  get_results_paths ex_X_no_snapshots (path_join "logs/a" "motion_chunks") = ∅ ∧
  (log_to_rrd ex_X_no_snapshots "logs/a" (PyInt 0) (["input"] ++ "motion_chunks" :: [])
              "out" ex_opts ex_world).1 = Raise IndexError ∧
  files (log_to_rrd ex_X_no_snapshots "logs/a" (PyInt 0) (["input"] ++ "motion_chunks" :: [])
                    "out" ex_opts ex_world).2 = [].
Proof.
  assert ("motion_chunks" ≠ "input") as H1 by discriminate.
  assert (isdir ex_X_no_snapshots (path_join "logs/a" "motion_chunks") = true) as H2
    by (vm_compute; reflexivity).
  split; [exact H1|]. split; [exact H2|]. split; [reflexivity|].
  split; [vm_compute; reflexivity|].
  destruct (snapshotless_phase_fails ex_X_no_snapshots "logs/a" (PyInt 0) ["input"]
              "motion_chunks" [] "out" ex_opts ex_world H1 H2 eq_refl)
    as (_ & _ & _ & Hfiles).
  exact Hfiles.
Defined.

(** X5 (camera arrays with one leading entry). [log_phase_result] reads the
    phase camera at leading index 1.  When either camera array of the result
    has at most one leading entry (the arrays of a single track, say) and
    there is at least one frame, the pass raises [IndexError] at frame 0:
    the timeline has moved to 0 and nothing has been logged. *)
Theorem phase_needs_second_camera_entry X cfg ds dev phase res out w :
  smpl_result X cfg ds res = Ok out →
  0 < seq_len ds →
  length (res_cam_t res) ≤ 1 ∨ length (res_cam_R res) ≤ 1 →
  log_phase_result X cfg ds dev phase res w
  = (Raise IndexError,
     World (Some 0) (rr_rows w) (stdout w) (files w) (environ w) (made_dirs w) (pools w)).
Proof.
  intros Hs Hlen Hshort. unfold smpl_result in Hs.
  unfold log_phase_result, bind, lift.
  destruct (load_smpl_body_model X _ _) as [bm|e]; [|done]. simpl. rewrite Hs.
  unfold range. destruct (seq_len ds) as [|n]; [lia|]. simpl.
  unfold log_phase_frame, bind, rr_set_time_sequence, index, ret, raise. simpl.
  destruct (res_cam_t res !! 1) as [t1|] eqn:Ht1; [|done].
  destruct (t1 !! 0) as [t|]; [|done].
  destruct (res_cam_R res !! 1) as [R1|] eqn:HR1; [|done].
  apply lookup_lt_Some in Ht1, HR1. lia.
Qed.

(** The scenario with a phase result whose camera arrays hold one entry. *)
Lemma phase_needs_second_camera_entry_witness :
  smpl_result ex_X ex_cfg ex_ds ex_res_single = Ok ex_out ∧
  0 < seq_len ex_ds ∧
  (length (res_cam_t ex_res_single) ≤ 1 ∨ length (res_cam_R ex_res_single) ≤ 1) ∧
  log_phase_result ex_X ex_cfg ex_ds (PyInt 0) "motion_chunks" ex_res_single ex_world
  = (Raise IndexError, World (Some 0) [] [] [] ∅ [] []).
Proof.
  assert (0 < seq_len ex_ds) as H2 by (simpl; lia).
  assert (length (res_cam_t ex_res_single) ≤ 1 ∨ length (res_cam_R ex_res_single) ≤ 1)
    as H3 by (left; simpl; lia).
  split; [reflexivity|]. split; [exact H2|]. split; [exact H3|].
  exact (phase_needs_second_camera_entry ex_X ex_cfg ex_ds (PyInt 0) "motion_chunks"
           ex_res_single ex_out ex_world eq_refl H2 H3).
Defined.

(** ** The input-frame and camera passes *)

Lemma events_at_input_rows ds f p :
  sel_img_paths ds !! f = Some p →
  events_at (input_rows ds) "world/camera/image" f = [ImageFile p].
Proof.
  intros Hf. unfold input_rows, enumerate.
  rewrite (events_at_flat_map_enumerate
             (fun k q => [Row (Some k) "world/camera/image" (ImageFile q)])
             (sel_img_paths ds) _ _ 0 f p Hf).
  - simpl. by rewrite events_at_cons_hit.
  - intros j y Hj. apply events_at_none. repeat constructor. simpl.
    intros [_ Heq]. inversion Heq. lia.
Qed.

Lemma input_rows_length ds : length (input_rows ds) = length (sel_img_paths ds).
Proof.
  unfold input_rows, enumerate. generalize 0.
  induction (sel_img_paths ds) as [|p l IH]; intros k; simpl; [done|]. by rewrite IH.
Qed.

(** X6 (input frames). [log_input_frames] never raises: it logs one image
    file per selected image path, under the path's position as timeline key,
    and nothing else; the number of images logged is the length of
    [sel_img_paths], not [seq_len]. *)
Theorem input_frames_always_logged ds w :
  ∃ w', log_input_frames ds w = (Ok tt, w') ∧
        emitted w w' (input_rows ds) ∧
        length (input_rows ds) = length (sel_img_paths ds) ∧
        (∀ f p, sel_img_paths ds !! f = Some p →
                events_at (input_rows ds) "world/camera/image" f = [ImageFile p]).
Proof.
  destruct (for_each_completes
              (fun fp => rr_set_time_sequence fp.1 ;;
                         rr_log "world/camera/image" (ImageFile fp.2))
              (enumerate (sel_img_paths ds)) w) as [w' Hrun].
  { intros x _ w1. by eexists. }
  exists w'. split; [exact Hrun|]. split; [by apply log_input_frames_rows|].
  split; [apply input_rows_length|]. apply events_at_input_rows.
Qed.

Lemma camera_component_defined X ds f :
  is_Some (camera_component X ds f) ↔ camera_frame_ok X ds f.
Proof.
  unfold camera_component, camera_frame_ok.
  destruct (cam_t (get_camera_data ds) !! f) as [t|]; simpl.
  2:{ split; [by intros [? ?]|]. by intros (? & ? & ? & ? & ? & _). }
  destruct (cam_R (get_camera_data ds) !! f) as [R|]; simpl.
  2:{ split; [by intros [? ?]|]. by intros (? & ? & ? & ? & _ & ? & _). }
  destruct (rotation_as_quat X R) as [q|e] eqn:Hq; simpl.
  2:{ split; [by intros [? ?]|]. intros (? & R' & ? & ? & _ & HR & Hq' & _).
      inversion HR; subst R'. congruence. }
  destruct (intrins (get_camera_data ds) !! f) as [[[[fx fy] cx] cy]|]; simpl.
  2:{ split; [by intros [? ?]|]. by intros (? & ? & ? & ? & _ & _ & _ & ?). }
  split; [|eauto]. intros _. exists t, R, q, (fx, fy, cx, cy). by rewrite Hq.
Qed.

Lemma log_camera_frame_completes X ds f w :
  is_Some (camera_component X ds f) → ∃ w', log_camera_frame X ds f w = (Ok tt, w').
Proof.
  intros [c Hc]. unfold camera_component in Hc.
  unfold log_camera_frame, bind, index, lift.
  destruct (cam_t (get_camera_data ds) !! f) as [t|]; [|done]. simpl in Hc |- *.
  destruct (cam_R (get_camera_data ds) !! f) as [R|]; [|done]. simpl in Hc |- *.
  destruct (rotation_as_quat X R) as [q|e]; [|done]. simpl in Hc |- *.
  destruct (intrins (get_camera_data ds) !! f) as [[[[fx fy] cx] cy]|]; [|done].
  simpl. destruct (img_size ds). by eexists.
Qed.

(** The frames before [k] are logged, and the pass ends as frame [k] does. *)
Lemma log_camera_stops X ds k e w :
  k < seq_len ds → (∀ j, j < k → camera_frame_ok X ds j) →
  (∀ v, log_camera_frame X ds k v = (Raise e, v)) →
  ∃ w', log_camera X ds w = (Raise e, w') ∧
        emitted w w' (flat_map (camera_frame_rows X ds) (seq 0 k)).
Proof.
  intros Hk Hbefore Hfail. unfold log_camera, range.
  replace (seq_len ds) with (k + S (seq_len ds - S k)) by lia.
  rewrite seq_app. simpl.
  destruct (for_each_completes (log_camera_frame X ds) (seq 0 k) w) as [w1 H1].
  { intros f Hf%elem_of_seq w0.
    apply log_camera_frame_completes, camera_component_defined, Hbefore. lia. }
  exists w1. split; [eapply for_each_raise; [exact H1|apply Hfail]|].
  apply (for_each_emitted _ (camera_frame_rows X ds) (fun _ => True) (fun _ => True))
    in H1 as (Hem & _ & _); [done|done|].
  intros f wa wb _ Hb. apply log_camera_frame_rows in Hb. tauto.
Qed.

(** X7 (camera pass). [log_camera] completes exactly when, for every frame
    below [seq_len], the three camera arrays have an entry and the frame's
    rotation matrix converts.  Otherwise it stops at the first frame [k] for
    which this fails, with the rows of the frames before [k] in the
    recording, and raises what the first failing statement of the frame
    raises: [IndexError] when [cam_t] or [cam_R] has no entry [k]; else the
    exception of the conversion when the matrix is not taken for a rotation,
    whether or not the intrinsics are there; else [IndexError] for the
    missing intrinsics.  When it completes, the event at
    ["world/camera/image"] of each frame within its rows is the pinhole
    built from that frame's intrinsics and the image size. *)
Theorem camera_pass_bounds X ds w :
  ((∀ f, f < seq_len ds → camera_frame_ok X ds f)
   ↔ ∃ w', log_camera X ds w = (Ok tt, w')) ∧
  (∀ k, k < seq_len ds → (∀ j, j < k → camera_frame_ok X ds j) →
     (length (cam_t (get_camera_data ds)) ≤ k ∨ length (cam_R (get_camera_data ds)) ≤ k →
      ∃ w', log_camera X ds w = (Raise IndexError, w') ∧
            emitted w w' (flat_map (camera_frame_rows X ds) (seq 0 k))) ∧
     (∀ t R e, cam_t (get_camera_data ds) !! k = Some t →
               cam_R (get_camera_data ds) !! k = Some R →
               rotation_as_quat X R = Raise e →
      ∃ w', log_camera X ds w = (Raise e, w') ∧
            emitted w w' (flat_map (camera_frame_rows X ds) (seq 0 k))) ∧
     (∀ t R q, cam_t (get_camera_data ds) !! k = Some t →
               cam_R (get_camera_data ds) !! k = Some R →
               rotation_as_quat X R = Ok q →
               length (intrins (get_camera_data ds)) ≤ k →
      ∃ w', log_camera X ds w = (Raise IndexError, w') ∧
            emitted w w' (flat_map (camera_frame_rows X ds) (seq 0 k)))) ∧
  (∀ w', log_camera X ds w = (Ok tt, w') →
     emitted w w' (camera_rows X ds) ∧
     ∀ f, f < seq_len ds →
       ∃ fx fy cx cy,
         intrins (get_camera_data ds) !! f = Some (fx, fy, cx, cy) ∧
         events_at (camera_rows X ds) "world/camera/image" f
         = [Pinhole [[fx; 0%float; cx]; [0%float; fy; cy]; [0%float; 0%float; 1%float]]
                    (img_size ds).1 (img_size ds).2]).
Proof.
  split; [|split].
  - split.
    + intros Hok. apply for_each_completes. intros f Hf%elem_of_seq w1.
      apply log_camera_frame_completes, camera_component_defined, Hok. lia.
    + intros [w' H]. apply log_camera_rows in H as [_ Hok].
      intros f Hf. by apply camera_component_defined, Hok.
  - intros k Hk Hbefore. split; [|split].
    + intros Hshort. apply log_camera_stops; [done|done|].
      intros v. unfold log_camera_frame, bind, index.
      destruct (cam_t (get_camera_data ds) !! k) as [t|] eqn:Ht; [|done].
      destruct (cam_R (get_camera_data ds) !! k) as [R|] eqn:HR; [|done].
      apply lookup_lt_Some in Ht, HR. lia.
    + intros t R e Ht HR He. apply log_camera_stops; [done|done|].
      intros v. unfold log_camera_frame, bind, index, lift, ret.
      rewrite Ht. simpl. rewrite HR. simpl. by rewrite He.
    + intros t R q Ht HR Hq Hshort. apply log_camera_stops; [done|done|].
      intros v. unfold log_camera_frame, bind, index, lift, ret.
      rewrite Ht. simpl. rewrite HR. simpl. rewrite Hq. simpl.
      by rewrite (proj2 (lookup_ge_None _ _) Hshort).
  - intros w' H. apply log_camera_rows in H as [Hem Hok]. split; [done|].
    intros f Hf. destruct (Hok f Hf) as [[pin pose] Hc].
    unfold camera_rows, range.
    rewrite (events_at_flat_map_seq _ _ _ 0 _ f); [|lia|].
    2:{ intros j Hj. eapply events_at_other_time; [apply camera_frame_rows_time|done]. }
    unfold camera_frame_rows. rewrite Hc.
    rewrite events_at_cons_hit by done.
    rewrite events_at_cons_miss by (simpl; intros [? _]; discriminate).
    unfold camera_component in Hc.
    destruct (cam_t (get_camera_data ds) !! f) as [t|]; [|done]. simpl in Hc.
    destruct (cam_R (get_camera_data ds) !! f) as [R|]; [|done]. simpl in Hc.
    destruct (rotation_as_quat X R) as [q|e]; [|done]. simpl in Hc.
    destruct (intrins (get_camera_data ds) !! f) as [[[[fx fy] cx] cy]|]; [|done].
    simpl in Hc. inversion Hc; subst. by exists fx, fy, cx, cy.
Qed.

(** The scenario with a second rotation matrix that is no rotation: the pass
    raises the conversion's [ValueError] at frame 1 and leaves the two rows
    of frame 0. *)
Lemma camera_pass_bounds_witness :
  log_camera ex_X ex_ds_bad_rotation ex_world
  = (Raise ValueError,
     World (Some 0)
           [Row (Some 0) "world/camera/image"
                (Pinhole [[500; 0; 320]; [0; 500; 240]; [0; 0; 1]]%float 640 480);
            Row (Some 0) "world/camera" (Rigid3 [0; 0; 0]%float [1%float] "RDF")]
           [] [] ∅ [] []).
Proof.
  destruct (proj1 (proj2 (camera_pass_bounds ex_X ex_ds_bad_rotation ex_world)) 1)
    as (_ & Hconv & _).
  - simpl. lia.
  - intros j Hj. assert (j = 0) as -> by lia.
    exists [0; 0; 0]%float, [[1%float]], [1%float], (500, 500, 320, 240)%float.
    repeat split; reflexivity.
  - destruct (Hconv [1; 0; 0]%float [] ValueError eq_refl eq_refl eq_refl)
      as (w' & Hrun & Hem).
    rewrite Hrun. f_equal.
    assert (w' = (log_camera ex_X ex_ds_bad_rotation ex_world).2) as ->
      by (by rewrite Hrun).
    vm_compute. reflexivity.
Defined.

(** ** The launcher's failures *)

Lemma split_go_nonempty sep skip acc s : split_go sep skip acc s ≠ [].
Proof.
  revert skip acc. induction s as [|c s IH]; intros skip acc; cbn [split_go]; [done|].
  destruct skip; [|apply IH].
  destruct (String.prefix sep (String c s)); [discriminate|apply IH].
Qed.

Lemma launch_without_devices X i args w :
  i < length (log_dirs args) → gpus args = [] →
  launch_rerun_vis X i args w = (Raise ZeroDivisionError, w).
Proof.
  intros Hi Hg. unfold launch_rerun_vis, bind, index.
  destruct (lookup_lt_is_Some_2 _ _ Hi) as [log_dir ->]. simpl.
  rewrite Hg. simpl. done.
Qed.

(** X8 (launch failures). [launch_rerun_vis] fails before it reaches the
    orchestrator in three ways: a run index past the discovered list raises
    [IndexError]; an empty device list raises [ZeroDivisionError]; in both
    cases nothing has changed.  An empty [log_root] raises [ValueError] when
    the run directory is split on it, after the device selection was put
    into the environment and before any directory is made.  Splitting never
    yields an empty list, so taking the last piece cannot fail. *)
Theorem launch_failure_modes X i args w :
  (length (log_dirs args) ≤ i → launch_rerun_vis X i args w = (Raise IndexError, w)) ∧
  (i < length (log_dirs args) → gpus args = [] →
   launch_rerun_vis X i args w = (Raise ZeroDivisionError, w)) ∧
  (∀ log_dir dev,
     log_dirs args !! i = Some log_dir →
     gpus args !! (i mod length (gpus args)) = Some dev →
     log_root args = "" →
     launch_rerun_vis X i args w
     = (Raise ValueError,
        World (rr_time w) (rr_rows w) (stdout w) (files w)
              (<["PYOPENGL_PLATFORM" := "egl"]>
                 (<["EGL_DEVICE_ID" := py_str dev]> (environ w)))
              (made_dirs w) (pools w))) ∧
  (∀ sep s, split_go sep 0 "" s ≠ []).
Proof.
  split; [|split; [|split]].
  - intros Hi. unfold launch_rerun_vis, bind, index.
    by rewrite (proj2 (lookup_ge_None _ _) Hi).
  - apply launch_without_devices.
  - intros log_dir dev Hdir Hdev Hroot.
    assert (length (gpus args) ≠ 0) as Hlen.
    { intros H0. destruct (gpus args); [done|discriminate]. }
    unfold launch_rerun_vis, bind, index. rewrite Hdir. simpl.
    rewrite bool_decide_false by done. rewrite Hdev. simpl.
    unfold py_split. rewrite bool_decide_true by done. reflexivity.
  - intros sep s. apply split_go_nonempty.
Qed.

(** X9 (launcher edge cases). When the root cannot be walked no run is
    found.  With no run found and at most one device, [main] only prints
    that it found 0 runs.  With runs found and an empty device list, [main]
    prints the count and raises [ZeroDivisionError] at the first run, before
    the environment, a directory or the recording is touched. *)
Theorem main_edge_cases X args w :
  let found := match walk_tree X (log_root args) with
               | Some d => found_runs (os_walk (log_root args) d)
               | None => []
               end in
  (walk_tree X (log_root args) = None → found = []) ∧
  (found = [] → length (gpus args) ≤ 1 →
   main X args w
   = (Ok tt,
      World (rr_time w) (rr_rows w) (stdout w ++ ["FOUND 0 TO RENDER"]) (files w)
            (environ w) (made_dirs w) (pools w))) ∧
  (found ≠ [] → gpus args = [] →
   main X args w
   = (Raise ZeroDivisionError,
      World (rr_time w) (rr_rows w)
            (stdout w ++ ["FOUND " +:+ pretty (length found) +:+ " TO RENDER"]) (files w)
            (environ w) (made_dirs w) (pools w))).
Proof.
  intros found. split; [|split].
  - intros Hnone. unfold found. by rewrite Hnone.
  - intros Hfound Hg. unfold main. fold found. rewrite Hfound. simpl.
    unfold bind, print. simpl. rewrite bool_decide_false by lia. reflexivity.
  - intros Hfound Hg. unfold main. fold found. simpl.
    unfold bind at 1. unfold print at 1. simpl.
    rewrite bool_decide_false by (rewrite Hg; simpl; lia).
    destruct found as [|d rest] eqn:Hf; [done|]. simpl.
    unfold bind at 1.
    rewrite launch_without_devices; [done|simpl; lia|done].
Qed.

(** X10 (sequential runs). With at most one device [main] runs the
    discovered runs in order in its own process and catches nothing: when
    the runs before position [k] complete and run [k] raises, [main] raises
    the same exception in the world that run left, and no later run is
    started. *)
Theorem sequential_runs_stop_at_failure X args w found k e w1 w2 :
  found = match walk_tree X (log_root args) with
          | Some d => found_runs (os_walk (log_root args) d)
          | None => []
          end →
  length (gpus args) ≤ 1 →
  k < length found →
  for_each (range k) (fun i => launch_rerun_vis X i (set_log_dirs args found))
           (print ("FOUND " +:+ pretty (length found) +:+ " TO RENDER") w).2
  = (Ok tt, w1) →
  launch_rerun_vis X k (set_log_dirs args found) w1 = (Raise e, w2) →
  main X args w = (Raise e, w2).
Proof.
  intros Hfound Hg Hk Hbefore Hfail. unfold main. cbv zeta. rewrite <- Hfound.
  change (log_dirs (set_log_dirs args found)) with found.
  change (gpus (set_log_dirs args found)) with (gpus args).
  unfold bind at 1.
  remember (print ("FOUND " +:+ pretty (length found) +:+ " TO RENDER") w) as pw eqn:Hpw.
  assert (pw.1 = Ok tt) as Ho by (subst pw; reflexivity).
  destruct pw as [o w']. simpl in Ho, Hbefore. subst o.
  rewrite bool_decide_false by lia. unfold range in *.
  replace (length found) with (k + S (length found - S k)) by lia.
  rewrite seq_app. simpl. eapply for_each_raise; [exact Hbefore|exact Hfail].
Qed.

(** Three runs whose phase directories hold no snapshot: the first run
    fails and [main] fails with it. *)
Lemma sequential_runs_stop_at_failure_witness :
  main ex_X_no_snapshots (ex_args [PyInt 0]) ex_world
  = (Raise IndexError,
     (launch_rerun_vis ex_X_no_snapshots 0
        (set_log_dirs (ex_args [PyInt 0]) ["logs/a"; "logs/b/c"; "logs/d"])
        (print "FOUND 3 TO RENDER" ex_world).2).2) ∧
  made_dirs (main ex_X_no_snapshots (ex_args [PyInt 0]) ex_world).2 = ["logs/a"].
Proof.
  assert (main ex_X_no_snapshots (ex_args [PyInt 0]) ex_world
          = (Raise IndexError,
             (launch_rerun_vis ex_X_no_snapshots 0
                (set_log_dirs (ex_args [PyInt 0]) ["logs/a"; "logs/b/c"; "logs/d"])
                (print "FOUND 3 TO RENDER" ex_world).2).2)) as Hmain.
  { apply (sequential_runs_stop_at_failure ex_X_no_snapshots (ex_args [PyInt 0]) ex_world
             ["logs/a"; "logs/b/c"; "logs/d"] 0 IndexError
             (print "FOUND 3 TO RENDER" ex_world).2).
    - vm_compute. reflexivity.
    - simpl. lia.
    - simpl. lia.
    - reflexivity.
    - vm_compute. reflexivity. }
  split; [exact Hmain|]. rewrite Hmain. vm_compute. reflexivity.
Defined.

(** ** Entity paths never collide *)

Lemma pretty_N_go_no_slash x s : no_slash s = true → no_slash (pretty_N_go x s) = true.
Proof.
  revert s. induction (N.lt_wf_0 x) as [x _ IH]; intros s Hs.
  assert (x = 0 ∨ 0 < x)%N as [->|?] by lia.
  - by rewrite pretty_N_go_0.
  - rewrite pretty_N_go_step by done. apply IH.
    { by apply N.div_lt. }
    simpl. rewrite Hs, andb_true_r. apply negb_true_iff, bool_decide_eq_false.
    unfold pretty_N_char. by repeat case_match.
Qed.

Lemma pretty_nat_no_slash (n : nat) : no_slash (pretty n) = true.
Proof.
  unfold pretty, pretty_nat, pretty, pretty_N. case_decide; [done|].
  by apply pretty_N_go_no_slash.
Qed.

Lemma no_slash_app_slash a b : no_slash (a +:+ String "/" b) = false.
Proof.
  induction a as [|c a IH]; simpl; [done|]. rewrite IH. apply andb_false_r.
Qed.

Lemma path_tail_inj p q d1 d2 :
  no_slash d1 = true → no_slash d2 = true →
  p +:+ "/#" +:+ d1 = q +:+ "/#" +:+ d2 → p = q ∧ d1 = d2.
Proof.
  intros H1 H2. revert q. induction p as [|c p IH]; intros [|c' q] Heq; simplify_eq/=.
  - done.
  - destruct q as [|c'' q]; simplify_eq/=.
    change ("" +:+ d1) with d1 in H0. subst d1.
    change (q +:+ "/#" +:+ d2) with (q +:+ String "/" ("#" +:+ d2)) in H1.
    by rewrite no_slash_app_slash in H1.
  - destruct p as [|c'' p]; simplify_eq/=.
    change ("" +:+ d2) with d2 in H0. subst d2.
    change (p +:+ "/#" +:+ d1) with (p +:+ String "/" ("#" +:+ d1)) in H2.
    by rewrite no_slash_app_slash in H2.
  - destruct (IH _ H) as [-> ->]. done.
Qed.

Lemma phase_path_inj_joint p q i j : phase_path p i = phase_path q j → p = q ∧ i = j.
Proof.
  unfold phase_path. intros H. apply (inj (String.app _)) in H.
  apply path_tail_inj in H as [-> Hd]; [|apply pretty_nat_no_slash..].
  by apply (inj pretty) in Hd.
Qed.

(** X11 (entity paths). The mesh path of a phase and track determines both:
    two different (phase, track) pairs never share a path, whatever the phase
    names are.  No mesh path is a skeleton path, the camera path, the image
    path or the root; no skeleton path is one of those either, and skeleton
    paths of different tracks differ. *)
Theorem entity_paths_never_collide p q i j :
  (phase_path p i = phase_path q j → p = q ∧ i = j) ∧
  (skeleton_path i = skeleton_path j → i = j) ∧
  phase_path p i ≠ skeleton_path j ∧
  phase_path p i ≠ "world/camera" ∧ phase_path p i ≠ "world/camera/image" ∧
  phase_path p i ≠ "world" ∧
  skeleton_path i ≠ "world/camera" ∧ skeleton_path i ≠ "world/camera/image" ∧
  skeleton_path i ≠ "world".
Proof.
  split; [apply phase_path_inj_joint|]. split; [apply skeleton_path_inj|].
  unfold phase_path, skeleton_path. simpl. repeat split; discriminate.
Qed.

(** ** The recording of a whole run *)

Lemma events_at_flat_map_nodup {A} (g : A → list row) (l : list A) p path f :
  NoDup l → p ∈ l →
  (∀ q, q ∈ l → q ≠ p → events_at (g q) path f = []) →
  events_at (flat_map g l) path f = events_at (g p) path f.
Proof.
  induction 1 as [|x l Hx Hnd IH]; intros Hp Hothers; [by apply elem_of_nil in Hp|].
  simpl. rewrite events_at_app. apply elem_of_cons in Hp as [->|Hp].
  - rewrite (events_at_flat_map_none g l); [by rewrite app_nil_r|].
    apply Forall_forall. intros q Hq. apply Hothers; [by apply list_elem_of_further|].
    intros ->. done.
  - rewrite (Hothers x); [|apply list_elem_of_here|by intros ->]. simpl.
    apply IH; [done|]. intros q Hq. apply Hothers. by apply list_elem_of_further.
Qed.

Lemma input_rows_path ds :
  Forall (fun r => row_path r = "world/camera/image") (input_rows ds).
Proof. unfold input_rows. apply Forall_flat_map_rows. intros fp. repeat constructor. Qed.

Lemma skeleton_rows_path ds :
  Forall (fun r => ∃ i, row_path r = skeleton_path i) (skeleton_rows ds).
Proof.
  unfold skeleton_rows. apply Forall_flat_map_rows. intros it.
  eapply Forall_impl; [apply skeleton_track_rows_path|]. simpl. eauto.
Qed.

Lemma camera_rows_path X ds :
  Forall (fun r => row_path r = "world/camera/image" ∨ row_path r = "world/camera")
         (camera_rows X ds).
Proof.
  unfold camera_rows. apply Forall_flat_map_rows. intros f. unfold camera_frame_rows.
  destruct (camera_component X ds f) as [[pin pose]|]; [|constructor].
  constructor; [by left|]. constructor; [by right|]. constructor.
Qed.

Lemma phase_pass_rows_path X cfg ds log_dir q :
  Forall (fun r => row_path r = "world/camera" ∨ ∃ i, row_path r = phase_path q i)
         (phase_pass_rows X cfg ds log_dir q).
Proof.
  unfold phase_pass_rows. destruct (resolve_phase X ds log_dir q) as [[res|]|e];
    try constructor.
  unfold phase_rows. destruct (smpl_result X cfg ds res) as [out|e]; [|constructor].
  apply Forall_flat_map_rows. intros f. unfold phase_frame_rows.
  destruct (phase_camera_component X res f); [|constructor].
  constructor; [by left|]. apply Forall_flat_map_rows. intros it.
  unfold phase_track_rows. destruct (phase_track_component _ _ _ _ _); [|constructor].
  constructor; [|constructor]. right. by eexists.
Qed.

Lemma events_at_by_path rows (P : string → Prop) path f :
  Forall (fun r => P (row_path r)) rows → ¬ P path → events_at rows path f = [].
Proof.
  intros Hrows Hno. apply events_at_none. eapply Forall_impl; [exact Hrows|].
  simpl. intros r Hr [Hp _]. by rewrite Hp in Hr.
Qed.

(** The visibility gate's decision, read off the component of a track at a frame. *)
Lemma phase_track_component_gate X ds out f i c :
  phase_track_component X ds out f i = Some c →
  ∃ code, vis_mask ds !! i ≫= (.!! f) = Some code ∧
    ((0 ≤ code)%Z →
       ∃ verts, smpl_vertices out !! i ≫= (.!! f) = Some verts ∧
                c = Mesh verts (smpl_faces out) (vertex_normals X verts (smpl_faces out))) ∧
    ((code < 0)%Z → c = Cleared).
Proof.
  unfold phase_track_component. intros Hc.
  destruct (vis_mask ds !! i) as [vis_i|]; [|done]. simpl in Hc |- *.
  destruct (vis_i !! f) as [code|]; [|done]. simpl in Hc.
  exists code. split; [done|]. case_bool_decide.
  - split; [|lia]. intros _.
    destruct (smpl_vertices out !! i) as [verts_i|]; [|done]. simpl in Hc |- *.
    destruct (verts_i !! f) as [verts|]; [|done]. simpl in Hc.
    exists verts. split; [done|]. congruence.
  - split; [lia|]. intros _. congruence.
Qed.

(** X12 (meshes in the final recording). In the recording of a completed
    run whose requested phase names are pairwise different, every processed
    phase, track and frame has exactly one event at the phase's mesh path of
    the track under the frame's key, across all passes: the mesh when the
    visibility code is non-negative, a clear when it is negative.  A later
    phase never overwrites the meshes of an earlier one. *)
Theorem each_mesh_logged_once X cfg ds log_dir dev phases opts w w' :
  log_to_rerun X cfg ds log_dir dev phases opts w = (Ok tt, w') →
  NoDup phases →
  ∀ p res, p ∈ phases → resolve_phase X ds log_dir p = Ok (Some res) →
    ∃ out, smpl_result X cfg ds res = Ok out ∧
      ∀ i f, i < length (track_ids ds) → f < seq_len ds →
        ∃ code, vis_mask ds !! i ≫= (.!! f) = Some code ∧
          ((0 ≤ code)%Z →
             ∃ verts, smpl_vertices out !! i ≫= (.!! f) = Some verts ∧
               events_at (rr_rows w') (phase_path p i) f
               = [Mesh verts (smpl_faces out)
                       (vertex_normals X verts (smpl_faces out))]) ∧
          ((code < 0)%Z → events_at (rr_rows w') (phase_path p i) f = [Cleared]).
Proof.
  intros H Hnd p res Hp Hres.
  apply log_to_rerun_rows in H as (Hrows & _ & _ & Hok).
  rewrite Forall_forall in Hok. destruct (Hok p Hp res Hres) as (out & Hs & Hframes).
  exists out. split; [done|]. intros i f Hi Hf.
  destruct (Hframes f Hf) as [Hcam Htracks]. destruct (Htracks i Hi) as [c Hc].
  assert (events_at (rr_rows w') (phase_path p i) f = [c]) as Hev.
  { rewrite Hrows.
    rewrite events_at_cons_miss by (simpl; intros [? _]; discriminate).
    rewrite !events_at_app.
    rewrite (events_at_by_path (input_rows ds) (fun s => s = "world/camera/image"));
      [|apply input_rows_path|unfold phase_path; simpl; discriminate].
    rewrite (events_at_by_path (skeleton_rows ds) (fun s => ∃ j, s = skeleton_path j));
      [|apply skeleton_rows_path
       |intros [j Hj]; unfold phase_path, skeleton_path in Hj; simpl in Hj; discriminate].
    rewrite (events_at_by_path (camera_rows X ds)
               (fun s => s = "world/camera/image" ∨ s = "world/camera"));
      [|apply camera_rows_path
       |unfold phase_path; simpl; intros [?|?]; discriminate].
    simpl.
    rewrite (events_at_flat_map_nodup _ phases p); [|done|done|].
    - unfold phase_pass_rows, phase_rows, range. rewrite Hres, Hs.
      by apply events_at_phase_track.
    - intros q _ Hq.
      apply (events_at_by_path _ (fun s => s = "world/camera" ∨ ∃ j, s = phase_path q j));
        [apply phase_pass_rows_path|].
      intros [Hcamera|[j Hj]].
      + by apply phase_path_not_camera in Hcamera.
      + apply phase_path_inj_joint in Hj as [-> _]. done. }
  destruct (phase_track_component_gate _ _ _ _ _ _ Hc) as (code & Hcode & Hpos & Hneg).
  exists code. split; [done|]. split.
  - intros Hge. destruct (Hpos Hge) as (verts & Hv & ->). exists verts. by rewrite Hev.
  - intros Hlt. by rewrite Hev, (Hneg Hlt).
Qed.

(** The end-to-end scenario with two phases and a missing one: in the final
    recording track 0 of ["motion_chunks"] is cleared at frame 1 and track 1
    is rendered at frame 2. *)
Lemma each_mesh_logged_once_witness :
  log_to_rerun ex_X ex_cfg ex_ds "logs/a" (PyInt 0) ["input"; "nope"; "motion_chunks"]
               ex_opts ex_world
  = (Ok tt, (log_to_rerun ex_X ex_cfg ex_ds "logs/a" (PyInt 0)
                          ["input"; "nope"; "motion_chunks"] ex_opts ex_world).2) ∧
  NoDup ["input"; "nope"; "motion_chunks"] ∧
  events_at (rr_rows (log_to_rerun ex_X ex_cfg ex_ds "logs/a" (PyInt 0)
                                   ["input"; "nope"; "motion_chunks"] ex_opts ex_world).2)
            (phase_path "motion_chunks" 0) 1 = [Cleared] ∧
  events_at (rr_rows (log_to_rerun ex_X ex_cfg ex_ds "logs/a" (PyInt 0)
                                   ["input"; "nope"; "motion_chunks"] ex_opts ex_world).2)
            (phase_path "motion_chunks" 1) 2
  = [Mesh [[5%float]] [[0; 1; 2]%Z] [[5%float]]].
Proof.
  assert (log_to_rerun ex_X ex_cfg ex_ds "logs/a" (PyInt 0)
                       ["input"; "nope"; "motion_chunks"] ex_opts ex_world
          = (Ok tt, (log_to_rerun ex_X ex_cfg ex_ds "logs/a" (PyInt 0)
                                  ["input"; "nope"; "motion_chunks"] ex_opts ex_world).2))
    as Hrun by (vm_compute; reflexivity).
  assert (NoDup ["input"; "nope"; "motion_chunks"]) as Hnd.
  { repeat constructor; rewrite ?elem_of_cons, ?elem_of_nil; intuition discriminate. }
  split; [exact Hrun|]. split; [exact Hnd|].
  assert ("motion_chunks" ∈ ["input"; "nope"; "motion_chunks"]) as Hin
    by (rewrite !elem_of_cons; auto).
  destruct (each_mesh_logged_once _ _ _ _ _ _ _ _ _ Hrun Hnd "motion_chunks" ex_res Hin)
    as (out & Hs & Hall); [vm_compute; reflexivity|].
  vm_compute in Hs. inversion Hs; subst out. split.
  - destruct (Hall 0 1) as (code & Hc & _ & Hneg); [simpl; lia..|].
    vm_compute in Hc. inversion Hc; subst code. apply Hneg. lia.
  - destruct (Hall 1 2) as (code & Hc & Hpos & _); [simpl; lia..|].
    vm_compute in Hc. inversion Hc; subst code.
    destruct Hpos as (verts & Hv & Hev); [lia|].
    vm_compute in Hv. inversion Hv; subst verts. exact Hev.
Defined.

(** X13 (skeletons in the final recording). In the recording of a completed
    run, whatever phases were requested, every track and frame has exactly
    one event at the track's skeleton path under the frame's key: no other
    pass logs there.  It is a clear when no candidate segment has both
    endpoint confidences above 0.3 (in the precision of the keypoint array),
    and otherwise the two endpoints [(x, y)] of every such segment, in the
    order of the edge table. *)
Theorem skeleton_in_final_recording X cfg ds log_dir dev phases opts w w' :
  log_to_rerun X cfg ds log_dir dev phases opts w = (Ok tt, w') →
  let thr := match joints2d_dtype ds with
             | Float16 => 0x1.334p-2
             | Float32 => 0x1.333334p-2
             | Float64 => 0.3
             end%float in
  ∀ i js f fj,
    i < length (track_ids ds) → joints2d ds !! i = Some js → js !! f = Some fj →
    ∃ segs, segment_joints fj = Some segs ∧
      (Forall (fun s => segment_kept thr s = false) segs →
         events_at (rr_rows w') (skeleton_path i) f = [Cleared]) ∧
      (Exists (fun s => segment_kept thr s = true) segs →
         events_at (rr_rows w') (skeleton_path i) f
         = [LineSegments (kept_points thr segs)]).
Proof.
  intros H thr i js f fj Hi Hjs Hf.
  assert (thr = conf_threshold (joints2d_dtype ds)) as Hthr
    by (unfold thr; by destruct (joints2d_dtype ds)).
  clearbody thr. subst thr.
  apply log_to_rerun_rows in H as (Hrows & Hsk & _ & _).
  destruct (Hsk i Hi) as (js' & Hjs' & Hframes).
  assert (js' = js) as -> by congruence.
  destruct (Hframes f fj Hf) as [segs Hsegs]. exists segs. split; [done|].
  apply skeleton_event_kept.
  rewrite Hrows.
  rewrite events_at_cons_miss by (simpl; intros [? _]; discriminate).
  rewrite !events_at_app.
  rewrite (events_at_by_path (input_rows ds) (fun s => s = "world/camera/image"));
    [|apply input_rows_path|unfold skeleton_path; simpl; discriminate].
  rewrite (events_at_skeleton ds i js f fj segs Hi Hjs Hf Hsegs).
  rewrite (events_at_by_path (camera_rows X ds)
             (fun s => s = "world/camera/image" ∨ s = "world/camera"));
    [|apply camera_rows_path
     |unfold skeleton_path; simpl; intros [?|?]; discriminate].
  rewrite events_at_flat_map_none; [done|].
  apply Forall_forall. intros q _.
  apply (events_at_by_path _ (fun s => s = "world/camera" ∨ ∃ j, s = phase_path q j));
    [apply phase_pass_rows_path|].
  unfold skeleton_path, phase_path. simpl. intros [?|[j ?]]; discriminate.
Qed.

(** One track over two frames with two processed phases: in the final
    recording the overlay of frame 0 holds the six endpoints of the three
    surviving edges, and the overlay of frame 1 is cleared. *)
Lemma skeleton_in_final_recording_witness :
  log_to_rerun ex_X ex_cfg ex_ds_skeleton "logs/a" (PyInt 0) ["input"; "motion_chunks"]
               ex_opts ex_world
  = (Ok tt, (log_to_rerun ex_X ex_cfg ex_ds_skeleton "logs/a" (PyInt 0)
                          ["input"; "motion_chunks"] ex_opts ex_world).2) ∧
  events_at (rr_rows (log_to_rerun ex_X ex_cfg ex_ds_skeleton "logs/a" (PyInt 0)
                                   ["input"; "motion_chunks"] ex_opts ex_world).2)
            (skeleton_path 0) 0
  = [LineSegments [(16, 160); (15, 150); (0, 0); (16, 160); (0, 0); (15, 150)]%float] ∧
  events_at (rr_rows (log_to_rerun ex_X ex_cfg ex_ds_skeleton "logs/a" (PyInt 0)
                                   ["input"; "motion_chunks"] ex_opts ex_world).2)
            (skeleton_path 0) 1 = [Cleared].
Proof.
  assert (log_to_rerun ex_X ex_cfg ex_ds_skeleton "logs/a" (PyInt 0)
                       ["input"; "motion_chunks"] ex_opts ex_world
          = (Ok tt, (log_to_rerun ex_X ex_cfg ex_ds_skeleton "logs/a" (PyInt 0)
                                  ["input"; "motion_chunks"] ex_opts ex_world).2))
    as Hrun by (vm_compute; reflexivity).
  split; [exact Hrun|]. split.
  - destruct (skeleton_in_final_recording _ _ _ _ _ _ _ _ _ Hrun 0
                [ex_frame_marked; ex_frame_zero] 0 ex_frame_marked)
      as (segs & Hsegs & _ & Hline); [simpl; lia|reflexivity|reflexivity|].
    assert (segs = default [] (segment_joints ex_frame_marked)) as ->.
    { rewrite Hsegs. reflexivity. }
    rewrite Hline; [vm_compute; reflexivity|].
    apply Exists_exists.
    exists ((16, 160, 0.9), (15, 150, 0.9))%float. split; [|vm_compute; reflexivity].
    apply list_elem_of_lookup. exists 12. vm_compute. reflexivity.
  - destruct (skeleton_in_final_recording _ _ _ _ _ _ _ _ _ Hrun 0
                [ex_frame_marked; ex_frame_zero] 1 ex_frame_zero)
      as (segs & Hsegs & Hclear & _); [simpl; lia|reflexivity|reflexivity|].
    apply Hclear.
    assert (segs = default [] (segment_joints ex_frame_zero)) as ->.
    { rewrite Hsegs. reflexivity. }
    apply Forall_forall. intros s Hs.
    assert (s = (ex_joint 0, ex_joint 0)%float) as ->.
    { apply list_elem_of_lookup in Hs as [k Hk].
      apply list_elem_of_lookup_2 in Hk.
      change (s ∈ replicate 19 (ex_joint 0, ex_joint 0)%float) in Hk.
      by apply elem_of_replicate in Hk as [-> _]. }
    vm_compute. reflexivity.
Defined.

(** X14 (camera without phases). When every requested phase was skipped (or
    none was requested), the only pose logged at ["world/camera"] for a
    frame in a completed run is the defining camera's, built from
    [cam_t[f]] and [cam_R[f]]; it is what the recording shows. *)
Theorem defining_camera_shown_without_phases X cfg ds log_dir dev phases opts w w' :
  log_to_rerun X cfg ds log_dir dev phases opts w = (Ok tt, w') →
  Forall (fun q => resolve_phase X ds log_dir q = Ok None) phases →
  ∀ f, f < seq_len ds →
    ∃ t R q, cam_t (get_camera_data ds) !! f = Some t ∧
             cam_R (get_camera_data ds) !! f = Some R ∧
             rotation_as_quat X R = Ok q ∧
             events_at (rr_rows w') "world/camera" f = [Rigid3 t q "RDF"] ∧
             latest_at (rr_rows w') "world/camera" f = Some (Rigid3 t q "RDF").
Proof.
  intros H Hskip f Hf.
  apply log_to_rerun_rows in H as (Hrows & _ & Hcam & _).
  destruct (Hcam f Hf) as [[pin pose] Hc].
  assert (events_at (rr_rows w') "world/camera" f = [pose]) as Hev.
  { rewrite Hrows, (flat_map_skipped _ _ _ _ _ Hskip), app_nil_r.
    rewrite events_at_cons_miss by (simpl; intros [? _]; discriminate).
    rewrite !events_at_app.
    rewrite (events_at_by_path (input_rows ds) (fun s => s = "world/camera/image"));
      [|apply input_rows_path|discriminate].
    rewrite (events_at_by_path (skeleton_rows ds) (fun s => ∃ j, s = skeleton_path j));
      [|apply skeleton_rows_path
       |intros [j Hj]; unfold skeleton_path in Hj; simpl in Hj; discriminate].
    simpl. by eapply events_at_camera. }
  unfold latest_at. rewrite Hev. simpl.
  unfold camera_component in Hc.
  destruct (cam_t (get_camera_data ds) !! f) as [t|]; [|done]. simpl in Hc.
  destruct (cam_R (get_camera_data ds) !! f) as [R|]; [|done]. simpl in Hc.
  destruct (rotation_as_quat X R) as [q|e] eqn:Hq; [|done]. simpl in Hc.
  destruct (intrins (get_camera_data ds) !! f) as [[[[fx fy] cx] cy]|]; [|done].
  simpl in Hc. inversion Hc; subst. by exists t, R, q.
Qed.

(** The scenario with only a missing phase requested. *)
Lemma defining_camera_shown_without_phases_witness :
  log_to_rerun ex_X ex_cfg ex_ds "logs/a" (PyInt 0) ["nope"] ex_opts ex_world
  = (Ok tt, (log_to_rerun ex_X ex_cfg ex_ds "logs/a" (PyInt 0) ["nope"] ex_opts
                          ex_world).2) ∧
  Forall (fun q => resolve_phase ex_X ex_ds "logs/a" q = Ok None) ["nope"] ∧
  latest_at (rr_rows (log_to_rerun ex_X ex_cfg ex_ds "logs/a" (PyInt 0) ["nope"] ex_opts
                                   ex_world).2) "world/camera" 1
  = Some (Rigid3 [1%float; 0%float; 0%float] [2%float] "RDF").
Proof.
  assert (log_to_rerun ex_X ex_cfg ex_ds "logs/a" (PyInt 0) ["nope"] ex_opts ex_world
          = (Ok tt, (log_to_rerun ex_X ex_cfg ex_ds "logs/a" (PyInt 0) ["nope"] ex_opts
                                  ex_world).2)) as Hrun
    by (vm_compute; reflexivity).
  assert (Forall (fun q => resolve_phase ex_X ex_ds "logs/a" q = Ok None) ["nope"]) as Hskip
    by (repeat constructor).
  split; [exact Hrun|]. split; [exact Hskip|].
  destruct (defining_camera_shown_without_phases _ _ _ _ _ _ _ _ _ Hrun Hskip 1)
    as (t & R & q & Ht & HR & Hq & _ & Hl); [simpl; lia|].
  vm_compute in Ht, HR. inversion Ht; inversion HR; subst t R.
  vm_compute in Hq. inversion Hq; subst q. exact Hl.
Defined.

(** ** NaN confidences *)

Lemma np_min_nan a b :
  PrimFloat.is_nan a || PrimFloat.is_nan b = true → PrimFloat.is_nan (np_min a b) = true.
Proof.
  unfold np_min. destruct (PrimFloat.is_nan a) eqn:Ha; [done|].
  destruct (PrimFloat.is_nan b) eqn:Hb; done.
Qed.

(** X15 (NaN confidences). A NaN endpoint confidence makes the segment's
    confidence NaN, and NaN is not above the threshold: such a segment is
    never kept, whatever the other endpoint and the precision of the array
    are; a frame all of whose joints have NaN confidence keeps no segment. *)
Theorem nan_confidence_is_dropped (dt : float_dtype) (a b : float)
    (l1 l2 : list (joint * joint)) (s : joint * joint) (frame_joints : list joint) :
  (PrimFloat.is_nan a || PrimFloat.is_nan b = true →
   PrimFloat.is_nan (np_min a b) = true ∧
   PrimFloat.ltb (conf_threshold dt) (np_min a b) = false) ∧
  (PrimFloat.is_nan (joint_conf s.1) || PrimFloat.is_nan (joint_conf s.2) = true →
   good_joints_xy dt (l1 ++ s :: l2) = good_joints_xy dt l1 ++ good_joints_xy dt l2) ∧
  (∀ segs, segment_joints frame_joints = Some segs →
     Forall (fun j => PrimFloat.is_nan (joint_conf j) = true) frame_joints →
     good_joints_xy dt segs = []).
Proof.
  split; [|split].
  - intros Hnan%np_min_nan. split; [done|]. by apply ltb_nan_r.
  - intros Hnan%np_min_nan.
    rewrite good_joints_xy_app. f_equal.
    change (s :: l2) with ([s] ++ l2). rewrite good_joints_xy_app.
    unfold good_joints_xy at 1. simpl. by rewrite (ltb_nan_r _ _ Hnan).
  - intros segs Hsegs Hall. apply (good_joints_xy_none dt frame_joints); [done|].
    rewrite Forall_forall in Hall. intros j Hj. apply ltb_nan_r. by apply Hall.
Qed.

(** ** Discovery stays under the root *)








(** ** Which exceptions the passes raise *)

Lemma log_phase_track_raises X ds phase vertices faces f i w e w' :
  log_phase_track X ds phase vertices faces f i w = (Raise e, w') → e = IndexError.
Proof.
  unfold log_phase_track, bind, index, ret, raise, rr_log.
  destruct (vis_mask ds !! i) as [vis_i|]; [|by intros [= <- _]].
  destruct (vis_i !! f) as [code|]; [|by intros [= <- _]].
  case_bool_decide; [|done].
  destruct (vertices !! i) as [verts_i|]; [|by intros [= <- _]].
  destruct (verts_i !! f) as [verts|]; [done|by intros [= <- _]].
Qed.

Lemma log_phase_frame_raises X ds phase res vertices faces f w e w' :
  log_phase_frame X ds phase res vertices faces f w = (Raise e, w') →
  e = IndexError ∨
  ∃ R, res_cam_R res !! 1 ≫= (.!! f) = Some R ∧ rotation_as_quat X R = Raise e.
Proof.
  unfold log_phase_frame. unfold bind at 1. unfold rr_set_time_sequence at 1.
  unfold bind at 1. unfold index at 1.
  destruct (res_cam_t res !! 1) as [t1|]; [|intros [= <- _]; by left].
  unfold ret at 1. unfold bind at 1. unfold index at 1.
  destruct (t1 !! f) as [t|]; [|intros [= <- _]; by left].
  unfold ret at 1. unfold bind at 1. unfold index at 1.
  destruct (res_cam_R res !! 1) as [R1|]; [|intros [= <- _]; by left].
  unfold ret at 1. unfold bind at 1. unfold index at 1. simpl.
  destruct (R1 !! f) as [R|]; [|intros [= <- _]; by left].
  unfold ret at 1. unfold bind at 1. unfold lift at 1.
  destruct (rotation_as_quat X R) as [q|e0] eqn:Hq.
  2:{ intros [= <- _]. right. by exists R. }
  unfold bind at 1. unfold rr_log at 1.
  intros H. apply for_each_raise_inv in H as (l1 & it & l2 & w1 & _ & _ & Hit).
  left. by apply log_phase_track_raises in Hit.
Qed.

Lemma log_skeleton_frame_raises dt i f fj w e w' :
  log_skeleton_frame dt i f fj w = (Raise e, w') → e = IndexError.
Proof.
  unfold log_skeleton_frame, bind, ret, raise, rr_set_time_sequence, rr_log.
  destruct (segment_joints fj); [|by intros [= <- _]].
  by case_bool_decide.
Qed.

(** X17 (exceptions of the passes). When [log_phase_result] raises, either
    the body model raised that exception and nothing has changed, or the
    body model evaluated and the exception is an [IndexError] of an array
    read or the exception the rotation conversion raised on the matrix
    [cam_R[1, f]] of some frame; in all cases nothing was printed and no
    file, environment variable, directory or pool was touched.  The skeleton
    pass raises nothing but [IndexError]. *)
Theorem exceptions_of_the_passes X cfg ds dev phase res w e w' :
  log_phase_result X cfg ds dev phase res w = (Raise e, w') →
  ((smpl_result X cfg ds res = Raise e ∧ w' = w) ∨
   ((∃ out, smpl_result X cfg ds res = Ok out) ∧
    (e = IndexError ∨
     ∃ f R, f < seq_len ds ∧ res_cam_R res !! 1 ≫= (.!! f) = Some R ∧
            rotation_as_quat X R = Raise e))) ∧
  same_outputs_and_stdout w w' ∧
  (∀ v e0 v', log_skeleton_2d ds v = (Raise e0, v') → e0 = IndexError).
Proof.
  intros H. split; [|split].
  - unfold log_phase_result, bind, lift in H. unfold smpl_result.
    destruct (load_smpl_body_model X _ _) as [bm|e0]; [|left; by inversion H].
    destruct (run_smpl X bm _ _ _ _) as [out|e0]; [|left; by inversion H].
    right. split; [eauto|].
    apply for_each_raise_inv in H as (l1 & f & l2 & w1 & Hl & _ & Hf).
    apply log_phase_frame_raises in Hf as [->|(R & HR & He)]; [by left|].
    right. exists f, R. split; [|done].
    assert (f ∈ range (seq_len ds)) as Hin.
    { rewrite Hl. apply elem_of_app. right. apply list_elem_of_here. }
    apply elem_of_seq in Hin. lia.
  - pose proof (preserves_log_phase_result same_outputs_and_stdout
                  same_outputs_and_stdout_refl same_outputs_and_stdout_trans) as Hpres.
    specialize (Hpres ltac:(intros; split; [done|unfold same_outputs; simpl; tauto])
                      X cfg ds dev phase res w).
    by rewrite H in Hpres.
  - intros v e0 v' Hsk. unfold log_skeleton_2d in Hsk.
    apply for_each_raise_inv in Hsk as (l1 & it & l2 & v1 & _ & _ & Hit).
    unfold bind, index in Hit.
    destruct (joints2d ds !! it.1) as [js|]; [|by inversion Hit].
    unfold ret in Hit.
    apply for_each_raise_inv in Hit as (l3 & ff & l4 & v2 & _ & _ & Hff).
    by apply log_skeleton_frame_raises in Hff.
Qed.

(** The scenario with a phase result whose rotation matrix at [[1, 1]] is no
    rotation: the pass raises the conversion's [ValueError] at frame 1, after
    the three rows of frame 0. *)
Lemma exceptions_of_the_passes_witness :
  log_phase_result ex_X ex_cfg ex_ds (PyInt 0) "motion_chunks" ex_res_bad_rotation ex_world
  = (Raise ValueError,
     (log_phase_result ex_X ex_cfg ex_ds (PyInt 0) "motion_chunks" ex_res_bad_rotation
                       ex_world).2) ∧
  rr_time (log_phase_result ex_X ex_cfg ex_ds (PyInt 0) "motion_chunks"
                            ex_res_bad_rotation ex_world).2 = Some 1 ∧
  length (rr_rows (log_phase_result ex_X ex_cfg ex_ds (PyInt 0) "motion_chunks"
                                    ex_res_bad_rotation ex_world).2) = 3 ∧
  same_outputs_and_stdout
    ex_world
    (log_phase_result ex_X ex_cfg ex_ds (PyInt 0) "motion_chunks" ex_res_bad_rotation
                      ex_world).2.
Proof.
  assert (log_phase_result ex_X ex_cfg ex_ds (PyInt 0) "motion_chunks" ex_res_bad_rotation
                           ex_world
          = (Raise ValueError,
             (log_phase_result ex_X ex_cfg ex_ds (PyInt 0) "motion_chunks"
                               ex_res_bad_rotation ex_world).2)) as Hrun
    by (vm_compute; reflexivity).
  split; [exact Hrun|]. split; [vm_compute; reflexivity|].
  split; [vm_compute; reflexivity|].
  exact (proj1 (proj2 (exceptions_of_the_passes _ _ _ _ _ _ _ _ _ Hrun))).
Defined.

(** ** When a run completes *)

Lemma log_phase_completes_iff X cfg ds log_dir dev p w :
  phase_resolves_ok X cfg ds log_dir p ↔
  ∃ w', log_phase X cfg ds log_dir dev p w = (Ok tt, w').
Proof.
  unfold phase_resolves_ok. rewrite log_phase_resolve.
  destruct (resolve_phase X ds log_dir p) as [[res|]|e].
  - split; [apply log_phase_result_completes|].
    intros [w' H]. by apply log_phase_result_rows in H as [_ Hok].
  - split; [|done]. intros _. by eexists.
  - split; [done|]. by intros [w' H].
Qed.

Lemma log_to_rerun_completes_iff X cfg ds log_dir dev phases opts w :
  run_ok X cfg ds log_dir phases ↔
  ∃ w', log_to_rerun X cfg ds log_dir dev phases opts w = (Ok tt, w').
Proof.
  split.
  - intros (Hsk & Hcam & Hph). unfold log_to_rerun, bind.
    unfold rr_init at 1. unfold rr_log_timeless at 1.
    match goal with |- context [log_input_frames ds ?v] =>
      destruct (for_each_completes
                  (fun fp => rr_set_time_sequence fp.1 ;;
                             rr_log "world/camera/image" (ImageFile fp.2))
                  (enumerate (sel_img_paths ds)) v) as [w3 H3];
        [intros x _ w1; by eexists|]
    end.
    unfold log_input_frames at 1. rewrite H3.
    destruct (log_skeleton_2d_completes ds w3 Hsk) as [w4 H4]. rewrite H4.
    assert (∃ w5, log_camera X ds w4 = (Ok tt, w5)) as [w5 H5].
    { apply for_each_completes. intros f Hf%elem_of_seq v.
      apply log_camera_frame_completes, Hcam. lia. }
    rewrite H5. apply for_each_completes. intros p Hp v.
    rewrite Forall_forall in Hph. by apply log_phase_completes_iff, Hph.
  - intros [w' H]. unfold log_to_rerun in H.
    apply bind_ok in H as ([] & w1 & _ & H).
    apply bind_ok in H as ([] & w2 & _ & H).
    apply bind_ok in H as ([] & w3 & _ & H).
    apply bind_ok in H as ([] & w4 & [_ Hsk]%log_skeleton_2d_rows & H).
    apply bind_ok in H as ([] & w5 & [_ Hcam]%log_camera_rows & H).
    split; [done|]. split; [done|].
    apply (for_each_emitted _ (phase_pass_rows X cfg ds log_dir)
             (phase_resolves_ok X cfg ds log_dir) (fun _ => True))
      in H as (_ & Hall & _); [done|done|].
    intros p wa wb _ Hb. split; [by apply log_phase_rows in Hb as [? _]|].
    split; [|done]. apply (log_phase_completes_iff X cfg ds log_dir dev p wa). eauto.
Qed.

(** ** The environment of a launched run *)

Lemma log_to_rrd_keeps_environment X log_dir dev phases save_dir opts w :
  environ (log_to_rrd X log_dir dev phases save_dir opts w).2 = environ w ∧
  made_dirs (log_to_rrd X log_dir dev phases save_dir opts w).2 = made_dirs w.
Proof.
  unfold log_to_rrd, bind, lift, print. simpl.
  destruct (load_config_from_log X log_dir) as [cfg|e0]; simpl; [|done].
  destruct (get_dataset_from_cfg X _) as [ds|e0]; simpl; [|done].
  case_bool_decide; simpl; [done|].
  match goal with
  | |- context [log_to_rerun ?a ?b ?c ?d ?e ?f ?g ?v] =>
      pose proof (log_to_rerun_same_outputs a b c d e f g v) as Hsame;
      destruct (log_to_rerun a b c d e f g v) as [[[]|e0] w1]
  end; simpl in *; destruct Hsame as (_ & He & Hm & _); done.
Qed.

(** X19 (device selection). Once [launch_rerun_vis] has a run directory and
    a device, the environment it leaves, whether the run completes or
    raises, selects that device: [EGL_DEVICE_ID] holds the device's string,
    [PYOPENGL_PLATFORM] holds ["egl"], and no other variable has changed;
    a later run in the same process overwrites both.  With a non-empty
    [log_root] exactly one directory was made, the run's output directory,
    which is the run directory itself when no [save_root] is given. *)
Theorem launch_selects_device X i args w log_dir dev :
  log_dirs args !! i = Some log_dir →
  gpus args !! (i mod length (gpus args)) = Some dev →
  environ (launch_rerun_vis X i args w).2
  = <["PYOPENGL_PLATFORM" := "egl"]> (<["EGL_DEVICE_ID" := py_str dev]> (environ w)) ∧
  environ (launch_rerun_vis X i args w).2 !! "EGL_DEVICE_ID" = Some (py_str dev) ∧
  environ (launch_rerun_vis X i args w).2 !! "PYOPENGL_PLATFORM" = Some "egl" ∧
  (∀ k, k ≠ "EGL_DEVICE_ID" → k ≠ "PYOPENGL_PLATFORM" →
        environ (launch_rerun_vis X i args w).2 !! k = environ w !! k) ∧
  (log_root args ≠ "" →
   made_dirs (launch_rerun_vis X i args w).2
   = made_dirs w ++ [launch_save_dir args log_dir]) ∧
  (save_root args = None → launch_save_dir args log_dir = log_dir).
Proof.
  intros Hdir Hdev.
  assert (length (gpus args) ≠ 0) as Hlen.
  { intros H0. destruct (gpus args); [done|discriminate]. }
  assert (environ (launch_rerun_vis X i args w).2
          = <["PYOPENGL_PLATFORM" := "egl"]> (<["EGL_DEVICE_ID" := py_str dev]> (environ w))
          ∧ (log_root args ≠ "" →
             made_dirs (launch_rerun_vis X i args w).2
             = made_dirs w ++ [launch_save_dir args log_dir])) as [Henv Hdirs].
  { unfold launch_rerun_vis, bind, index. rewrite Hdir. simpl.
    rewrite bool_decide_false by done. rewrite Hdev. simpl.
    unfold py_split. case_bool_decide as Hroot; simpl; [done|].
    match goal with
    | |- context [log_to_rrd ?a ?b ?c ?d ?e ?f ?v] =>
        destruct (log_to_rrd_keeps_environment a b c d e f v) as [He Hm]
    end.
    split; [exact He|]. intros _. exact Hm. }
  split; [exact Henv|]. rewrite Henv.
  split; [by rewrite lookup_insert_ne, lookup_insert_eq|].
  split; [by rewrite lookup_insert_eq|].
  split; [by intros k H1 H2; rewrite !lookup_insert_ne|].
  split; [exact Hdirs|].
  intros Hsave. unfold launch_save_dir. by rewrite Hsave.
Qed.

(** The first run of the scenario's tree on a device given as a string. *)
Lemma launch_selects_device_witness :
  log_dirs (set_log_dirs (ex_args [PyStr "3"]) ["logs/a"; "logs/b/c"; "logs/d"]) !! 0
  = Some "logs/a" ∧
  gpus (set_log_dirs (ex_args [PyStr "3"]) ["logs/a"; "logs/b/c"; "logs/d"])
    !! (0 mod length (gpus (set_log_dirs (ex_args [PyStr "3"])
                                        ["logs/a"; "logs/b/c"; "logs/d"])))
  = Some (PyStr "3") ∧
  environ (launch_rerun_vis ex_X 0
             (set_log_dirs (ex_args [PyStr "3"]) ["logs/a"; "logs/b/c"; "logs/d"])
             ex_world).2 !! "EGL_DEVICE_ID" = Some "3".
Proof.
  split; [reflexivity|]. split; [reflexivity|].
  exact (proj1 (proj2 (launch_selects_device ex_X 0
                         (set_log_dirs (ex_args [PyStr "3"])
                                       ["logs/a"; "logs/b/c"; "logs/d"])
                         ex_world "logs/a" (PyStr "3") eq_refl eq_refl))).
Defined.

(** ** A missing phase *)

Lemma for_each_log_phase_stdout X cfg ds log_dir dev l v v' :
  for_each l (log_phase X cfg ds log_dir dev) v = (Ok tt, v') →
  stdout v' = stdout v ++ skipped_lines X ds log_dir l.
Proof.
  revert v. induction l as [|p l IH]; intros v H; simpl in H.
  - unfold ret in H. inv_pair. by rewrite app_nil_r.
  - apply bind_ok in H as ([] & v1 & Hp%log_phase_stdout & Hl).
    rewrite skipped_lines_cons, app_assoc, <- Hp. by apply IH.
Qed.

(** What a completed run over a dataset with tracks has logged and saved. *)
Lemma log_to_rrd_completed X log_dir dev phases save_dir opts w w' cfg ds :
  load_config_from_log X log_dir = Ok cfg →
  get_dataset_from_cfg X (expanded X cfg) = Ok ds →
  1 ≤ dataset_len ds →
  log_to_rrd X log_dir dev phases save_dir opts w = (Ok tt, w') →
  rr_rows w' = run_rows X (expanded X cfg) ds log_dir phases ∧
  files w' = files w ++ [(path_join save_dir "log.rrd", rr_rows w')] ∧
  (∀ q, q ∈ phases → phase_resolves_ok X (expanded X cfg) ds log_dir q) ∧
  ∃ v v', for_each phases (log_phase X (expanded X cfg) ds log_dir dev) v = (Ok tt, v') ∧
          stdout w' = stdout v'.
Proof.
  intros Hcfg Hds Hlen H. unfold log_to_rrd in H.
  apply bind_ok in H as ([] & wa & Ha & H).
  apply bind_ok in H as (cfg' & ? & [Hcfg' ->]%lift_ok & H).
  assert (cfg' = cfg) as -> by congruence.
  apply bind_ok in H as ([] & wb & Hb & H).
  apply bind_ok in H as (ds' & ? & [Hds' ->]%lift_ok & H).
  fold (expanded X cfg) in Hds', H.
  assert (ds' = ds) as -> by congruence.
  rewrite bool_decide_false in H by lia.
  apply bind_ok in H as ([] & w1 & Hrun & Hsave).
  pose proof (log_to_rerun_same_outputs X (expanded X cfg) ds log_dir dev phases opts wb)
    as Hsame.
  rewrite Hrun in Hsame. destruct Hsame as (Hf & _). simpl in Hf.
  pose proof (proj2 (log_to_rerun_completes_iff X (expanded X cfg) ds log_dir dev phases
                       opts wb) (ex_intro _ w1 Hrun)) as (_ & _ & Hph).
  pose proof Hrun as Hrows. apply log_to_rerun_rows in Hrows as (Hrows & _).
  unfold rr_save in Hsave. unfold print in Ha, Hb. inv_pair. simpl in *.
  split; [exact Hrows|]. split; [by rewrite Hf|].
  split; [by apply Forall_forall|].
  unfold log_to_rerun in Hrun.
  apply bind_ok in Hrun as ([] & v1 & _ & Hrun).
  apply bind_ok in Hrun as ([] & v2 & _ & Hrun).
  apply bind_ok in Hrun as ([] & v3 & _ & Hrun).
  apply bind_ok in Hrun as ([] & v4 & _ & Hrun).
  apply bind_ok in Hrun as ([] & v5 & _ & Hrun).
  by exists v5, w1.
Qed.

Lemma phase_pass_rows_within X cfg ds log_dir phases q res :
  q ∈ phases → resolve_phase X ds log_dir q = Ok (Some res) →
  ∃ before after,
    run_rows X cfg ds log_dir phases = before ++ phase_rows X cfg ds q res ++ after.
Proof.
  intros Hq Hres. apply list_elem_of_split in Hq as (a & b & ->).
  unfold run_rows. rewrite flat_map_app. simpl.
  unfold phase_pass_rows at 2. rewrite Hres.
  exists (view_row :: input_rows ds ++ skeleton_rows ds ++ camera_rows X ds
            ++ flat_map (phase_pass_rows X cfg ds log_dir) a),
         (flat_map (phase_pass_rows X cfg ds log_dir) b).
  simpl. by rewrite <- !app_assoc.
Qed.

(** C6 (missing phase). For a requested phase other than ["input"] whose
    directory does not exist, the phase loop's body only prints the
    diagnostic and returns normally; the loop goes on with the phases after
    it; and the run ends exactly as the run without that phase does: same
    outcome, same recording, same saved files.  So when the run over the
    remaining phases completes for a dataset with tracks, the run with the
    missing phase completes as well: it has printed the diagnostic, every
    remaining phase was resolved and, when it has a result, processed with
    its rows in the recording, and the recording, which holds the rows of
    every pass over the remaining phases, was saved as [log.rrd] in the
    output directory. *)
Theorem missing_phase_is_skipped X log_dir dev l1 p l2 save_dir opts w :
  p ≠ "input" →
  isdir X (path_join log_dir p) = false →
  (∀ cfg ds v,
     log_phase X cfg ds log_dir dev p v
     = (Ok tt,
        World (rr_time v) (rr_rows v)
              (stdout v ++ [path_join log_dir p +:+ " does not exist, skipping"])
              (files v) (environ v) (made_dirs v) (pools v))) ∧
  (∀ cfg ds v,
     for_each (l1 ++ p :: l2) (log_phase X cfg ds log_dir dev) v
     = (for_each l1 (log_phase X cfg ds log_dir dev) ;;
        print (path_join log_dir p +:+ " does not exist, skipping") ;;
        for_each l2 (log_phase X cfg ds log_dir dev)) v) ∧
  (log_to_rrd X log_dir dev (l1 ++ p :: l2) save_dir opts w).1
  = (log_to_rrd X log_dir dev (l1 ++ l2) save_dir opts w).1 ∧
  same_recording (log_to_rrd X log_dir dev (l1 ++ p :: l2) save_dir opts w).2
                 (log_to_rrd X log_dir dev (l1 ++ l2) save_dir opts w).2 ∧
  (∀ cfg ds,
     load_config_from_log X log_dir = Ok cfg →
     get_dataset_from_cfg X (Config (paths_smpl cfg)
                                    (expand_source_paths X (data_sources cfg))) = Ok ds →
     1 ≤ dataset_len ds →
     (log_to_rrd X log_dir dev (l1 ++ l2) save_dir opts w).1 = Ok tt →
     ∃ w', log_to_rrd X log_dir dev (l1 ++ p :: l2) save_dir opts w = (Ok tt, w') ∧
       (path_join log_dir p +:+ " does not exist, skipping") ∈ stdout w' ∧
       rr_rows w'
       = view_row :: input_rows ds ++ skeleton_rows ds ++ camera_rows X ds
           ++ flat_map (phase_pass_rows
                          X (Config (paths_smpl cfg)
                                    (expand_source_paths X (data_sources cfg)))
                          ds log_dir) (l1 ++ l2) ∧
       (∀ q, q ∈ l1 ++ l2 →
          match resolve_phase X ds log_dir q with
          | Ok (Some res) =>
              ∃ before after,
                rr_rows w'
                = before
                    ++ phase_rows X (Config (paths_smpl cfg)
                                            (expand_source_paths X (data_sources cfg)))
                                  ds q res
                    ++ after
          | Ok None => True
          | Raise _ => False
          end) ∧
       files w' = files w ++ [(path_join save_dir "log.rrd", rr_rows w')]).
Proof.
  intros Hp Hdir.
  assert (∀ cfg ds v,
            log_phase X cfg ds log_dir dev p v
            = print (path_join log_dir p +:+ " does not exist, skipping") v) as Hskip.
  { intros cfg ds v. unfold log_phase. rewrite bool_decide_false by done.
    by rewrite Hdir. }
  assert (same_up_to_stdout (log_to_rrd X log_dir dev (l1 ++ p :: l2) save_dir opts)
                            (log_to_rrd X log_dir dev (l1 ++ l2) save_dir opts)) as Hsame.
  { unfold log_to_rrd.
    apply blind_bind; [apply blind_print|intros _].
    apply blind_bind; [apply blind_pure|intros cfg].
    apply blind_bind; [apply blind_print|intros _].
    apply blind_bind; [apply blind_pure|intros ds].
    case_bool_decide; [apply blind_print|].
    apply blind_bind; [|intros _; apply blind_save].
    unfold log_to_rerun.
    apply blind_bind; [apply blind_init|intros _].
    apply blind_bind; [apply blind_log_timeless|intros _].
    apply blind_bind; [apply blind_log_input_frames|intros _].
    apply blind_bind; [apply blind_log_skeleton_2d|intros _].
    apply blind_bind; [apply blind_log_camera|intros _].
    eapply for_each_skip; [intros q; apply blind_log_phase|apply Hskip]. }
  split; [|split; [|split; [|split]]].
  - intros cfg ds v. by rewrite Hskip.
  - intros cfg ds v. rewrite for_each_app. unfold bind.
    destruct (for_each l1 _ v) as [[[]|e] v1]; [|reflexivity].
    simpl. unfold bind. by rewrite Hskip.
  - exact (proj1 (Hsame w w (same_recording_refl w))).
  - exact (proj2 (Hsame w w (same_recording_refl w))).
  - intros cfg ds Hcfg Hds Hlen Hwithout.
    fold (expanded X cfg) in Hds |- *.
    pose proof (proj1 (Hsame w w (same_recording_refl w))) as Hout.
    rewrite Hwithout in Hout.
    destruct (log_to_rrd X log_dir dev (l1 ++ p :: l2) save_dir opts w) as [o w'] eqn:Hrun.
    simpl in Hout. subst o. exists w'. split; [done|].
    destruct (log_to_rrd_completed _ _ _ _ _ _ _ _ _ _ Hcfg Hds Hlen Hrun)
      as (Hrows & Hfiles & Hok & (v & v' & Hloop & Hstd)).
    assert (resolve_phase X ds log_dir p = Ok None) as Hnone.
    { unfold resolve_phase. rewrite bool_decide_false by done. by rewrite Hdir. }
    assert (run_rows X (expanded X cfg) ds log_dir (l1 ++ p :: l2)
            = run_rows X (expanded X cfg) ds log_dir (l1 ++ l2)) as Hsamerows.
    { unfold run_rows. rewrite !flat_map_app. simpl.
      unfold phase_pass_rows at 2. by rewrite Hnone. }
    split; [|split; [|split]].
    + rewrite Hstd.
      rewrite (for_each_log_phase_stdout _ _ _ _ _ _ _ _ Hloop).
      apply elem_of_app. right. unfold skipped_lines. rewrite flat_map_app.
      apply elem_of_app. right. simpl. rewrite Hnone. apply list_elem_of_here.
    + by rewrite Hrows, Hsamerows.
    + intros q Hq.
      assert (q ∈ l1 ++ p :: l2) as Hq'.
      { apply elem_of_app in Hq as [?|?]; apply elem_of_app; [by left|].
        right. by apply list_elem_of_further. }
      specialize (Hok q Hq'). unfold phase_resolves_ok in Hok.
      destruct (resolve_phase X ds log_dir q) as [[res|]|e] eqn:Hres; [|done|done].
      rewrite Hrows, Hsamerows. by apply phase_pass_rows_within.
    + exact Hfiles.
Qed.

(** A missing phase between two present ones: the run completes, has printed
    the diagnostic, and has saved a recording that holds the meshes of the
    phase before the missing one and of the phase after it. *)
Lemma missing_phase_is_skipped_witness :
  "nope" ≠ "input" ∧
  isdir ex_X (path_join "logs/a" "nope") = false ∧
  ∃ w', log_to_rrd ex_X "logs/a" (PyInt 0) (["motion_chunks"] ++ "nope" :: ["input"]) "out"
                   ex_opts ex_world = (Ok tt, w') ∧
    "logs/a/nope does not exist, skipping" ∈ stdout w' ∧
    files w' = [("out/log.rrd", rr_rows w')] ∧
    length (rr_rows w') = 34 ∧
    events_at (rr_rows w') (phase_path "motion_chunks" 1) 2
    = [Mesh [[5%float]] [[0; 1; 2]%Z] [[5%float]]] ∧
    events_at (rr_rows w') (phase_path "input" 0) 0
    = [Mesh [[0%float]] [[0; 1; 2]%Z] [[0%float]]].
Proof.
  assert ("nope" ≠ "input") as H1 by discriminate.
  assert (isdir ex_X (path_join "logs/a" "nope") = false) as H2
    by (vm_compute; reflexivity).
  split; [exact H1|]. split; [exact H2|].
  destruct (missing_phase_is_skipped ex_X "logs/a" (PyInt 0) ["motion_chunks"] "nope"
              ["input"] "out" ex_opts ex_world H1 H2) as (_ & _ & _ & _ & Hrun).
  destruct (Hrun ex_cfg ex_ds) as (w' & Hw' & Hline & Hrows & _ & Hfiles);
    [reflexivity|reflexivity|unfold dataset_len; simpl; lia|vm_compute; reflexivity|].
  exists w'. split; [exact Hw'|]. split; [exact Hline|]. split; [exact Hfiles|].
  rewrite Hrows. split; [vm_compute; reflexivity|].
  split; vm_compute; reflexivity.
Defined.

(** ** The outcome of a run does not depend on the process it runs in *)

Lemma oblivious_bind {A B} (m : M A) (k : A → M B) :
  oblivious m → (∀ a, oblivious (k a)) → oblivious (bind m k).
Proof.
  intros Hm Hk w1 w2. unfold bind. specialize (Hm w1 w2).
  destruct (m w1) as [[a1|e1] v1], (m w2) as [[a2|e2] v2]; simpl in Hm;
    try discriminate.
  - inversion Hm; subst. apply Hk.
  - simpl. by inversion Hm.
Qed.

Lemma oblivious_pure {A} (o : outcome A) : oblivious (fun w => (o, w)).
Proof. intros w1 w2. reflexivity. Qed.

Lemma oblivious_effect (g : world → world) : oblivious (fun w => (Ok tt, g w)).
Proof. intros w1 w2. reflexivity. Qed.

Lemma oblivious_index {A} (l : list A) i : oblivious (index l i).
Proof. unfold index. destruct (l !! i); apply oblivious_pure. Qed.

Lemma oblivious_getitem {V} (d : gmap string V) k : oblivious (getitem d k).
Proof. unfold getitem. destruct (d !! k); apply oblivious_pure. Qed.

Lemma oblivious_for_each {A} (body : A → M unit) l :
  (∀ x, oblivious (body x)) → oblivious (for_each l body).
Proof.
  intros Hbody. induction l as [|x l IH]; simpl; [apply oblivious_pure|].
  apply oblivious_bind; [apply Hbody|]. intros _. apply IH.
Qed.

Ltac oblivious_step :=
  first
    [ apply oblivious_bind; [|intros ?]
    | apply oblivious_for_each; intros ?
    | apply oblivious_index | apply oblivious_getitem | apply oblivious_pure
    | apply (oblivious_effect (fun w => _)) ].

Lemma oblivious_log_phase_result X cfg ds dev phase res :
  oblivious (log_phase_result X cfg ds dev phase res).
Proof.
  unfold log_phase_result, log_phase_frame, log_phase_track, lift,
    rr_set_time_sequence, rr_log.
  repeat oblivious_step. case_bool_decide; repeat oblivious_step.
Qed.

Lemma oblivious_log_phase X cfg ds log_dir dev phase :
  oblivious (log_phase X cfg ds log_dir dev phase).
Proof.
  intros w1 w2. rewrite !log_phase_resolve.
  destruct (resolve_phase X ds log_dir phase) as [[res|]|e]; [|done|done].
  apply oblivious_log_phase_result.
Qed.

Lemma oblivious_log_to_rerun X cfg ds log_dir dev phases opts :
  oblivious (log_to_rerun X cfg ds log_dir dev phases opts).
Proof.
  unfold log_to_rerun.
  apply oblivious_bind; [intros ? ?; reflexivity|intros _].
  apply oblivious_bind; [intros ? ?; reflexivity|intros _].
  apply oblivious_bind; [|intros _].
  { unfold log_input_frames, rr_set_time_sequence, rr_log. repeat oblivious_step. }
  apply oblivious_bind; [|intros _].
  { unfold log_skeleton_2d, log_skeleton_frame, rr_set_time_sequence, rr_log.
    repeat oblivious_step.
    - destruct (segment_joints _); apply oblivious_pure.
    - case_bool_decide; apply (oblivious_effect (fun w => _)). }
  apply oblivious_bind; [|intros _].
  { unfold log_camera, log_camera_frame, lift, rr_set_time_sequence, rr_log.
    repeat oblivious_step.
    match goal with k : (float * float * float * float)%type |- _ =>
      destruct k as [[[fx fy] cx] cy] end.
    destruct (img_size ds). repeat oblivious_step. }
  apply oblivious_for_each. intros p. apply oblivious_log_phase.
Qed.

Lemma oblivious_log_to_rrd X log_dir dev phases save_dir opts :
  oblivious (log_to_rrd X log_dir dev phases save_dir opts).
Proof.
  unfold log_to_rrd, lift.
  apply oblivious_bind; [intros ? ?; reflexivity|intros _].
  apply oblivious_bind; [apply oblivious_pure|intros cfg].
  apply oblivious_bind; [intros ? ?; reflexivity|intros _].
  apply oblivious_bind; [apply oblivious_pure|intros ds].
  case_bool_decide; [intros ? ?; reflexivity|].
  apply oblivious_bind; [apply oblivious_log_to_rerun|intros _].
  intros ? ?; reflexivity.
Qed.

Lemma oblivious_launch X i args : oblivious (launch_rerun_vis X i args).
Proof.
  unfold launch_rerun_vis.
  apply oblivious_bind; [apply oblivious_index|intros log_dir].
  apply oblivious_bind; [|intros dev].
  { case_bool_decide; [apply oblivious_pure|apply oblivious_index]. }
  apply oblivious_bind; [intros ? ?; reflexivity|intros _].
  apply oblivious_bind; [intros ? ?; reflexivity|intros _].
  apply oblivious_bind; [|intros pieces].
  { unfold py_split. case_bool_decide; apply oblivious_pure. }
  apply oblivious_bind; [intros ? ?; reflexivity|intros _].
  apply oblivious_log_to_rrd.
Qed.

(** ** What a launched run saves *)

Lemma launch_enters X i args w log_dir dev :
  log_dirs args !! i = Some log_dir →
  gpus args !! (i mod length (gpus args)) = Some dev →
  log_root args ≠ "" →
  launch_rerun_vis X i args w
  = log_to_rrd X log_dir dev (phases_arg args) (launch_save_dir args log_dir)
               (options args) (launched_world dev (launch_save_dir args log_dir) w).
Proof.
  intros Hdir Hdev Hroot.
  assert (length (gpus args) ≠ 0) as Hlen.
  { intros H0. destruct (gpus args); [done|discriminate]. }
  unfold launch_rerun_vis, bind, index. rewrite Hdir. simpl.
  rewrite bool_decide_false by done. rewrite Hdev. simpl.
  unfold py_split. rewrite bool_decide_false by done. reflexivity.
Qed.

Lemma launch_saves X i args v :
  (launch_rerun_vis X i args v).1 = Ok tt →
  files (launch_rerun_vis X i args v).2 = files v ++ run_files X args i.
Proof.
  unfold run_files.
  destruct (log_dirs args !! i) as [log_dir|] eqn:Hdir.
  2:{ unfold launch_rerun_vis, bind, index. rewrite Hdir. discriminate. }
  destruct (decide (length (gpus args) = 0)) as [Hz|Hnz].
  { unfold launch_rerun_vis, bind, index. rewrite Hdir. simpl.
    rewrite bool_decide_true by done. discriminate. }
  destruct (lookup_lt_is_Some_2 (gpus args) (i mod length (gpus args))) as [dev Hdev].
  { by apply Nat.mod_upper_bound. }
  destruct (decide (log_root args = "")) as [Hroot|Hroot].
  { unfold launch_rerun_vis, bind, index. rewrite Hdir. simpl.
    rewrite bool_decide_false by done. rewrite Hdev. simpl.
    unfold py_split. rewrite bool_decide_true by done. discriminate. }
  rewrite (launch_enters X i args v log_dir dev Hdir Hdev Hroot).
  set (v0 := launched_world dev (launch_save_dir args log_dir) v).
  change (files v) with (files v0).
  destruct (log_to_rrd X log_dir dev (phases_arg args) (launch_save_dir args log_dir)
                       (options args) v0) as [o w'] eqn:Hrun.
  simpl. intros ->.
  destruct (load_config_from_log X log_dir) as [cfg|e] eqn:Hcfg.
  2:{ unfold log_to_rrd, bind, lift, print in Hrun. rewrite Hcfg in Hrun. discriminate. }
  destruct (get_dataset_from_cfg X (expanded X cfg)) as [ds|e] eqn:Hds.
  2:{ unfold log_to_rrd, bind, lift, print in Hrun. rewrite Hcfg in Hrun. simpl in Hrun.
      fold (expanded X cfg) in Hrun. rewrite Hds in Hrun. discriminate. }
  case_bool_decide as Hlen.
  - unfold log_to_rrd, bind, lift, print in Hrun. rewrite Hcfg in Hrun. simpl in Hrun.
    fold (expanded X cfg) in Hrun. rewrite Hds in Hrun.
    rewrite bool_decide_true in Hrun by done. inversion Hrun. simpl.
    by rewrite app_nil_r.
  - destruct (log_to_rrd_completed _ _ _ _ _ _ _ _ _ _ Hcfg Hds ltac:(lia) Hrun)
      as (Hrows & Hfiles & _). by rewrite Hfiles, Hrows.
Qed.

(** ** The pool *)

Lemma for_each_outcome {A} (body : A → M unit) l w w0 :
  (∀ x, oblivious (body x)) →
  ((for_each l body w).1 = Ok tt ↔ ∀ x, x ∈ l → (body x w0).1 = Ok tt) ∧
  (∀ e, (for_each l body w).1 = Raise e → ∃ x, x ∈ l ∧ (body x w0).1 = Raise e).
Proof.
  intros Hobl. revert w. induction l as [|x l IH]; intros w; simpl.
  { split; [|discriminate]. split; [|done]. intros _ y Hy. by apply elem_of_nil in Hy. }
  unfold bind. pose proof (Hobl x w w0) as Hx.
  destruct (body x w) as [[[]|e0] w1]; simpl in Hx.
  - destruct (IH w1) as [Hok Hraise]. split.
    + rewrite Hok. split.
      * intros Hall y [->|Hy]%elem_of_cons; [done|by apply Hall].
      * intros Hall y Hy. apply Hall. by apply list_elem_of_further.
    + intros e He. destruct (Hraise e He) as (y & Hy & Hye).
      exists y. split; [by apply list_elem_of_further|done].
  - split.
    + split; [discriminate|]. intros Hall.
      specialize (Hall x (list_elem_of_here x l)). congruence.
    + intros e [= ->]. exists x. split; [apply list_elem_of_here|done].
Qed.

Lemma for_each_files {A} (body : A → M unit) (F : A → list (string * list row)) l w :
  (∀ x v, (body x v).1 = Ok tt → files (body x v).2 = files v ++ F x) →
  (for_each l body w).1 = Ok tt →
  files (for_each l body w).2 = files w ++ flat_map F l.
Proof.
  intros HF. revert w. induction l as [|x l IH]; intros w; simpl.
  { intros _. by rewrite app_nil_r. }
  unfold bind. pose proof (HF x w) as Hx.
  destruct (body x w) as [[[]|e0] w1]; simpl in *; [|discriminate].
  intros Hl. rewrite (IH w1 Hl), Hx by done. by rewrite app_assoc.
Qed.

Lemma run_batches_cons f assign c b bs ks w :
  run_batches f assign c (b :: bs) ks w
  = (match (for_each b f (worker_world
                            (default (Worker None [] ∅) (ks !! (assign c mod length ks)))
                            w)).1 with
     | Ok _ => []
     | Raise e => [e]
     end
     ++ (run_batches f assign (S c) bs
           (<[assign c mod length ks :=
                worker_after (for_each b f (worker_world
                   (default (Worker None [] ∅) (ks !! (assign c mod length ks))) w)).2]> ks)
           (parent_after (for_each b f (worker_world
              (default (Worker None [] ∅) (ks !! (assign c mod length ks))) w)).2 w)).1.1,
     (run_batches f assign (S c) bs
           (<[assign c mod length ks :=
                worker_after (for_each b f (worker_world
                   (default (Worker None [] ∅) (ks !! (assign c mod length ks))) w)).2]> ks)
           (parent_after (for_each b f (worker_world
              (default (Worker None [] ∅) (ks !! (assign c mod length ks))) w)).2 w)).1.2,
     (run_batches f assign (S c) bs
           (<[assign c mod length ks :=
                worker_after (for_each b f (worker_world
                   (default (Worker None [] ∅) (ks !! (assign c mod length ks))) w)).2]> ks)
           (parent_after (for_each b f (worker_world
              (default (Worker None [] ∅) (ks !! (assign c mod length ks))) w)).2 w)).2).
Proof.
  simpl.
  by destruct (for_each b f (worker_world
                 (default (Worker None [] ∅) (ks !! (assign c mod length ks))) w)).1.
Qed.

(** The parent's recording, environment and pools are out of the workers' reach. *)
Lemma run_batches_parent f assign c bs ks w :
  rr_time (run_batches f assign c bs ks w).2 = rr_time w ∧
  rr_rows (run_batches f assign c bs ks w).2 = rr_rows w ∧
  environ (run_batches f assign c bs ks w).2 = environ w ∧
  pools (run_batches f assign c bs ks w).2 = pools w.
Proof.
  revert c ks w. induction bs as [|b bs IH]; intros c ks w; [done|].
  rewrite run_batches_cons. simpl.
  match goal with |- context [run_batches f assign (S c) bs ?ks' ?w'] =>
    destruct (IH (S c) ks' w') as (H1 & H2 & H3 & H4) end.
  rewrite H1, H2, H3, H4. done.
Qed.

(** No batch fails exactly when every task completes, and the exception of a
    failed batch is the exception of one of its tasks. *)
Lemma run_batches_outcome f assign c bs ks w w0 :
  (∀ i, oblivious (f i)) →
  ((run_batches f assign c bs ks w).1.1 = [] ↔
   ∀ i, i ∈ concat bs → (f i w0).1 = Ok tt) ∧
  (∀ e, e ∈ (run_batches f assign c bs ks w).1.1 →
        ∃ i, i ∈ concat bs ∧ (f i w0).1 = Raise e).
Proof.
  intros Hobl. revert c ks w. induction bs as [|b bs IH]; intros c ks w.
  { simpl. split; [|by intros e He%elem_of_nil].
    split; [|done]. intros _ i Hi. by apply elem_of_nil in Hi. }
  rewrite run_batches_cons. simpl.
  match goal with |- context [run_batches f assign (S c) bs ?ks' ?w'] =>
    destruct (IH (S c) ks' w') as [Hok Hraise];
    generalize dependent (run_batches f assign (S c) bs ks' w')
  end.
  intros rest Hok Hraise.
  match goal with |- context [for_each b f ?v] =>
    destruct (for_each_outcome f b v w0 Hobl) as [Hbok Hbraise];
    generalize dependent (for_each b f v)
  end.
  intros r Hbok Hbraise. destruct r.1 as [[]|e0] eqn:Hr.
  - split.
    + simpl. rewrite Hok. split.
      * intros Hall i [Hi|Hi]%elem_of_app; [by apply Hbok|by apply Hall].
      * intros Hall i Hi. apply Hall, elem_of_app. by right.
    + simpl. intros e He. destruct (Hraise e He) as (i & Hi & Hie).
      exists i. split; [apply elem_of_app; by right|done].
  - split.
    + split; [discriminate|]. intros Hall.
      destruct (Hbraise e0 eq_refl) as (i & Hi & Hie).
      rewrite Hall in Hie by (apply elem_of_app; by left). discriminate.
    + simpl. intros e [->|He]%elem_of_cons.
      * destruct (Hbraise e0 eq_refl) as (i & Hi & Hie).
        exists i. split; [apply elem_of_app; by left|done].
      * destruct (Hraise e He) as (i & Hi & Hie).
        exists i. split; [apply elem_of_app; by right|done].
Qed.

(** When no batch fails the parent finds the files of every task. *)
Lemma run_batches_files f (F : nat → list (string * list row)) assign c bs ks w :
  (∀ i v, (f i v).1 = Ok tt → files (f i v).2 = files v ++ F i) →
  (run_batches f assign c bs ks w).1.1 = [] →
  files (run_batches f assign c bs ks w).2 = files w ++ flat_map F (concat bs).
Proof.
  intros HF. revert c ks w. induction bs as [|b bs IH]; intros c ks w.
  { simpl. intros _. by rewrite app_nil_r. }
  rewrite run_batches_cons. simpl.
  match goal with |- context [for_each b f ?v] =>
    pose proof (for_each_files f F b v HF) as Hb;
    destruct (for_each b f v) as [[[]|e0] v1] eqn:Hr
  end; simpl in *; [|discriminate].
  intros Hrest. rewrite (IH _ _ _ Hrest). simpl.
  rewrite Hb by done. by rewrite flat_map_app, app_assoc.
Qed.

Lemma concat_batches {A} fuel size (l : list A) :
  1 ≤ size → length l ≤ fuel → concat (batches fuel size l) = l.
Proof.
  intros Hsize. revert l. induction fuel as [|fuel IH]; intros l Hlen.
  { destruct l; [done|simpl in Hlen; lia]. }
  destruct l as [|x l]; [done|].
  change (take size (x :: l) ++ concat (batches fuel size (drop size (x :: l))) = x :: l).
  rewrite IH; [apply take_drop|].
  rewrite length_drop. simpl in *. lia.
Qed.

Lemma pool_chunksize_pos p n : 1 ≤ p → 1 ≤ n → 1 ≤ pool_chunksize p n.
Proof.
  intros Hp Hn. unfold pool_chunksize. case_bool_decide as Hmod; [|lia].
  assert (n = p * 4 * (n / (p * 4))) as Hdiv.
  { pose proof (Nat.div_mod_eq n (p * 4)). lia. }
  destruct (n / (p * 4)); lia.
Qed.

Lemma pool_tasks p (tasks : list nat) :
  1 ≤ p → concat (batches (length tasks) (pool_chunksize p (length tasks)) tasks) = tasks.
Proof.
  intros Hp. destruct tasks as [|x l]; [done|].
  apply concat_batches; [|done]. apply pool_chunksize_pos; [done|simpl; lia].
Qed.

(** [starmap] returns exactly when every task completes, and otherwise
    raises the exception of one of the tasks; the parent keeps its
    recording and its environment; when it returns, the files the tasks
    saved are there. *)
Lemma pool_starmap_spec assign first p f (F : nat → list (string * list row)) tasks w :
  1 ≤ p → (∀ i, oblivious (f i)) →
  (∀ i v, (f i v).1 = Ok tt → files (f i v).2 = files v ++ F i) →
  ((pool_starmap assign first p f tasks w).1 = Ok tt ↔
   ∀ i, i ∈ tasks → (f i w).1 = Ok tt) ∧
  (∀ e, (pool_starmap assign first p f tasks w).1 = Raise e →
        ∃ i, i ∈ tasks ∧ (f i w).1 = Raise e) ∧
  rr_time (pool_starmap assign first p f tasks w).2 = rr_time w ∧
  rr_rows (pool_starmap assign first p f tasks w).2 = rr_rows w ∧
  environ (pool_starmap assign first p f tasks w).2 = environ w ∧
  pools (pool_starmap assign first p f tasks w).2 = pools w ++ [(p, tasks)] ∧
  ((pool_starmap assign first p f tasks w).1 = Ok tt →
   files (pool_starmap assign first p f tasks w).2 = files w ++ flat_map F tasks).
Proof.
  intros Hp Hobl HF. unfold pool_starmap. rewrite bool_decide_false by lia.
  set (bs := batches (length tasks) (pool_chunksize p (length tasks)) tasks).
  set (ks := replicate p (Worker None [] (environ w))).
  destruct (run_batches_outcome f assign 0 bs ks w w Hobl) as [Hok Hraise].
  destruct (run_batches_parent f assign 0 bs ks w) as (Ht & Hr & He & Hpl).
  pose proof (run_batches_files f F assign 0 bs ks w HF) as Hfiles.
  unfold bs in Hok, Hraise, Hfiles. rewrite (pool_tasks p tasks Hp) in Hok, Hraise, Hfiles.
  fold bs in Hok, Hraise, Hfiles.
  generalize dependent (run_batches f assign 0 bs ks w). intros r Hok Hraise Ht Hr He Hpl Hfiles.
  destruct r.1.1 as [|e0 errs] eqn:Herrs.
  - simpl. split; [|split; [discriminate|]].
    + split; [intros _; by apply Hok|done].
    + split; [exact Ht|]. split; [exact Hr|]. split; [exact He|].
      split; [by rewrite Hpl|]. intros _. by apply Hfiles.
  - assert (first (length (e0 :: errs)) mod length (e0 :: errs) < length (e0 :: errs))
      as Hlt by (apply Nat.mod_upper_bound; simpl; lia).
    destruct (lookup_lt_is_Some_2 _ _ Hlt) as [e Hlook]. rewrite Hlook. simpl.
    split; [|split].
    + split; [discriminate|]. intros Hall. by apply Hok in Hall.
    + intros e' [= <-]. apply Hraise. by eapply list_elem_of_lookup_2.
    + split; [exact Ht|]. split; [exact Hr|]. split; [exact He|].
      split; [by rewrite Hpl|]. discriminate.
Qed.

(** ** The batch launcher and its pool *)

(** C9 (batch launcher). Discovery walks the tree top-down: a directory is a
    run exactly when it lists a [".hydra"] subdirectory, and every
    subdirectory is searched in turn.  The run at position [i] gets the device
    [gpus[i mod len(gpus)]], and in whatever process it runs,
    [launch_rerun_vis] enters the orchestrator only after putting that
    device's string and the platform into the environment.  With more than
    one device [main] prints the count and hands all run indices, with
    [launch_rerun_vis], to one pool of [len(gpus)] worker processes: the call
    returns exactly when every run completes, and then every run's recording
    file is saved; otherwise [main] raises the exception of a run that
    failed; the parent's recording and environment stay as they were.  With
    exactly one device [main] runs the runs in order in its own process. *)
Theorem batch_launcher_dispatch X (args : arguments) (w : world) :
  (∀ root name subs fnames,
     found_runs (os_walk root (Dir name subs fnames))
     = (if bool_decide (".hydra" ∈ map dir_name subs) then [root] else [])
         ++ flat_map (fun s => found_runs (os_walk (path_join root (dir_name s)) s)) subs) ∧
  (∀ i, i < length (log_dirs args) → gpus args ≠ [] →
        ∃ dev, gpus args !! (i mod length (gpus args)) = Some dev) ∧
  (∀ i log_dir dev v,
     log_dirs args !! i = Some log_dir →
     gpus args !! (i mod length (gpus args)) = Some dev →
     log_root args ≠ "" →
     launch_rerun_vis X i args v
     = log_to_rrd X log_dir dev (phases_arg args) (launch_save_dir args log_dir)
                  (options args) (launched_world dev (launch_save_dir args log_dir) v) ∧
     environ (launched_world dev (launch_save_dir args log_dir) v) !! "EGL_DEVICE_ID"
     = Some (match dev with PyInt z => pretty z | PyStr s => s end) ∧
     environ (launched_world dev (launch_save_dir args log_dir) v) !! "PYOPENGL_PLATFORM"
     = Some "egl") ∧
  (∀ found,
     found = match walk_tree X (log_root args) with
             | Some d => found_runs (os_walk (log_root args) d)
             | None => []
             end →
     (1 < length (gpus args) →
      main X args w
      = pool_starmap (pool_worker X) (pool_first_failure X) (length (gpus args))
                     (fun i => launch_rerun_vis X i (set_log_dirs args found))
                     (range (length found))
                     (World (rr_time w) (rr_rows w)
                            (stdout w ++ ["FOUND " +:+ pretty (length found) +:+ " TO RENDER"])
                            (files w) (environ w) (made_dirs w) (pools w)) ∧
      ((main X args w).1 = Ok tt ↔
       ∀ i, i < length found →
            (launch_rerun_vis X i (set_log_dirs args found) w).1 = Ok tt) ∧
      (∀ e, (main X args w).1 = Raise e →
         ∃ i, i < length found ∧
              (launch_rerun_vis X i (set_log_dirs args found) w).1 = Raise e) ∧
      rr_time (main X args w).2 = rr_time w ∧
      rr_rows (main X args w).2 = rr_rows w ∧
      environ (main X args w).2 = environ w ∧
      pools (main X args w).2 = pools w ++ [(length (gpus args), range (length found))] ∧
      ((main X args w).1 = Ok tt →
       ∀ file, file ∈ files (main X args w).2 ↔
               file ∈ files w ∨
               ∃ i, i < length found ∧
                    file ∈ files (launch_rerun_vis X i (set_log_dirs args found) w).2)) ∧
     (length (gpus args) = 1 →
      main X args w
      = (print ("FOUND " +:+ pretty (length found) +:+ " TO RENDER") ;;
         for_each (range (length found))
                  (fun i => launch_rerun_vis X i (set_log_dirs args found))) w)).
Proof.
  split; [|split; [|split]].
  - intros root name subs fnames. simpl. unfold found_runs at 1. simpl.
    rewrite filter_cons. simpl. case_decide as Hh.
    + rewrite bool_decide_true by done. simpl. f_equal.
      by rewrite <- found_runs_flat_map.
    + rewrite bool_decide_false by done. simpl.
      by rewrite <- found_runs_flat_map.
  - intros i Hi Hg. apply lookup_lt_is_Some_2. apply Nat.mod_upper_bound.
    by destruct (gpus args).
  - intros i log_dir dev v Hdir Hdev Hroot.
    split; [by apply launch_enters|]. unfold launched_world. simpl.
    split; [by rewrite lookup_insert_ne, lookup_insert_eq|by rewrite lookup_insert_eq].
  - intros found ->. split; intros Hg.
    + set (found := match walk_tree X (log_root args) with
                    | Some d => found_runs (os_walk (log_root args) d)
                    | None => []
                    end).
      set (w1 := World (rr_time w) (rr_rows w)
                       (stdout w ++ ["FOUND " +:+ pretty (length found) +:+ " TO RENDER"])
                       (files w) (environ w) (made_dirs w) (pools w)).
      assert (main X args w
              = pool_starmap (pool_worker X) (pool_first_failure X) (length (gpus args))
                             (fun i => launch_rerun_vis X i (set_log_dirs args found))
                             (range (length found)) w1) as Hmain.
      { unfold main, bind, print. simpl. rewrite bool_decide_true by done. reflexivity. }
      split; [exact Hmain|]. rewrite Hmain.
      destruct (pool_starmap_spec (pool_worker X) (pool_first_failure X)
                  (length (gpus args))
                  (fun i => launch_rerun_vis X i (set_log_dirs args found))
                  (run_files X (set_log_dirs args found))
                  (range (length found)) w1)
        as (Hok & Hraise & Ht & Hr & He & Hp & Hfiles).
      { lia. }
      { intros i. apply oblivious_launch. }
      { intros i v. apply launch_saves. }
      assert (∀ i, (launch_rerun_vis X i (set_log_dirs args found) w1).1
                   = (launch_rerun_vis X i (set_log_dirs args found) w).1) as Hsame
        by (intros i; apply oblivious_launch).
      split; [|split; [|split; [|split; [|split; [|split]]]]]; try done.
      * rewrite Hok. split.
        -- intros Hall i Hi. rewrite <- Hsame. apply Hall, elem_of_seq. lia.
        -- intros Hall i Hi%elem_of_seq. rewrite Hsame. apply Hall. lia.
      * intros e He'. destruct (Hraise e He') as (i & Hi%elem_of_seq & Hie).
        exists i. split; [lia|]. by rewrite <- Hsame.
      * intros Hdone file. rewrite (Hfiles Hdone). simpl.
        pose proof (proj1 Hok Hdone) as Hall.
        rewrite elem_of_app. split.
        -- intros [Hold|Hnew]; [by left|]. right.
           apply list_elem_of_In, in_flat_map in Hnew as (i & Hi%in_seq & Hfile).
           exists i. split; [lia|].
           rewrite launch_saves.
           ++ apply elem_of_app. right. by apply list_elem_of_In.
           ++ rewrite <- Hsame. apply Hall, elem_of_seq. lia.
        -- intros [Hold|(i & Hi & Hfile)]; [by left|].
           rewrite launch_saves in Hfile.
           2:{ rewrite <- Hsame. apply Hall, elem_of_seq. lia. }
           apply elem_of_app in Hfile as [Hold|Hnew]; [by left|]. right.
           apply list_elem_of_In, in_flat_map. exists i.
           split; [apply in_seq; lia|by apply list_elem_of_In].
    + unfold main. simpl. rewrite bool_decide_false by lia. reflexivity.
Qed.

Lemma batch_launcher_dispatch_witness :
  found_runs (os_walk "logs" ex_tree) = ["logs/a"; "logs/b/c"; "logs/d"] ∧
  environ (launched_world (PyInt 1) "logs/b/c" ex_world) !! "EGL_DEVICE_ID" = Some "1" ∧
  environ (launched_world (PyInt 1) "logs/b/c" ex_world) !! "PYOPENGL_PLATFORM"
  = Some "egl" ∧
  (main ex_X (ex_args [PyInt 0; PyInt 1]) ex_world).1 = Ok tt ∧
  pools (main ex_X (ex_args [PyInt 0; PyInt 1]) ex_world).2 = [(2, [0; 1; 2])] ∧
  map fst (files (main ex_X (ex_args [PyInt 0; PyInt 1]) ex_world).2)
  = ["logs/a/log.rrd"; "logs/b/c/log.rrd"; "logs/d/log.rrd"] ∧
  (main ex_X_no_snapshots (ex_args [PyInt 0; PyInt 1]) ex_world).1 = Raise IndexError ∧
  map fst (files (main ex_X_no_snapshots (ex_args [PyInt 0; PyInt 1]) ex_world).2)
  = ["logs/b/c/log.rrd"; "logs/d/log.rrd"].
Proof.
  destruct (batch_launcher_dispatch ex_X (ex_args [PyInt 0; PyInt 1]) ex_world)
    as (_ & _ & _ & Hmain).
  destruct (batch_launcher_dispatch ex_X
              (set_log_dirs (ex_args [PyInt 0; PyInt 1]) ["logs/a"; "logs/b/c"; "logs/d"])
              ex_world) as (_ & _ & Hlaunch & _).
  destruct (Hlaunch 1 "logs/b/c" (PyInt 1) ex_world eq_refl eq_refl ltac:(discriminate))
    as (_ & Hdev & Hegl).
  destruct (Hmain _ eq_refl) as [Hpool _].
  destruct (Hpool ltac:(simpl; lia)) as (_ & Hok & _ & _ & _ & _ & Hpools & _).
  split; [vm_compute; reflexivity|].
  split; [exact Hdev|]. split; [exact Hegl|].
  split.
  { apply Hok. intros i Hi.
    destruct i as [|[|[|i]]]; [vm_compute; reflexivity ..|simpl in Hi; lia]. }
  split; [exact Hpools|].
  split; [vm_compute; reflexivity|].
  split; vm_compute; reflexivity.
Defined.
